(** * The navigation transition engine of vue-router

    A shallow embedding of [src/history/base.js] (class [History]) and
    [src/util/resolve-components.js], with the helpers of [src/util/async.js],
    [src/util/errors.js] and [src/util/route.js] they call, and of what
    surrounds them: [registerHook] of [src/index.js], [getLocation] of
    [src/history/html5.js], and the parts of [src/components/view.js] and
    [src/install.js] that keep the instances and the props of the views.

    JavaScript objects that are shared and mutated (route records) live in an
    explicit heap and are named by their reference; arrays of records are
    lists of references, so that [===] on records is equality of references.
    Callback-passing code is embedded in continuation-passing style over the
    engine state, with a result type that records a thrown value. *)

From stdpp Require Import gmap strings list fin_maps.
From Stdlib Require Import Ascii.

Open Scope Z_scope.
Open Scope nat_scope.

(** ** Data model *)

(** Identity of a route record on the heap. *)
Abbreviation RecordRef := nat.
(** Identity of a user callback (a JavaScript function that is only called). *)
Abbreviation FnRef := nat.
(** A live Vue instance bound to a view slot. *)
Abbreviation Instance := nat.

(** A resolved navigation target.  Routes are frozen objects: [route_ref] is
    the identity of the object, the one [===] and [!==] compare. *)
Record Route := {
  route_ref : nat;
  path : string;
  fullPath : string;
  query : gmap string (list string);
  params : gmap string string;
  hash : string;
  name : option string;
  matched : list RecordRef;
  redirectedFrom : option string
}.

(** [a === b] on route objects. *)
Definition same_route_object (a b : Route) : bool :=
  bool_decide (route_ref a = route_ref b).

(** [NavigationFailureType] of util/errors.js. *)
Inductive NavigationFailureType := redirected | aborted | cancelled | duplicated.

Global Instance NavigationFailureType_eq_dec : EqDecision NavigationFailureType.
Proof. solve_decision. Defined.

(** An object passed to [next] that is neither a function nor an [Error]:
    [loc_path] is [Some p] when [typeof to.path === 'string'], likewise
    [loc_name]; [loc_replace] is the truth value of [to.replace]. *)
Record Location := {
  loc_path : option string;
  loc_name : option string;
  loc_replace : bool
}.

(** The JavaScript values that reach the engine through [next], [throw],
    [reject] and the callbacks. *)
Inductive JsValue :=
| VUndefined
| VNull
| VBool (b : bool)
| VNumber (n : Z)
| VString (s : string)
| VFunction (f : FnRef)
| VObject (o : Location)
| VError (e : JsError)
with JsError :=
| UserError (id : nat)
| TypeError (msg : string)
| AsyncComponentError (key : string) (reason : JsValue)
| NavigationFailure (type : NavigationFailureType) (from to : Route).

(** What a guard does when it is called with [(to, from, next)]: the values
    it passes to [next] before it returns, in order, and the value it throws,
    if it throws.  A guard that keeps [next] for later has [calls = []]. *)
Record Reaction := {
  calls : list JsValue;
  throws : option JsValue
}.

(** A user guard: its identity and its body, which may depend on the
    instance it is applied to ([this]). *)
Record NavigationGuard := {
  guard_ref : nat;
  guard_body : option Instance -> Route -> Route -> Reaction
}.

(** The value of [def.options[name]]: one guard or an array of guards. *)
Inductive GuardEntry :=
| OneGuard (g : NavigationGuard)
| ManyGuards (gs : list NavigationGuard).

(** A resolved view definition; [comp_options] is [def.options] once
    [Vue.extend] has been applied where [extractGuard] applies it. *)
Record Component := {
  comp_is_function : bool;
  comp_options : gmap string GuardEntry
}.

(** The value an async factory resolves with. *)
Inductive ResolvedDef :=
| PlainDef (c : Component)
| ESModule (default_ : Component).

Inductive FactoryAction :=
| CallResolve (d : ResolvedDef)
| CallReject (reason : JsValue).

(** A function without [cid]: an async component factory.  [factory_actions]
    are the calls it makes to its [resolve] and [reject] arguments before it
    returns, [factory_throws] the value it throws, if any. *)
Record Factory := {
  factory_ref : nat;
  factory_actions : list FactoryAction;
  factory_throws : option JsValue
}.

Inductive ViewBinding :=
| Resolved (c : Component)
| AsyncFactory (f : Factory).

(** One node of a matched chain.  [components] keeps the insertion order of
    the keys, the order [Object.keys] returns. *)
Record RouteRecord := {
  components : list (string * ViewBinding);
  instances : gmap string Instance;
  enteredCbs : gmap string (list FnRef);
  beforeEnter : option NavigationGuard
}.

(** An entry of the guard queue. *)
Inductive Hook :=
| Guard (g : NavigationGuard)
| BoundRouteGuard (g : NavigationGuard) (instance : Instance)
| RouteEnterGuard (g : NavigationGuard) (match_ : RecordRef) (key : string)
| ResolveAsync (matched_ : list RecordRef).

Inductive Arg :=
| ARoute (r : Route)
| AValue (v : JsValue).

(** Calls that leave the engine, in the order they are made. *)
Inductive Effect :=
| EHook (hook : Hook) (to from : Route)
| ECall (f : FnRef) (args : list Arg)
| EEnsureURL (push : bool)
| EPush (loc : JsValue)
| EReplace (loc : JsValue)
| EWarn (msg : string)
| EWarnAsync (key : string) (reason : JsValue)
| EConsoleError (err : JsValue)
| ENextTick (entered : Route).

Record Router := {
  beforeHooks : list (option NavigationGuard);
  resolveHooks : list (option NavigationGuard);
  afterHooks : list (option FnRef);
  app : bool;
  router_match : JsValue -> Route -> Route + JsValue
}.

(** The state of [History], with the heap of route records, the [resolved]
    property of the async factories and the calls made so far.  [listeners]
    holds the clean-up functions the backend has registered. *)
Record History := {
  router : Router;
  current : Route;
  pending : option Route;
  cb : option FnRef;
  ready : bool;
  readyCbs : list FnRef;
  readyErrorCbs : list FnRef;
  errorCbs : list FnRef;
  listeners : list FnRef;
  production : bool;
  heap : gmap nat RouteRecord;
  factory_resolved : gmap nat Component;
  trace : list Effect
}.

Definition set_current (r : Route) (h : History) : History :=
  {| router := router h; current := r; pending := pending h; cb := cb h;
     ready := ready h; readyCbs := readyCbs h;
     readyErrorCbs := readyErrorCbs h; errorCbs := errorCbs h;
     listeners := listeners h; production := production h; heap := heap h;
     factory_resolved := factory_resolved h; trace := trace h |}.

Definition set_pending (p : option Route) (h : History) : History :=
  {| router := router h; current := current h; pending := p; cb := cb h;
     ready := ready h; readyCbs := readyCbs h;
     readyErrorCbs := readyErrorCbs h; errorCbs := errorCbs h;
     listeners := listeners h; production := production h; heap := heap h;
     factory_resolved := factory_resolved h; trace := trace h |}.

Definition set_ready (b : bool) (h : History) : History :=
  {| router := router h; current := current h; pending := pending h;
     cb := cb h; ready := b; readyCbs := readyCbs h;
     readyErrorCbs := readyErrorCbs h; errorCbs := errorCbs h;
     listeners := listeners h; production := production h; heap := heap h;
     factory_resolved := factory_resolved h; trace := trace h |}.

Definition set_readyCbs (l : list FnRef) (h : History) : History :=
  {| router := router h; current := current h; pending := pending h;
     cb := cb h; ready := ready h; readyCbs := l;
     readyErrorCbs := readyErrorCbs h; errorCbs := errorCbs h;
     listeners := listeners h; production := production h; heap := heap h;
     factory_resolved := factory_resolved h; trace := trace h |}.

Definition set_readyErrorCbs (l : list FnRef) (h : History) : History :=
  {| router := router h; current := current h; pending := pending h;
     cb := cb h; ready := ready h; readyCbs := readyCbs h;
     readyErrorCbs := l; errorCbs := errorCbs h;
     listeners := listeners h; production := production h; heap := heap h;
     factory_resolved := factory_resolved h; trace := trace h |}.

Definition set_errorCbs (l : list FnRef) (h : History) : History :=
  {| router := router h; current := current h; pending := pending h;
     cb := cb h; ready := ready h; readyCbs := readyCbs h;
     readyErrorCbs := readyErrorCbs h; errorCbs := l;
     listeners := listeners h; production := production h; heap := heap h;
     factory_resolved := factory_resolved h; trace := trace h |}.

Definition set_cb (f : option FnRef) (h : History) : History :=
  {| router := router h; current := current h; pending := pending h;
     cb := f; ready := ready h; readyCbs := readyCbs h;
     readyErrorCbs := readyErrorCbs h; errorCbs := errorCbs h;
     listeners := listeners h; production := production h; heap := heap h;
     factory_resolved := factory_resolved h; trace := trace h |}.

Definition set_listeners (l : list FnRef) (h : History) : History :=
  {| router := router h; current := current h; pending := pending h;
     cb := cb h; ready := ready h; readyCbs := readyCbs h;
     readyErrorCbs := readyErrorCbs h; errorCbs := errorCbs h;
     listeners := l; production := production h; heap := heap h;
     factory_resolved := factory_resolved h; trace := trace h |}.

Definition set_heap (m : gmap nat RouteRecord) (h : History) : History :=
  {| router := router h; current := current h; pending := pending h;
     cb := cb h; ready := ready h; readyCbs := readyCbs h;
     readyErrorCbs := readyErrorCbs h; errorCbs := errorCbs h;
     listeners := listeners h; production := production h; heap := m;
     factory_resolved := factory_resolved h; trace := trace h |}.

Definition set_factory_resolved (m : gmap nat Component) (h : History)
  : History :=
  {| router := router h; current := current h; pending := pending h;
     cb := cb h; ready := ready h; readyCbs := readyCbs h;
     readyErrorCbs := readyErrorCbs h; errorCbs := errorCbs h;
     listeners := listeners h; production := production h; heap := heap h;
     factory_resolved := m; trace := trace h |}.

(** Record one outgoing call. *)
Definition emit (e : Effect) (h : History) : History :=
  {| router := router h; current := current h; pending := pending h;
     cb := cb h; ready := ready h; readyCbs := readyCbs h;
     readyErrorCbs := readyErrorCbs h; errorCbs := errorCbs h;
     listeners := listeners h; production := production h; heap := heap h;
     factory_resolved := factory_resolved h; trace := trace h ++ [e] |}.

(** The outcome of running engine code: it returns, or it throws [e]. *)
Inductive Res :=
| Ok (h : History)
| Throw (h : History) (e : JsValue).

Definition state_of (r : Res) : History :=
  match r with Ok h => h | Throw h _ => h end.

(** Code that runs on the engine state. *)
Abbreviation Cont := (History -> Res).

(** ** util/errors.js, util/route.js, util/async.js, util/warn.js *)

(** Modelled from the spec: [isError] of util/errors.js, which is not part of
    the sources at hand.  The spec speaks of "an [Error]" value; the values
    built by [new Error] and by the four failure constructors are the
    [VError] ones. *)
Definition isError (v : JsValue) : bool :=
  match v with VError _ => true | _ => false end.

(** Modelled from the spec: [isNavigationFailure(err, errorType)] of
    util/errors.js: [err] is one of the four navigation failures, of kind
    [errorType] when one is given. *)
Definition isNavigationFailure (err : JsValue)
    (errorType : option NavigationFailureType) : bool :=
  match err with
  | VError (NavigationFailure t _ _) =>
      match errorType with
      | None => true
      | Some t' => bool_decide (t = t')
      end
  | _ => false
  end.

(** Modelled from the spec: the four failure constructors of util/errors.js;
    each failure carries its kind and the [from] and [to] routes. *)
Definition createNavigationDuplicatedError (from to : Route) : JsValue :=
  VError (NavigationFailure duplicated from to).
Definition createNavigationCancelledError (from to : Route) : JsValue :=
  VError (NavigationFailure cancelled from to).
Definition createNavigationRedirectedError (from to : Route) : JsValue :=
  VError (NavigationFailure redirected from to).
Definition createNavigationAbortedError (from to : Route) : JsValue :=
  VError (NavigationFailure aborted from to).

(** Modelled from the spec: [START] of util/route.js, the sentinel route the
    engine starts from; it matches no record. *)
Definition START : Route :=
  {| route_ref := 0; path := "/"; fullPath := "/"; query := ∅; params := ∅;
     hash := ""; name := None; matched := []; redirectedFrom := None |}.

(** Modelled from the spec: [isSameRoute] of util/route.js.  By section 3 of
    the spec two routes are the same when path, query, hash and params are
    deep-equal; the test on the matched chains is in [confirmTransition]. *)
Definition isSameRoute (a b : Route) : bool :=
  bool_decide (path a = path b) && bool_decide (query a = query b)
  && bool_decide (hash a = hash b) && bool_decide (params a = params b).

(** Modelled from the spec: [runQueue(queue, fn, cb)] of util/async.js
    (section 4.4): the entries are run strictly in order, an absent entry is
    passed over, [fn] receives the entry and the continuation that runs the
    rest, and [cb] runs when the queue is exhausted.  The queue stops where
    [fn] does not call its continuation. *)
Fixpoint runQueue (queue : list (option Hook))
    (fn : Hook -> Cont -> Cont) (cb : Cont) : Cont :=
  match queue with
  | [] => cb
  | None :: rest => runQueue rest fn cb
  | Some hook :: rest => fn hook (runQueue rest fn cb)
  end.

(** [warn(false, msg)] of util/warn.js prints [msg]. *)
Definition warn (msg : string) (h : History) : History := emit (EWarn msg) h.

(** The truth value of a JavaScript value, as [&&] and [if] take it. *)
Definition truthy (v : JsValue) : bool :=
  match v with
  | VUndefined | VNull => false
  | VBool b => b
  | VNumber n => negb (n =? 0)%Z
  | VString s => negb (bool_decide (s = ""))
  | VFunction _ | VObject _ | VError _ => true
  end.

(** Calling a user callback. *)
Definition call (f : FnRef) (args : list Arg) (h : History) : History :=
  emit (ECall f args) h.

(** [cbs.forEach(cb => cb(...args))]. *)
Definition forEach_call (cbs : list FnRef) (args : list Arg) (h : History)
  : History :=
  fold_left (fun acc f => call f args acc) cbs h.

(** ** util/resolve-components.js *)

(** An element handed to [Array.prototype.concat]: a value that is not an
    array is appended as it is, an array is spread by one level. *)
Inductive Item (A : Type) :=
| One (a : A)
| Many (l : list A).
Arguments One {A} a.
Arguments Many {A} l.

(** [flatten(arr) = Array.prototype.concat.apply([], arr)]. *)
Definition flatten {A : Type} (arr : list (Item A)) : list A :=
  concat (map (fun it => match it with One a => [a] | Many l => l end) arr).

Definition emptyRecord : RouteRecord :=
  {| components := []; instances := ∅; enteredCbs := ∅; beforeEnter := None |}.

(** Dereference a record. *)
Definition record_of (hp : gmap nat RouteRecord) (m : RecordRef) : RouteRecord :=
  default emptyRecord (hp !! m).

(** [m.components[key]]. *)
Fixpoint lookup_binding (key : string) (l : list (string * ViewBinding))
  : option ViewBinding :=
  match l with
  | [] => None
  | (k, b) :: rest => if decide (k = key) then Some b else lookup_binding key rest
  end.

(** [m.components[key] = b] keeps the position of a key that is present. *)
Fixpoint assign_binding (key : string) (b : ViewBinding)
    (l : list (string * ViewBinding)) : list (string * ViewBinding) :=
  match l with
  | [] => [(key, b)]
  | (k, b') :: rest =>
      if decide (k = key) then (k, b) :: rest
      else (k, b') :: assign_binding key b rest
  end.

(** [flatMapComponents(matched, fn)] for an [fn] without side effects: [fn]
    is applied to every view slot of every record, records in chain order and
    slots in key order, and the per-record arrays are flattened. *)
Definition flatMapComponents {A : Type} (hp : gmap nat RouteRecord)
    (matched_ : list RecordRef)
    (fn : ViewBinding -> option Instance -> RecordRef -> string -> A) : list A :=
  flatten (map (fun m =>
    Many (map (fun kb : string * ViewBinding =>
                 fn kb.2 (instances (record_of hp m) !! kb.1) m kb.1)
              (components (record_of hp m)))) matched_).

(** The variables [hasAsync], [pending] and [error] of one run of the
    function [resolveAsyncComponents] returns, and the [called] flag of each
    [once] wrapper, by view slot (position of the record in [matched], key). *)
Record StepState := {
  hasAsync : bool;
  pendingCount : Z;
  error : option JsValue;
  resolveCalled : gset (nat * string);
  rejectCalled : gset (nat * string)
}.

Definition initialStep : StepState :=
  {| hasAsync := false; pendingCount := 0; error := None;
     resolveCalled := ∅; rejectCalled := ∅ |}.

(** [once(fn)]: the wrapper runs [fn] the first time and nothing afterwards;
    [called] reads the flag of the wrapper and [mark] sets it. *)
Definition once (called : StepState -> bool) (mark : StepState -> StepState)
    (fn : StepState -> History -> StepState * Res)
  : StepState -> History -> StepState * Res :=
  fun st h => if called st then (st, Ok h) else fn (mark st) h.

Definition mark_resolve (slot : nat * string) (st : StepState) : StepState :=
  {| hasAsync := hasAsync st; pendingCount := pendingCount st;
     error := error st; resolveCalled := {[slot]} ∪ resolveCalled st;
     rejectCalled := rejectCalled st |}.

Definition mark_reject (slot : nat * string) (st : StepState) : StepState :=
  {| hasAsync := hasAsync st; pendingCount := pendingCount st;
     error := error st; resolveCalled := resolveCalled st;
     rejectCalled := {[slot]} ∪ rejectCalled st |}.

Definition set_pendingCount (n : Z) (st : StepState) : StepState :=
  {| hasAsync := hasAsync st; pendingCount := n; error := error st;
     resolveCalled := resolveCalled st; rejectCalled := rejectCalled st |}.

Definition set_error (e : JsValue) (st : StepState) : StepState :=
  {| hasAsync := hasAsync st; pendingCount := pendingCount st;
     error := Some e; resolveCalled := resolveCalled st;
     rejectCalled := rejectCalled st |}.

Definition begin_async (st : StepState) : StepState :=
  {| hasAsync := true; pendingCount := (pendingCount st + 1)%Z;
     error := error st; resolveCalled := resolveCalled st;
     rejectCalled := rejectCalled st |}.

(** [isESModule(resolvedDef) ? resolvedDef.default : resolvedDef]. *)
Definition unwrap_module (d : ResolvedDef) : Component :=
  match d with
  | ESModule c => c
  | PlainDef c => c
  end.

(** [typeof resolvedDef === 'function' ? resolvedDef : _Vue.extend(resolvedDef)]. *)
Definition as_constructor (c : Component) : Component :=
  if comp_is_function c then c
  else {| comp_is_function := true; comp_options := comp_options c |}.

Definition assign_component (m : RecordRef) (key : string) (b : ViewBinding)
    (h : History) : History :=
  let r := record_of (heap h) m in
  set_heap (<[m := {| components := assign_binding key b (components r);
                      instances := instances r;
                      enteredCbs := enteredCbs r;
                      beforeEnter := beforeEnter r |}]> (heap h)) h.

(** The function given to [once] for [resolve]. *)
Definition resolve_body (m : RecordRef) (key : string) (def : Factory)
    (next : JsValue -> Cont) (resolvedDef : ResolvedDef)
  : StepState -> History -> StepState * Res :=
  fun st h =>
    let c := unwrap_module resolvedDef in
    let h1 := set_factory_resolved
                (<[factory_ref def := as_constructor c]> (factory_resolved h)) h in
    let h2 := assign_component m key (Resolved c) h1 in
    let st' := set_pendingCount (pendingCount st - 1)%Z st in
    if (pendingCount st' <=? 0)%Z then (st', next VUndefined h2)
    else (st', Ok h2).

(** The function given to [once] for [reject]. *)
Definition reject_body (key : string) (next : JsValue -> Cont)
    (reason : JsValue) : StepState -> History -> StepState * Res :=
  fun st h =>
    let h1 := if production h then h else emit (EWarnAsync key reason) h in
    match error st with
    | Some _ => (st, Ok h1)
    | None =>
        let err := if isError reason then reason
                   else VError (AsyncComponentError key reason) in
        (set_error err st, next err h1)
    end.

(** [resolve] and [reject] of the slot [slot] of record [m]. *)
Definition resolve (slot : nat * string) (m : RecordRef) (def : Factory)
    (next : JsValue -> Cont) (resolvedDef : ResolvedDef)
  : StepState -> History -> StepState * Res :=
  once (fun st => bool_decide (slot ∈ resolveCalled st)) (mark_resolve slot)
       (resolve_body m slot.2 def next resolvedDef).

Definition reject (slot : nat * string) (next : JsValue -> Cont)
    (reason : JsValue) : StepState -> History -> StepState * Res :=
  once (fun st => bool_decide (slot ∈ rejectCalled st)) (mark_reject slot)
       (reject_body slot.2 next reason).

(** The calls a factory makes before it returns; a call that throws ends
    the factory. *)
Fixpoint runFactoryActions (acts : list FactoryAction) (slot : nat * string)
    (m : RecordRef) (def : Factory) (next : JsValue -> Cont)
    (st : StepState) (h : History) : StepState * Res :=
  match acts with
  | [] => (st, Ok h)
  | a :: rest =>
      let out := match a with
                 | CallResolve d => resolve slot m def next d st h
                 | CallReject v => reject slot next v st h
                 end in
      match out.2 with
      | Ok h' => runFactoryActions rest slot m def next out.1 h'
      | Throw h' e => (out.1, Throw h' e)
      end
  end.

(** [def(resolve, reject)]. *)
Definition callFactory (slot : nat * string) (m : RecordRef) (def : Factory)
    (next : JsValue -> Cont) (st : StepState) (h : History)
  : StepState * Res :=
  let out := runFactoryActions (factory_actions def) slot m def next st h in
  match out.2 with
  | Ok h' =>
      match factory_throws def with
      | Some e => (out.1, Throw h' e)
      | None => out
      end
  | Throw _ _ => out
  end.

(** The function [resolveAsyncComponents] gives to [flatMapComponents], at
    the slot [key] of the record at position [idx].  A thenable the factory
    returns calls [resolve] or [reject] later, not here. *)
Definition visitComponent (idx : nat) (m : RecordRef) (key : string)
    (next : JsValue -> Cont) (st : StepState) (h : History)
  : StepState * Res :=
  match lookup_binding key (components (record_of (heap h) m)) with
  | Some (AsyncFactory def) =>
      let out := callFactory (idx, key) m def next (begin_async st) h in
      match out.2 with
      | Ok _ => out
      | Throw h' e => reject (idx, key) next e out.1 h'
      end
  | _ => (st, Ok h)
  end.

Fixpoint visitKeys (idx : nat) (m : RecordRef) (keys : list string)
    (next : JsValue -> Cont) (st : StepState) (h : History)
  : StepState * Res :=
  match keys with
  | [] => (st, Ok h)
  | key :: rest =>
      let out := visitComponent idx m key next st h in
      match out.2 with
      | Ok h' => visitKeys idx m rest next out.1 h'
      | Throw _ _ => out
      end
  end.

Fixpoint visitRecords (idx : nat) (matched_ : list RecordRef)
    (next : JsValue -> Cont) (st : StepState) (h : History)
  : StepState * Res :=
  match matched_ with
  | [] => (st, Ok h)
  | m :: rest =>
      let keys := map fst (components (record_of (heap h) m)) in
      let out := visitKeys idx m keys next st h in
      match out.2 with
      | Ok h' => visitRecords (S idx) rest next out.1 h'
      | Throw _ _ => out
      end
  end.

(** The guard [resolveAsyncComponents(matched)] returns, applied to
    [(to, from, next)]; it returns the variables of the run with the
    outcome, for the calls to [resolve] and [reject] that come later. *)
Definition resolveAsyncComponents (matched_ : list RecordRef)
    (to from : Route) (next : JsValue -> Cont) (h : History)
  : StepState * Res :=
  let out := visitRecords 0 matched_ next initialStep h in
  match out.2 with
  | Ok h' => if hasAsync out.1 then out else (out.1, next VUndefined h')
  | Throw _ _ => out
  end.

(** ** history/base.js *)

(** [ensureURL], [push] and [replace] are not defined in base.js: each
    backend implements them.  Here they are calls that leave the engine,
    recorded in the trace with their argument; what the backend does in them
    is outside this model.  The HTML5 backend's [push] and [replace] start a
    navigation of their own with [transitionTo], so the engine's state after
    such a call is the backend's doing: the properties below that speak of
    the state after a guard's [next(v)] are stated for values [v] that do
    not redirect, or for runs whose trace shows no such call. *)
Definition ensureURL (push : bool) (h : History) : History :=
  emit (EEnsureURL push) h.
Definition push (loc : JsValue) (h : History) : History := emit (EPush loc) h.
Definition replace (loc : JsValue) (h : History) : History :=
  emit (EReplace loc) h.

Definition listen (cb_ : FnRef) (h : History) : History :=
  set_cb (Some cb_) h.

Definition onReady (cb_ : FnRef) (errorCb : option FnRef) (h : History)
  : History :=
  if ready h then call cb_ [] h
  else
    let h1 := set_readyCbs (readyCbs h ++ [cb_]) h in
    match errorCb with
    | Some e => set_readyErrorCbs (readyErrorCbs h1 ++ [e]) h1
    | None => h1
    end.

Definition onError (errorCb : FnRef) (h : History) : History :=
  set_errorCbs (errorCbs h ++ [errorCb]) h.

Definition updateRoute (route : Route) (h : History) : History :=
  let h1 := set_current route h in
  match cb h1 with
  | Some f => call f [ARoute route] h1
  | None => h1
  end.

(** The closure [abort] of [confirmTransition]. *)
Definition abort (onAbort : option (JsValue -> History -> History))
    (err : JsValue) (h : History) : History :=
  let h1 :=
    if negb (isNavigationFailure err None) && isError err then
      match errorCbs h with
      | _ :: _ => forEach_call (errorCbs h) [AValue err] h
      | [] =>
          emit (EConsoleError err)
               (warn "uncaught error during route navigation:" h)
      end
    else h in
  match onAbort with
  | Some f => f err h1
  | None => h1
  end.

Record Queue := {
  updated : list RecordRef;
  activated : list RecordRef;
  deactivated : list RecordRef
}.

(** The loop of [resolveQueue]: [i] is the index reached and [steps] the
    number of indices left below [max]. *)
Fixpoint scan (current_ next : list RecordRef) (i steps : nat) : nat :=
  match steps with
  | 0 => i
  | S k =>
      if decide (current_ !! i = next !! i) then scan current_ next (S i) k
      else i
  end.

Definition resolveQueue (current_ next : list RecordRef) : Queue :=
  let max := Nat.max (length current_) (length next) in
  let i := scan current_ next 0 max in
  {| updated := take i next;
     activated := drop i next;
     deactivated := drop i current_ |}.

(** [def.options[key]]; a function without [options], an async factory that
    is not resolved, has no property to read and the read throws. *)
Definition extractGuard (def : ViewBinding) (key : string)
  : option (option GuardEntry) :=
  match def with
  | Resolved c => Some (comp_options c !! key)
  | AsyncFactory _ => None
  end.

Definition extractGuards (hp : gmap nat RouteRecord)
    (records : list RecordRef) (name_ : string)
    (bind : NavigationGuard -> option Instance -> RecordRef -> string ->
            option Hook)
    (reverse_ : bool) : option (list (option Hook)) :=
  let guards :=
    flatMapComponents hp records (fun def instance m key =>
      match extractGuard def name_ with
      | None => None
      | Some None => Some (One None)
      | Some (Some (OneGuard guard)) => Some (One (bind guard instance m key))
      | Some (Some (ManyGuards gs)) =>
          Some (Many (map (fun guard => bind guard instance m key) gs))
      end) in
  match mapM id guards with
  | Some gs => Some (flatten (if reverse_ then reverse gs else gs))
  | None => None
  end.

Definition bindGuard (guard : NavigationGuard) (instance : option Instance)
    (m : RecordRef) (key : string) : option Hook :=
  match instance with
  | Some i => Some (BoundRouteGuard guard i)
  | None => None
  end.

Definition bindEnterGuard (guard : NavigationGuard) (m : RecordRef)
    (key : string) : Hook :=
  RouteEnterGuard guard m key.

Definition extractLeaveGuards (hp : gmap nat RouteRecord)
    (deactivated_ : list RecordRef) : option (list (option Hook)) :=
  extractGuards hp deactivated_ "beforeRouteLeave" bindGuard true.

Definition extractUpdateHooks (hp : gmap nat RouteRecord)
    (updated_ : list RecordRef) : option (list (option Hook)) :=
  extractGuards hp updated_ "beforeRouteUpdate" bindGuard false.

Definition extractEnterGuards (hp : gmap nat RouteRecord)
    (activated_ : list RecordRef) : option (list (option Hook)) :=
  extractGuards hp activated_ "beforeRouteEnter"
    (fun guard _ m key => Some (bindEnterGuard guard m key)) false.

(** The guard calls [next(v)] for each [v] in turn; a call that throws ends
    the guard. *)
Fixpoint callNext (vs : list JsValue) (next : JsValue -> Cont) (h : History)
  : Res :=
  match vs with
  | [] => Ok h
  | v :: rest =>
      match next v h with
      | Ok h' => callNext rest next h'
      | Throw h' e => Throw h' e
      end
  end.

(** [guard.apply(this, [to, from, next])]. *)
Definition applyGuard (guard : NavigationGuard) (this : option Instance)
    (to from : Route) (next : JsValue -> Cont) (h : History) : Res :=
  let r := guard_body guard this to from in
  match callNext (calls r) next h with
  | Ok h' =>
      match throws r with
      | Some e => Throw h' e
      | None => Ok h'
      end
  | Throw h' e => Throw h' e
  end.

(** [match.enteredCbs[key].push(cb)], after the list is created if absent. *)
Definition push_enteredCb (m : RecordRef) (key : string) (f : FnRef)
    (h : History) : History :=
  let r := record_of (heap h) m in
  set_heap (<[m := {| components := components r;
                      instances := instances r;
                      enteredCbs :=
                        <[key := default [] (enteredCbs r !! key) ++ [f]]>
                          (enteredCbs r);
                      beforeEnter := beforeEnter r |}]> (heap h)) h.

(** The callback [routeEnterGuard] hands to the guard in place of [next]. *)
Definition enterCallback (m : RecordRef) (key : string)
    (next : JsValue -> Cont) (cb_ : JsValue) (h : History) : Res :=
  match cb_ with
  | VFunction f => next cb_ (push_enteredCb m key f h)
  | _ => next cb_ h
  end.

(** The function [bindEnterGuard] returns. *)
Definition routeEnterGuard (guard : NavigationGuard) (m : RecordRef)
    (key : string) (to from : Route) (next : JsValue -> Cont) : Cont :=
  applyGuard guard None to from (enterCallback m key next).

(** [hook(route, current, next)] for an entry of the queue. *)
Definition callHook (hook : Hook) (to from : Route) (next : JsValue -> Cont)
    (h : History) : Res :=
  let h1 := emit (EHook hook to from) h in
  match hook with
  | Guard g => applyGuard g None to from next h1
  | BoundRouteGuard g i => applyGuard g (Some i) to from next h1
  | RouteEnterGuard g m key => routeEnterGuard g m key to from next h1
  | ResolveAsync ms => (resolveAsyncComponents ms to from next h1).2
  end.

(** [this.pending !== route]. *)
Definition pending_differs (h : History) (route : Route) : bool :=
  match pending h with
  | Some p => negb (same_route_object p route)
  | None => true
  end.

(** The function the iterator hands to the hook as [next]. *)
Definition hookCallback (route current_ : Route)
    (onAbort : option (JsValue -> History -> History)) (next : Cont)
    (to : JsValue) (h : History) : Res :=
  match to with
  | VBool false =>
      Ok (abort onAbort (createNavigationAbortedError current_ route)
                (ensureURL true h))
  | _ =>
      if isError to then Ok (abort onAbort to (ensureURL true h))
      else
        match to with
        | VString _ =>
            Ok (push to
                  (abort onAbort
                         (createNavigationRedirectedError current_ route) h))
        | VNull =>
            (* typeof null === 'object', and reading null.path throws *)
            Throw h (VError (TypeError "Cannot read property 'path' of null"))
        | VObject o =>
            if bool_decide (is_Some (loc_path o))
               || bool_decide (is_Some (loc_name o))
            then
              let h1 := abort onAbort
                          (createNavigationRedirectedError current_ route) h in
              Ok (if loc_replace o then replace to h1 else push to h1)
            else next h
        | _ => next h
        end
  end.

(** [try { ... } catch (e) { handler(e) }]. *)
Definition try_catch (r : Res) (handler : JsValue -> History -> History)
  : Res :=
  match r with
  | Ok h => Ok h
  | Throw h e => Ok (handler e h)
  end.

Definition iterator (route current_ : Route)
    (onAbort : option (JsValue -> History -> History))
    (hook : Hook) (next : Cont) : Cont :=
  fun h =>
    if pending_differs h route then
      Ok (abort onAbort (createNavigationCancelledError current_ route) h)
    else
      try_catch (callHook hook route current_
                          (hookCallback route current_ onAbort next) h)
                (abort onAbort).

(** [arr[i]] for an index that may be [-1]. *)
Definition index (l : list RecordRef) (i : Z) : option RecordRef :=
  if (i <? 0)%Z then None else l !! Z.to_nat i.

(** A number that [confirmTransition] computes: an integer, or [NaN]. *)
Inductive JsNumber :=
| Int (z : Z)
| NaN.

(** [n - 1] for what the read of a property of an array gives: the number of
    its elements for [length], and [undefined] for a name the array has no
    property of; [undefined - 1] is [NaN]. *)
Definition minus_one (n : option nat) : JsNumber :=
  match n with
  | Some k => Int (Z.of_nat k - 1)
  | None => NaN
  end.

(** [a === b] on numbers: [NaN] is equal to nothing, itself included. *)
Definition strict_eq_number (a b : JsNumber) : bool :=
  match a, b with
  | Int x, Int y => (x =? y)%Z
  | _, _ => false
  end.

(** [arr[i]] for such a number: [arr[NaN]] is [undefined]. *)
Definition at_number (l : list RecordRef) (i : JsNumber) : option RecordRef :=
  match i with
  | Int z => index l z
  | NaN => None
  end.

Definition extraction_error : JsValue :=
  VError (TypeError "Cannot read property of undefined").

(** The callback of the second [runQueue]. *)
Definition finish (route current_ : Route)
    (onComplete : Route -> History -> History)
    (onAbort : option (JsValue -> History -> History)) : Cont :=
  fun h =>
    if pending_differs h route then
      Ok (abort onAbort (createNavigationCancelledError current_ route) h)
    else
      let h1 := onComplete route (set_pending None h) in
      Ok (if app (router h1) then emit (ENextTick route) h1 else h1).

Definition global_hooks (l : list (option NavigationGuard))
  : list (option Hook) :=
  map (option_map Guard) l.

(** The callback of the first [runQueue]. *)
Definition enterPhase (route current_ : Route) (activated_ : list RecordRef)
    (onComplete : Route -> History -> History)
    (onAbort : option (JsValue -> History -> History)) : Cont :=
  fun h =>
    match extractEnterGuards (heap h) activated_ with
    | Some enterGuards =>
        let queue := enterGuards ++ global_hooks (resolveHooks (router h)) in
        runQueue queue (iterator route current_ onAbort)
                 (finish route current_ onComplete onAbort) h
    | None => Throw h extraction_error
    end.

Definition confirmTransition (route : Route)
    (onComplete : Route -> History -> History)
    (onAbort : option (JsValue -> History -> History)) : Cont :=
  fun h0 =>
    let current_ := current h0 in
    let h := set_pending (Some route) h0 in
    let lastRouteIndex := minus_one (Some (length (matched route))) in
    (* the source reads [current.matched.lengt·h], with U+00B7 inside the
       name: the array has no such property *)
    let lastCurrentIndex := minus_one None in
    if isSameRoute route current_
       && strict_eq_number lastRouteIndex lastCurrentIndex
       && bool_decide (at_number (matched route) lastRouteIndex
                       = at_number (matched current_) lastCurrentIndex)
    then
      Ok (abort onAbort (createNavigationDuplicatedError current_ route)
                (ensureURL false h))
    else
      let q := resolveQueue (matched (current h)) (matched route) in
      match extractLeaveGuards (heap h) (deactivated q),
            extractUpdateHooks (heap h) (updated q) with
      | Some leave, Some update =>
          let queue :=
            leave
            ++ global_hooks (beforeHooks (router h))
            ++ update
            ++ map (fun m => option_map Guard
                               (beforeEnter (record_of (heap h) m)))
                   (activated q)
            ++ [Some (ResolveAsync (activated q))] in
          runQueue queue (iterator route current_ onAbort)
                   (enterPhase route current_ (activated q)
                               onComplete onAbort) h
      | _, _ => Throw h extraction_error
      end.

(** The two callbacks [transitionTo] gives to [confirmTransition]. *)
Definition onTransitionComplete (route prev : Route)
    (onComplete : option FnRef) (_ : Route) (h : History) : History :=
  let h1 := updateRoute route h in
  let h2 := match onComplete with
            | Some f => call f [ARoute route] h1
            | None => h1
            end in
  let h3 := ensureURL false h2 in
  let h4 := fold_left (fun acc hook =>
                         match hook with
                         | Some f => call f [ARoute route; ARoute prev] acc
                         | None => acc
                         end) (afterHooks (router h3)) h3 in
  if ready h4 then h4
  else forEach_call (readyCbs h4) [ARoute route] (set_ready true h4).

Definition onTransitionAbort (prev : Route) (onAbort : option FnRef)
    (err : JsValue) (h : History) : History :=
  let h1 := match onAbort with
            | Some f => call f [AValue err] h
            | None => h
            end in
  if truthy err && negb (ready h1) then
    if negb (isNavigationFailure err (Some redirected))
       || negb (same_route_object prev START)
    then forEach_call (readyErrorCbs h1) [AValue err] (set_ready true h1)
    else h1
  else h1.

Definition transitionTo (location : JsValue)
    (onComplete onAbort : option FnRef) : Cont :=
  fun h =>
    match router_match (router h) location (current h) with
    | inr e => Throw (forEach_call (errorCbs h) [AValue e] h) e
    | inl route =>
        let prev := current h in
        confirmTransition route
          (onTransitionComplete route prev onComplete)
          (Some (onTransitionAbort prev onAbort)) h
    end.

Definition teardown (h : History) : History :=
  let h1 := forEach_call (listeners h) [] h in
  set_pending None (set_current START (set_listeners [] h1)).

(** Record several outgoing calls, in order. *)
Definition emits (es : list Effect) (h : History) : History :=
  {| router := router h; current := current h; pending := pending h;
     cb := cb h; ready := ready h; readyCbs := readyCbs h;
     readyErrorCbs := readyErrorCbs h; errorCbs := errorCbs h;
     listeners := listeners h; production := production h; heap := heap h;
     factory_resolved := factory_resolved h; trace := trace h ++ es |}.

(** The callback that was given, as a list. *)
Definition given (o : option FnRef) : list FnRef :=
  match o with Some f => [f] | None => [] end.

(** The hooks a trace shows were invoked, in order. *)
Fixpoint invoked (t : list Effect) : list Hook :=
  match t with
  | [] => []
  | EHook hook _ _ :: rest => hook :: invoked rest
  | _ :: rest => invoked rest
  end.

(** ** Sample data

    A small router and a few guards, on which the properties below are
    evaluated. *)

Definition sample_route (ref : nat) (p : string) (ms : list RecordRef) : Route :=
  {| route_ref := ref; path := p; fullPath := p; query := ∅; params := ∅;
     hash := ""; name := None; matched := ms; redirectedFrom := None |}.

(** A guard that calls [next(v)] before it returns. *)
Definition guard_calling (ref : nat) (v : JsValue) : NavigationGuard :=
  {| guard_ref := ref;
     guard_body := fun _ _ _ => {| calls := [v]; throws := None |} |}.


(** A guard that throws [e]. *)
Definition guard_throwing (ref : nat) (e : JsValue) : NavigationGuard :=
  {| guard_ref := ref;
     guard_body := fun _ _ _ => {| calls := []; throws := Some e |} |}.

(** A router whose matcher sends every location to [target]. *)
Definition sample_router (before resolve_ : list (option NavigationGuard))
    (target : Route) : Router :=
  {| beforeHooks := before; resolveHooks := resolve_; afterHooks := [];
     app := false; router_match := fun _ _ => inl target |}.

(** A fresh engine: the state the constructor of [History] builds. *)
Definition fresh (r : Router) (hp : gmap nat RouteRecord) : History :=
  {| router := r; current := START; pending := None; cb := None;
     ready := false; readyCbs := []; readyErrorCbs := []; errorCbs := [];
     listeners := []; production := false; heap := hp; factory_resolved := ∅; trace := [] |}.

(** Two global before-each hooks: the first calls [next(null)]. *)
Definition sample_null_router : Router :=
  sample_router [Some (guard_calling 1 VNull); Some (guard_calling 2 VUndefined)]
                [] (sample_route 1 "/a" []).

(** The values for which the callback of a guard runs the rest of the
    queue: the branch "confirm transition and pass on the value". *)
Definition proceeds (v : JsValue) : bool :=
  match v with
  | VUndefined | VBool true | VNumber _ | VFunction _ => true
  | VObject o => negb (bool_decide (is_Some (loc_path o))
                       || bool_decide (is_Some (loc_name o)))
  | VBool false | VNull | VString _ | VError _ => false
  end.

(** A global hook that waits on the way to "/a" and lets every other
    navigation pass. *)
Definition guard_waiting_on_a : NavigationGuard :=
  {| guard_ref := 1;
     guard_body := fun _ to _ =>
       if bool_decide (path to = "/a")
       then {| calls := []; throws := None |}
       else {| calls := [VUndefined]; throws := None |} |}.

Definition route_a : Route := sample_route 1 "/a" [].
Definition route_b : Route := sample_route 2 "/b" [].

(** A router with that hook, whose matcher knows "/a" and "/b". *)
Definition sample_two_router : Router :=
  {| beforeHooks := [Some guard_waiting_on_a]; resolveHooks := [];
     afterHooks := []; app := false;
     router_match := fun loc _ =>
       match loc with
       | VString "/a" => inl route_a
       | _ => inl route_b
       end |}.

(** The engine after a navigation to "/a" that waits in the hook, followed
    by a navigation to "/b" that completes. *)
Definition after_a_then_b : History :=
  state_of (transitionTo (VString "/b") None None
    (state_of (transitionTo (VString "/a") None (Some 7)
                            (fresh sample_two_router ∅)))).

(** A record with one view slot ["default"], bound to a resolved definition
    with the given options and to the instance 5. *)
Definition sample_record (opts : gmap string GuardEntry)
    (be : option NavigationGuard) : RouteRecord :=
  {| components := [("default",
                     Resolved {| comp_is_function := false;
                                 comp_options := opts |})];
     instances := {["default" := 5]};
     enteredCbs := ∅;
     beforeEnter := be |}.

(** An engine whose current route is "/c", matched by the record 10. *)
Definition at_c : History :=
  set_current (sample_route 3 "/c" [10])
    (fresh (sample_router [] [] (sample_route 4 "/c" [10]))
           {[10 := sample_record ∅ None]}).

(** A heap with the record 20, whose view has a [beforeRouteEnter] guard
    that calls [next] with the function 42. *)
Definition heap_entering : gmap nat RouteRecord :=
  {[20 := sample_record
            {["beforeRouteEnter" := OneGuard (guard_calling 3 (VFunction 42))]}
            None]}.

(** An engine on its way to "/d", matched by the record 20. *)
Definition entering_d : History :=
  set_pending (Some (sample_route 6 "/d" [20]))
    (fresh (sample_router [] [] (sample_route 6 "/d" [20])) heap_entering).

(** ** The life of an engine

    What can happen to an engine whose navigations are started by
    [transitionTo]: a navigation starts; a guard of a navigation calls
    [next(v)], with [rest] left of the queue it is in ([second] tells which
    queue); a factory of the resolution step resolves or rejects; callbacks
    are registered; the engine is torn down. *)
Inductive Op :=
| OpTransitionTo (location : JsValue) (onComplete onAbort : option FnRef)
| OpNext (route prev : Route) (onComplete onAbort : option FnRef)
         (activated_ : list RecordRef) (second : bool)
         (rest : list (option Hook)) (v : JsValue)
| OpResolve (route prev : Route) (onComplete onAbort : option FnRef)
            (activated_ : list RecordRef) (rest : list (option Hook))
            (slot : nat * string) (m : RecordRef) (def : Factory)
            (d : ResolvedDef) (st : StepState)
| OpReject (route prev : Route) (onComplete onAbort : option FnRef)
           (activated_ : list RecordRef) (rest : list (option Hook))
           (slot : nat * string) (reason : JsValue) (st : StepState)
| OpListen (cb_ : FnRef)
| OpOnReady (cb_ : FnRef) (errorCb : option FnRef)
| OpOnError (errorCb : FnRef)
| OpTeardown.

(** The [next] a guard of a navigation started by [transitionTo] holds. *)
Definition guard_next (route prev : Route) (onComplete onAbort : option FnRef)
    (activated_ : list RecordRef) (second : bool) (rest : list (option Hook))
  : JsValue -> Cont :=
  let oc := onTransitionComplete route prev onComplete in
  let oa := Some (onTransitionAbort prev onAbort) in
  hookCallback route prev oa
    (runQueue rest (iterator route prev oa)
       (if second then finish route prev oc oa
        else enterPhase route prev activated_ oc oa)).

Definition perform (op : Op) (h : History) : History :=
  match op with
  | OpTransitionTo loc oc oa => state_of (transitionTo loc oc oa h)
  | OpNext route prev oc oa act second rest v =>
      state_of (guard_next route prev oc oa act second rest v h)
  | OpResolve route prev oc oa act rest slot m def d st =>
      state_of (resolve slot m def
                  (guard_next route prev oc oa act false rest) d st h).2
  | OpReject route prev oc oa act rest slot reason st =>
      state_of (reject slot (guard_next route prev oc oa act false rest)
                  reason st h).2
  | OpListen f => listen f h
  | OpOnReady f e => onReady f e h
  | OpOnError f => onError f h
  | OpTeardown => teardown h
  end.

Definition run (ops : list Op) (h : History) : History :=
  fold_left (fun acc op => perform op acc) ops h.

(** A redirected failure of a navigation that started from [START]. *)
Definition initial_redirect (err : JsValue) (prev : Route) : bool :=
  match err with
  | VError (NavigationFailure redirected _ _) =>
      bool_decide (route_ref prev = route_ref START)
  | _ => false
  end.

(** A global hook that refuses the way to "/a" with [next(false)] and lets
    every other navigation pass. *)
Definition guard_refusing_a : NavigationGuard :=
  {| guard_ref := 1;
     guard_body := fun _ to _ =>
       if bool_decide (path to = "/a")
       then {| calls := [VBool false]; throws := None |}
       else {| calls := [VUndefined]; throws := None |} |}.

Definition sample_refusing_router : Router :=
  {| beforeHooks := [Some guard_refusing_a]; resolveHooks := [];
     afterHooks := []; app := false;
     router_match := fun loc _ =>
       match loc with
       | VString "/a" => inl route_a
       | _ => inl route_b
       end |}.

(** A router whose only global hook throws [undefined]. *)
Definition sample_throwing_router : Router :=
  sample_router [Some (guard_throwing 1 VUndefined)] [] route_a.

(** ** Guards that approve

    The vocabulary in which the order of the guard steps is stated. *)

(** The entries of a queue that are present. *)
Definition hooks (queue : list (option Hook)) : list Hook := omap id queue.

(** No view slot of the records is bound to an async factory. *)
Definition no_async (hp : gmap nat RouteRecord) (ms : list RecordRef) : bool :=
  forallb (fun m =>
             forallb (fun kb : string * ViewBinding =>
                        match kb.2 with
                        | Resolved _ => true
                        | AsyncFactory _ => false
                        end) (components (record_of hp m))) ms.

(** The guard calls [next] once before it returns, with a value that lets
    the navigation proceed, and does not throw. *)
Definition passing (this : option Instance) (g : NavigationGuard)
    (to from : Route) : Prop :=
  ∃ v, guard_body g this to from = {| calls := [v]; throws := None |}
       ∧ proceeds v = true.


Definition this_of (hook : Hook) : option Instance :=
  match hook with
  | BoundRouteGuard _ i => Some i
  | _ => None
  end.

(** The step succeeds at once. *)
Definition approves (to from : Route) (hp : gmap nat RouteRecord)
    (hook : Hook) : Prop :=
  match hook with
  | Guard g | BoundRouteGuard g _ | RouteEnterGuard g _ _ =>
      passing (this_of hook) g to from
  | ResolveAsync ms => no_async hp ms = true
  end.


Definition all_approve (to from : Route) (hp : gmap nat RouteRecord)
    (queue : list (option Hook)) : Prop :=
  Forall (fun e => match e with
                   | Some hook => approves to from hp hook
                   | None => True
                   end) queue.

(** The state after a step that approves: the call is recorded, and an
    enter guard that passed a function has it queued. *)
Definition after_pass (to from : Route) (hook : Hook) (h : History)
  : History :=
  let h1 := emit (EHook hook to from) h in
  match hook with
  | RouteEnterGuard g m key =>
      match calls (guard_body g None to from) with
      | [VFunction f] => push_enteredCb m key f h1
      | _ => h1
      end
  | _ => h1
  end.

Definition after_passes (to from : Route) (hs : list Hook) (h : History)
  : History :=
  fold_left (fun acc hook => after_pass to from hook acc) hs h.

(** The nested chain of the spec: [Root] (record 1) has an update guard,
    [Child] (record 2) a leave guard, [Child2] (record 3) a [beforeEnter]
    and an enter guard; all of them, and the two global hooks, call
    [next()]. *)
Definition heap_nested : gmap nat RouteRecord :=
  {[1 := sample_record
           {["beforeRouteUpdate" := OneGuard (guard_calling 21 VUndefined)]}
           None;
    2 := sample_record
           {["beforeRouteLeave" := OneGuard (guard_calling 22 VUndefined)]}
           None;
    3 := sample_record
           {["beforeRouteEnter" := OneGuard (guard_calling 23 VUndefined)]}
           (Some (guard_calling 24 VUndefined))]}.

Definition route_child : Route := sample_route 7 "/root/child" [1; 2].
Definition route_child2 : Route := sample_route 8 "/root/child2" [1; 3].

(** An engine at [Root, Child], with a before-each and a before-resolve
    hook. *)
Definition at_child : History :=
  set_current route_child
    (fresh (sample_router [Some (guard_calling 25 VUndefined)]
                          [Some (guard_calling 26 VUndefined)] route_child2)
           heap_nested).


(** A record with two mounted view slots: ["a"] has two leave guards, as
    a mixin gives, and ["b"] has one. *)
Definition heap_two_slots : gmap nat RouteRecord :=
  {[50 := {| components :=
               [("a", Resolved
                        {| comp_is_function := false;
                           comp_options :=
                             {["beforeRouteLeave" :=
                                 ManyGuards [guard_calling 31 VUndefined;
                                             guard_calling 32 VUndefined]]} |});
                ("b", Resolved
                        {| comp_is_function := false;
                           comp_options :=
                             {["beforeRouteLeave" :=
                                 OneGuard (guard_calling 33 VUndefined)]} |})];
             instances := {["a" := 5; "b" := 6]};
             enteredCbs := ∅; beforeEnter := None |}]}.

(** ** Factories that settle later

    A call to the [resolve] or to the [reject] of a view slot that comes
    after the resolution step has returned. *)
Inductive Settlement :=
| Resolves (slot : nat * string) (m : RecordRef) (def : Factory)
           (d : ResolvedDef)
| Rejects (slot : nat * string) (reason : JsValue).

Definition settle (next : JsValue -> Cont) (ev : Settlement)
    (st : StepState) (h : History) : StepState * Res :=
  match ev with
  | Resolves slot m def d => resolve slot m def next d st h
  | Rejects slot reason => reject slot next reason st h
  end.

(** The settlements come one after the other; a value thrown into one of
    them is lost with it. *)
Fixpoint settle_all (next : JsValue -> Cont) (evs : list Settlement)
    (st : StepState) (h : History) : StepState * History :=
  match evs with
  | [] => (st, h)
  | ev :: rest =>
      let out := settle next ev st h in
      settle_all next rest out.1 (state_of out.2)
  end.

(** The counter of the step counts the factories of the slots [slots] that
    have not resolved. *)
Definition counts (slots : gset (nat * string)) (st : StepState) : Prop :=
  resolveCalled st ⊆ slots
  ∧ pendingCount st
    = (Z.of_nat (size slots) - Z.of_nat (size (resolveCalled st)))%Z.

(** The settlements resolve slots of [slots] only, and never [failed]. *)
Definition spare (slots : gset (nat * string)) (failed : nat * string)
    (evs : list Settlement) : Prop :=
  Forall (fun ev => match ev with
                    | Resolves slot _ _ _ => slot ∈ slots ∧ slot ≠ failed
                    | Rejects _ _ => True
                    end) evs.

(** A factory that calls neither [resolve] nor [reject] before it returns,
    and does not throw. *)
Definition deferred (ref : nat) : Factory :=
  {| factory_ref := ref; factory_actions := []; factory_throws := None |}.

(** A record with the slots ["default"] and ["side"], both bound to such
    factories. *)
Definition lazy_record : RouteRecord :=
  {| components := [("default", AsyncFactory (deferred 1));
                    ("side", AsyncFactory (deferred 2))];
     instances := ∅; enteredCbs := ∅; beforeEnter := None |}.

Definition lazy_engine : History :=
  fresh (sample_router [] [] (sample_route 9 "/lazy" [40]))
        {[40 := lazy_record]}.

(** A record with one slot bound to a factory. *)
Definition lazy_single : History :=
  fresh (sample_router [] [] (sample_route 9 "/lazy" [41]))
        {[41 := {| components := [("default", AsyncFactory (deferred 1))];
                   instances := ∅; enteredCbs := ∅; beforeEnter := None |}]}.

(** A [next] that only records the value it is called with, as a call of
    the callback 99. *)
Definition probe (v : JsValue) (h : History) : Res :=
  Ok (call 99 [AValue v] h).

Definition plain_component : Component :=
  {| comp_is_function := false; comp_options := ∅ |}.

(** ** Properties that the engine keeps *)

(** The code [k] keeps the property [P] of the state. *)
Definition keeps (P : History -> Prop) (k : Cont) : Prop :=
  ∀ h, P h → P (state_of (k h)).

(** The same for the code of the resolution step. *)
Definition keeps_step (P : History -> Prop)
    (f : StepState -> History -> StepState * Res) : Prop :=
  ∀ st h, P h → P (state_of (f st h).2).

(** ** history/base.js: the base path *)

(** [s.charAt(0) !== '/']. *)
Definition lacks_leading_slash (s : string) : bool :=
  match s with
  | String "/"%char _ => false
  | _ => true
  end.

(** [s.replace(/\/$/, '')]: one slash at the very end is removed. *)
Fixpoint strip_trailing_slash (s : string) : string :=
  match s with
  | EmptyString => EmptyString
  | String c EmptyString =>
      if Ascii.eqb c "/"%char then EmptyString else s
  | String c rest => String c (strip_trailing_slash rest)
  end.

(** [s] without the prefix [p], when it starts with it. *)
Fixpoint strip_prefix (p s : string) : option string :=
  match p, s with
  | EmptyString, _ => Some s
  | String a p', String b s' =>
      if Ascii.eqb a b then strip_prefix p' s' else None
  | String _ _, EmptyString => None
  end.

(** [s] from its first slash on. *)
Fixpoint from_first_slash (s : string) : string :=
  match s with
  | EmptyString => EmptyString
  | String c rest => if Ascii.eqb c "/"%char then s else from_first_slash rest
  end.

(** What [/^https?:\/\/[^\/]+/] leaves of [s] after the scheme [scheme],
    if it matches with that scheme: the host must not be empty. *)
Definition strip_origin_with (scheme s : string) : option string :=
  match strip_prefix scheme s with
  | Some (String c rest) =>
      if Ascii.eqb c "/"%char then None else Some (from_first_slash rest)
  | _ => None
  end.

(** [base.replace(/^https?:\/\/[^\/]+/, '')]. *)
Definition strip_origin (s : string) : string :=
  match strip_origin_with "https://" s with
  | Some rest => rest
  | None =>
      match strip_origin_with "http://" s with
      | Some rest => rest
      | None => s
      end
  end.

(** A string as a condition: the empty string is false. *)
Definition nonempty (o : option string) : option string :=
  match o with
  | Some EmptyString => None
  | _ => o
  end.

(** [normalizeBase(base)].  [inBrowser] and [baseHref], the [href] of the
    [<base>] element when there is one, are what the function reads from
    its environment. *)
Definition normalizeBase (inBrowser : bool) (baseHref : option string)
    (base : option string) : string :=
  let base1 :=
    match nonempty base with
    | Some b => b
    | None =>
        if inBrowser then
          strip_origin (default "/" (nonempty baseHref))
        else "/"
    end in
  let base2 := if lacks_leading_slash base1 then "/" +:+ base1 else base1 in
  strip_trailing_slash base2.

(** [s] ends with a slash. *)
Fixpoint ends_with_slash (s : string) : bool :=
  match s with
  | EmptyString => false
  | String c EmptyString => Ascii.eqb c "/"%char
  | String _ rest => ends_with_slash rest
  end.

(** [s] ends with two slashes. *)
Fixpoint ends_with_two_slashes (s : string) : bool :=
  match s with
  | EmptyString => false
  | String c rest =>
      (Ascii.eqb c "/"%char && match rest with
                          | String d EmptyString => Ascii.eqb d "/"%char
                          | _ => false
                          end)
      || ends_with_two_slashes rest
  end.


(** [s] contains a slash. *)
Fixpoint has_slash (s : string) : bool :=
  match s with
  | EmptyString => false
  | String c rest => Ascii.eqb c "/" || has_slash rest
  end.


(** ** Samples for the edges of a navigation *)

(** A router whose matcher throws [e] for every location. *)
Definition sample_failing_router (e : JsValue) : Router :=
  {| beforeHooks := []; resolveHooks := []; afterHooks := [];
     app := false; router_match := fun _ _ => inr e |}.



(** The guards an option of a view holds: one guard, or the guards of an
    array. *)
Definition guards_of (e : option GuardEntry) : list NavigationGuard :=
  match e with
  | Some (OneGuard g) => [g]
  | Some (ManyGuards gs) => gs
  | None => []
  end.


(** ** The async views of a chain *)

(** The view slots of a record that are bound to a factory, as the
    resolution step names them: position of the record, key. *)
Definition async_slots_of (idx : nat) (cs : list (string * ViewBinding))
  : list (nat * string) :=
  omap (fun kb : string * ViewBinding =>
          match kb.2 with
          | AsyncFactory _ => Some (idx, kb.1)
          | Resolved _ => None
          end) cs.

Fixpoint async_slots (hp : gmap nat RouteRecord) (idx : nat)
    (ms : list RecordRef) : list (nat * string) :=
  match ms with
  | [] => []
  | m :: rest =>
      async_slots_of idx (components (record_of hp m))
      ++ async_slots hp (S idx) rest
  end.

(** Every factory of the records returns without having called [resolve]
    or [reject] and without throwing, as one that returns a promise does. *)
Definition all_deferred (hp : gmap nat RouteRecord) (ms : list RecordRef)
  : Prop :=
  ∀ m key f,
    In m ms → In (key, AsyncFactory f) (components (record_of hp m)) →
    factory_actions f = [] ∧ factory_throws f = None.

(** The keys of [components] are distinct, as the keys of an object are. *)
Definition well_keyed (hp : gmap nat RouteRecord) (ms : list RecordRef)
  : Prop :=
  ∀ m, In m ms → NoDup (map fst (components (record_of hp m))).

(** The variables of the step after [n] factories have been called. *)
Definition begun (n : nat) (st : StepState) : StepState :=
  Nat.iter n begin_async st.


(** ** index.js: registration of the global hooks *)

(** [list.indexOf(fn)] on an array of functions that may hold [undefined]:
    the first position that holds the function [fn], or -1.  [key] is the
    identity of a function, the one [===] compares. *)
Fixpoint indexOf {A : Type} (key : A -> nat) (fn : A) (l : list (option A))
  : Z :=
  match l with
  | [] => (-1)%Z
  | x :: rest =>
      if match x with
         | Some g => bool_decide (key g = key fn)
         | None => false
         end
      then 0%Z
      else
        let i := indexOf key fn rest in
        if (i <? 0)%Z then (-1)%Z else (i + 1)%Z
  end.

(** [list.splice(i, 1)] for an index within the array. *)
Definition splice1 {A : Type} (i : nat) (l : list A) : list A :=
  take i l ++ drop (S i) l.

(** [registerHook(list, fn)]: the array after [fn] is pushed, and the
    function that is returned, which acts on the array as it is when it is
    called. *)
Definition registerHook {A : Type} (key : A -> nat) (list_ : list (option A))
    (fn : A) : list (option A) * (list (option A) -> list (option A)) :=
  (list_ ++ [Some fn],
   fun now =>
     let i := indexOf key fn now in
     if (i >? -1)%Z then splice1 (Z.to_nat i) now else now).


(** ** components/view.js and install.js: the instances of the views *)

(** [matched.instances[name] = val].  [val] may be [undefined]: reading the
    slot then gives [undefined], as it does for a slot that was never
    assigned. *)
Definition assign_instance (matched_ : RecordRef) (name_ : string)
    (val : option Instance) (h : History) : History :=
  let r := record_of (heap h) matched_ in
  set_heap (<[matched_ :=
                {| components := components r;
                   instances := match val with
                                | Some v => <[name_ := v]> (instances r)
                                | None => delete name_ (instances r)
                                end;
                   enteredCbs := enteredCbs r;
                   beforeEnter := beforeEnter r |}]> (heap h)) h.

(** The function [data.registerRouteInstance] that [render] attaches for
    the view [name] of the record [matched]. *)
Definition registerRouteInstance (matched_ : RecordRef) (name_ : string)
    (vm : Instance) (val : option Instance) (h : History) : History :=
  let current_ := instances (record_of (heap h) matched_) !! name_ in
  if (bool_decide (is_Some val) && negb (bool_decide (current_ = Some vm)))
     || (negb (bool_decide (is_Some val)) && bool_decide (current_ = Some vm))
  then assign_instance matched_ name_ val h
  else h.

(** [registerInstance(vm, callVal)] of install.js; [i] is the function
    [registerRouteInstance] of the data of the parent vnode of [vm], when
    there is one. *)
Definition registerInstance
    (i : option (Instance -> option Instance -> History -> History))
    (vm : Instance) (callVal : option Instance) (h : History) : History :=
  match i with
  | Some f => f vm callVal h
  | None => h
  end.

(** The vnode hook [prepatch] that [render] attaches for the view [name]
    of the record [matched]. *)
Definition prepatch (matched_ : RecordRef) (name_ : string)
    (componentInstance : option Instance) (h : History) : History :=
  assign_instance matched_ name_ componentInstance h.

(** The vnode hook [init] that [render] attaches.  [handleRouteEntered] is
    imported from util/route.js, whose text is not among the sources: it is
    a parameter. *)
Definition init (handleRouteEntered : Route -> History -> History)
    (matched_ : RecordRef) (name_ : string) (route : Route)
    (keepAlive : bool) (componentInstance : option Instance) (h : History)
  : History :=
  let h1 :=
    if keepAlive && bool_decide (is_Some componentInstance)
       && negb (bool_decide
                  (componentInstance
                   = instances (record_of (heap h) matched_) !! name_))
    then assign_instance matched_ name_ componentInstance h
    else h in
  handleRouteEntered route h1.

(** What writes [matched.instances[name]]: the two hooks of the mixin of
    install.js and the two vnode hooks of view.js.  A hook of the mixin acts
    through the [registerRouteInstance] of the data of the parent vnode the
    instance has at that time; that function closes over the record and the
    view name of the render that made the vnode: [at_] is that pair, when
    the parent vnode has one.  The vnode hooks close over the record and the
    name of their own render, and get the vnode, of which they read
    [componentInstance] and [data.keepAlive]. *)
Inductive ViewEvent :=
| BeforeCreate (vm : Instance) (at_ : option (RecordRef * string))
| Destroyed (vm : Instance) (at_ : option (RecordRef * string))
| Prepatch (matched_ : RecordRef) (name_ : string)
           (componentInstance : option Instance)
| Init (matched_ : RecordRef) (name_ : string) (route : Route)
       (keepAlive : bool) (componentInstance : option Instance).

(** [vm.$options._parentVnode.data.registerRouteInstance]. *)
Definition closure (at_ : option (RecordRef * string))
  : option (Instance -> option Instance -> History -> History) :=
  option_map (fun s => registerRouteInstance s.1 s.2) at_.

Definition view_event (handleRouteEntered : Route -> History -> History)
    (ev : ViewEvent) (h : History) : History :=
  match ev with
  | BeforeCreate vm at_ => registerInstance (closure at_) vm (Some vm) h
  | Destroyed vm at_ => registerInstance (closure at_) vm None h
  | Prepatch m name_ ci => prepatch m name_ ci h
  | Init m name_ route keepAlive ci =>
      init handleRouteEntered m name_ route keepAlive ci h
  end.

(** The hooks of the instances and of the vnodes of the views, in the order
    in which they run. *)
Definition view_events (handleRouteEntered : Route -> History -> History)
    (evs : list ViewEvent) (h : History) : History :=
  fold_left (fun acc ev => view_event handleRouteEntered ev acc) evs h.

(** [matched.instances[name]]. *)
Definition view_instance (h : History) (s : RecordRef * string)
  : option Instance :=
  instances (record_of (heap h) s.1) !! s.2.

(** What is assumed of [handleRouteEntered]: it assigns no instance and no
    component of a record. *)
Definition keeps_views (f : Route -> History -> History) : Prop :=
  ∀ route h m,
    instances (record_of (heap (f route h)) m)
    = instances (record_of (heap h) m)
    ∧ components (record_of (heap (f route h)) m)
      = components (record_of (heap h) m).

(** The event registers [vm] in the slot [s]: the [beforeCreate] of [vm]
    under a vnode of that slot, a [prepatch] of that slot with [vm], or the
    [init] of a kept-alive vnode of that slot whose instance is [vm]. *)
Definition registers (s : RecordRef * string) (vm : Instance)
    (ev : ViewEvent) : Prop :=
  match ev with
  | BeforeCreate v at_ => v = vm ∧ at_ = Some s
  | Prepatch m name_ ci => (m, name_) = s ∧ ci = Some vm
  | Init m name_ _ keepAlive ci =>
      (m, name_) = s ∧ keepAlive = true ∧ ci = Some vm
  | Destroyed _ _ => False
  end.

(** The event is none that replaces the content [cur] of the slot [s]: it
    is a hook of another slot, or the [beforeCreate] or the vnode hook of
    the instance the slot holds already, or the [destroyed] of another
    instance than the one it holds, or an [init] that assigns nothing. *)
Definition leaves_slot (s : RecordRef * string) (cur : option Instance)
    (ev : ViewEvent) : Prop :=
  match ev with
  | BeforeCreate v at_ => at_ ≠ Some s ∨ cur = Some v
  | Destroyed v at_ => at_ ≠ Some s ∨ cur ≠ Some v
  | Prepatch m name_ ci => (m, name_) ≠ s ∨ ci = cur
  | Init m name_ _ keepAlive ci =>
      (m, name_) ≠ s ∨ keepAlive = false ∨ ci = None ∨ ci = cur
  end.


(** ** components/view.js: the props of a view *)

(** An object of props. *)
Abbreviation Props := (gmap string JsValue).









(** ** history/html5.js: the location *)

(** A JavaScript string is a sequence of UTF-16 code units: [s.length]
    counts them, [s.slice(n)] drops [n] of them. *)
Abbreviation JsString := (list N).

(** The code units of a string of ASCII characters. *)
Definition units (s : string) : JsString :=
  map N_of_ascii (String.list_ascii_of_string s).

(** The code unit of an ASCII character. *)
Definition ascii_unit (c : N) : Prop := (c < 128)%N.

(** What [toLowerCase] does to the code unit of an ASCII character: the
    letters [A] to [Z] are changed. *)
Definition to_lower_unit (c : N) : N :=
  if ((65 <=? c) && (c <=? 90))%N then (c + 32)%N else c.

(** What is used of the built-in [String.prototype.toLowerCase]: on a
    string of ASCII characters it changes each character by itself.  (On
    other strings the result depends on the Unicode tables, and may differ
    in length.) *)
Definition lowers_ascii (toLowerCase : JsString -> JsString) : Prop :=
  ∀ s, Forall ascii_unit s → toLowerCase s = map to_lower_unit s.

(** [getLocation(base)]; [pathname], [search] and [hash] are those of
    [window.location], and [toLowerCase] is the built-in method.
    [a.indexOf(b) === 0] says that [b] begins [a]. *)
Definition getLocation (toLowerCase : JsString -> JsString)
    (pathname search hash : JsString) (base : JsString) : JsString :=
  let path :=
    if negb (bool_decide (base = []))
       && bool_decide (toLowerCase base `prefix_of` toLowerCase pathname)
    then drop (length base) pathname
    else pathname in
  (if bool_decide (path = []) then units "/" else path) ++ search ++ hash.

(** ** The order of the guards of the views *)




(** The values that make the callback of a guard call [push] or [replace]
    of the backend: a string, and an object, not an [Error], whose [path] or
    [name] is a string. *)
Definition redirects (v : JsValue) : bool :=
  match v with
  | VString _ => true
  | VObject o => bool_decide (is_Some (loc_path o))
                 || bool_decide (is_Some (loc_name o))
  | _ => false
  end.

(** The calls of [push] and [replace] of the backend that a trace holds. *)
Fixpoint pushes (t : list Effect) : list JsValue :=
  match t with
  | [] => []
  | EPush loc :: rest => loc :: pushes rest
  | EReplace loc :: rest => loc :: pushes rest
  | _ :: rest => pushes rest
  end.

(** ** More vocabulary *)

(** The user guard a hook wraps, if it wraps one. *)
Definition guard_of (hook : Hook) : option NavigationGuard :=
  match hook with
  | Guard g | BoundRouteGuard g _ | RouteEnterGuard g _ _ => Some g
  | ResolveAsync _ => None
  end.


(** What has been registered on the engine: the listener, the ready
    callbacks, the ready error callbacks, the error callbacks and the
    clean-up functions. *)
Definition registrations (h : History)
  : option FnRef * list FnRef * list FnRef * list FnRef * list FnRef :=
  (cb h, readyCbs h, readyErrorCbs h, errorCbs h, listeners h).


(** * Properties *)

(** ** The transition diff *)

Lemma scan_spec (A B : list RecordRef) (steps i : nat) :
  i ≤ scan A B i steps ≤ i + steps
  ∧ (∀ j, i ≤ j < scan A B i steps → A !! j = B !! j)
  ∧ (scan A B i steps < i + steps →
     A !! scan A B i steps ≠ B !! scan A B i steps).
Proof.
  revert i. induction steps as [|k IH]; intros i; simpl.
  - split; [lia|]. split; intros; lia.
  - destruct (decide (A !! i = B !! i)) as [Heq|Hne].
    + destruct (IH (S i)) as ((Hlo & Hhi) & Hpre & Hdiv).
      split; [lia|]. split.
      * intros j Hj. destruct (decide (j = i)) as [->|Hji]; [done|].
        apply Hpre; lia.
      * intros Hlt. apply Hdiv; lia.
    + split; [lia|]. split; [intros; lia|]. intros _. exact Hne.
Qed.

Lemma take_agree (A B : list RecordRef) (i : nat) :
  (∀ j, j < i → A !! j = B !! j) → take i A = take i B.
Proof.
  intros H. apply list_eq; intros j.
  destruct (decide (j < i)) as [Hlt|Hge].
  - rewrite !lookup_take_lt by lia. auto.
  - rewrite !lookup_take_ge by lia. done.
Qed.

Lemma agree_below_max (A B : list RecordRef) :
  (∀ j, j < Nat.max (length A) (length B) → A !! j = B !! j) → A = B.
Proof.
  intros H. apply list_eq; intros j.
  destruct (decide (j < Nat.max (length A) (length B))) as [Hlt|Hge].
  - auto.
  - rewrite !lookup_ge_None_2 by lia. done.
Qed.

Lemma scan_same (A : list RecordRef) (steps i : nat) :
  scan A A i steps = i + steps.
Proof.
  revert i. induction steps as [|k IH]; intros i; simpl; [lia|].
  destruct (decide (A !! i = A !! i)); [|done]. rewrite IH. lia.
Qed.

(** C6: [resolveQueue] splits both chains at the first index [i] where the
    records are not the same reference (the end of both chains when there is
    none): updated is [next[0..i)], activated [next[i..)], deactivated
    [current[i..)].  The diff of a chain with itself is the chain with
    nothing activated or deactivated, and updated followed by activated is
    [next], updated followed by deactivated is [current]. *)
Theorem C6_resolveQueue_split (A B : list RecordRef) :
  (∃ i : nat,
      (∀ j, j < i → A !! j = B !! j)
      ∧ (A !! i ≠ B !! i ∨ (i = length A ∧ i = length B))
      ∧ resolveQueue A B
        = {| updated := take i B; activated := drop i B;
             deactivated := drop i A |})
  ∧ resolveQueue A A = {| updated := A; activated := []; deactivated := [] |}
  ∧ updated (resolveQueue A B) ++ activated (resolveQueue A B) = B
  ∧ updated (resolveQueue A B) ++ deactivated (resolveQueue A B) = A.
Proof.
  pose proof (scan_spec A B (Nat.max (length A) (length B)) 0)
    as ((_ & Hhi) & Hpre & Hdiv).
  set (i := scan A B 0 (Nat.max (length A) (length B))) in *.
  assert (Hagree : ∀ j, j < i → A !! j = B !! j)
    by (intros j Hj; apply Hpre; lia).
  split; [|split; [|split]].
  - exists i. split; [exact Hagree|]. split; [|reflexivity].
    destruct (decide (i < Nat.max (length A) (length B))) as [Hlt|Hge].
    + left. apply Hdiv. lia.
    + right. assert (i = Nat.max (length A) (length B)) as Hi by lia.
      assert (A = B) as -> by (apply agree_below_max; intros j Hj;
                               apply Hagree; lia).
      lia.
  - unfold resolveQueue. rewrite scan_same, Nat.max_id. simpl.
    rewrite firstn_all, drop_all. reflexivity.
  - unfold resolveQueue; simpl. apply take_drop.
  - unfold resolveQueue; simpl. fold i.
    rewrite <- (take_agree A B i Hagree). apply take_drop.
Qed.

(** ** Outgoing calls *)

Lemma emits_nil (h : History) : emits [] h = h.
Proof. destruct h; unfold emits; simpl. rewrite app_nil_r. reflexivity. Qed.

Lemma emits_emits (es es' : list Effect) (h : History) :
  emits es' (emits es h) = emits (es ++ es') h.
Proof. unfold emits; simpl. rewrite app_assoc. reflexivity. Qed.

Lemma emit_emits (e : Effect) (h : History) : emit e h = emits [e] h.
Proof. reflexivity. Qed.

Lemma forEach_call_emits (cbs : list FnRef) (args : list Arg) (h : History) :
  forEach_call cbs args h = emits (map (fun f => ECall f args) cbs) h.
Proof.
  unfold forEach_call. revert h.
  induction cbs as [|f cbs IH]; intros h; simpl.
  - symmetry; apply emits_nil.
  - rewrite IH. unfold call. rewrite emit_emits, emits_emits. reflexivity.
Qed.

Lemma invoked_app (t t' : list Effect) :
  invoked (t ++ t') = invoked t ++ invoked t'.
Proof.
  induction t as [|e t IH]; simpl; [reflexivity|].
  destruct e; simpl; rewrite ?IH; reflexivity.
Qed.

(** ** Readiness callbacks *)

(** C10: [onReady(cb, errorCb)] on a ready engine calls [cb] with no argument
    at once and stores nothing; on an engine that is not ready it appends
    [cb] to [readyCbs] and [errorCb], when given, to [readyErrorCbs], and
    calls nothing. *)
Theorem C10_onReady_registration (cb_ : FnRef) (errorCb : option FnRef)
    (h : History) :
  let h' := onReady cb_ errorCb h in
  ready h' = ready h
  ∧ if ready h then
      trace h' = trace h ++ [ECall cb_ []]
      ∧ readyCbs h' = readyCbs h
      ∧ readyErrorCbs h' = readyErrorCbs h
    else
      trace h' = trace h
      ∧ readyCbs h' = readyCbs h ++ [cb_]
      ∧ readyErrorCbs h' = readyErrorCbs h ++ given errorCb.
Proof.
  unfold onReady. destruct (ready h) eqn:Hr; simpl.
  - auto.
  - destruct errorCb as [e|]; simpl; rewrite ?app_nil_r; auto.
Qed.

(** ** Delivery of failures *)

(** What [abort] sends to the error callbacks and the console for [err]. *)
Lemma abort_emits (onAbort : option (JsValue -> History -> History))
    (err : JsValue) (h : History) :
  abort onAbort err h
  = let es :=
      if negb (isNavigationFailure err None) && isError err then
        match errorCbs h with
        | [] => [EWarn "uncaught error during route navigation:";
                 EConsoleError err]
        | cbs => map (fun f => ECall f [AValue err]) cbs
        end
      else [] in
    match onAbort with
    | Some f => f err (emits es h)
    | None => emits es h
    end.
Proof.
  unfold abort.
  destruct (negb (isNavigationFailure err None) && isError err); simpl.
  - destruct (errorCbs h) as [|c cbs] eqn:Hc.
    + unfold warn. rewrite !emit_emits, emits_emits. reflexivity.
    + rewrite forEach_call_emits. reflexivity.
  - rewrite emits_nil. reflexivity.
Qed.

(** C8: [abort] hands the failure value to the [onAbort] of the call;
    before that, a navigation failure of one of the four kinds reaches no
    error callback and no console, while an [Error] that is not a navigation
    failure is passed to every error callback in registration order
    ([onError] appends), or printed with a warning when there is none. *)
Theorem C8_abort_delivery (onAbort : JsValue -> History -> History)
    (err : JsValue) (h : History) :
  ∃ es : list Effect,
    abort (Some onAbort) err h = onAbort err (emits es h)
    ∧ abort None err h = emits es h
    ∧ (∀ f, errorCbs (onError f h) = errorCbs h ++ [f])
    ∧ match err with
      | VError (NavigationFailure _ _ _) => es = []
      | VError _ =>
          match errorCbs h with
          | [] => es = [EWarn "uncaught error during route navigation:";
                        EConsoleError err]
          | cbs => es = map (fun f => ECall f [AValue err]) cbs
          end
      | _ => es = []
      end.
Proof.
  eexists. rewrite !abort_emits. simpl.
  split; [reflexivity|]. split; [reflexivity|]. split; [reflexivity|].
  destruct err as [| |b|n|s|f|o|e]; try reflexivity.
  destruct e; simpl; try reflexivity; destruct (errorCbs h); reflexivity.
Qed.

(** ** Outcome of a guard *)

(** [null] is none of [false], an [Error], a string or an object with a
    [path] or a [name], and yet the callback does not run the rest of the
    queue for it.  A guard that calls [next(null)] does not hand over to the
    next guard: the callback throws, the second global hook is never
    invoked and the navigation ends without [current] being replaced. *)
Lemma C3_counterexample_null :
  ¬ (∀ (to : JsValue) (next : Cont) (h : History),
       to ≠ VBool false → isError to = false → (∀ s, to ≠ VString s) →
       (∀ o, to = VObject o → loc_path o = None ∧ loc_name o = None) →
       hookCallback (sample_route 1 "/a" []) START None next to h = next h)
  ∧ (let h := state_of (transitionTo (VString "/a") None (Some 9)
                                     (fresh sample_null_router ∅)) in
     invoked (trace h) = [Guard (guard_calling 1 VNull)]
     ∧ current h = START
     ∧ trace h
       = [EHook (Guard (guard_calling 1 VNull)) (sample_route 1 "/a" []) START;
          EWarn "uncaught error during route navigation:";
          EConsoleError
            (VError (TypeError "Cannot read property 'path' of null"));
          ECall 9 [AValue
            (VError (TypeError "Cannot read property 'path' of null"))]]).
Proof.
  split.
  - intros H.
    specialize (H VNull Ok (fresh sample_null_router ∅)).
    discriminate H; try discriminate; reflexivity.
  - vm_compute. auto.
Qed.

(** C3 (amended): the value a guard passes to [next] is mapped as follows.
    [false]: the location is reconciled with a forced push and the navigation
    aborts with an aborted failure.  An [Error]: reconciled likewise, abort
    with that error.  A string, or an object whose [path] or [name] is a
    string: abort with a redirected failure, then one [push] of the value
    ([replace] when the object has a true [replace]).  [null]: the callback
    throws a [TypeError].  Any other value: the rest of the queue runs. *)
Theorem C3_guard_outcome (route current_ : Route)
    (onAbort : option (JsValue -> History -> History)) (next : Cont)
    (to : JsValue) (h : History) :
  hookCallback route current_ onAbort next to h
  = match to with
    | VBool false =>
        Ok (abort onAbort (VError (NavigationFailure aborted current_ route))
                  (emits [EEnsureURL true] h))
    | VError _ => Ok (abort onAbort to (emits [EEnsureURL true] h))
    | VString _ =>
        Ok (emits [EPush to]
              (abort onAbort
                     (VError (NavigationFailure redirected current_ route)) h))
    | VObject o =>
        match loc_path o, loc_name o with
        | None, None => next h
        | _, _ =>
            Ok (emits [if loc_replace o then EReplace to else EPush to]
                  (abort onAbort
                     (VError (NavigationFailure redirected current_ route)) h))
        end
    | VNull => Throw h (VError (TypeError "Cannot read property 'path' of null"))
    | VUndefined | VBool true | VNumber _ | VFunction _ => next h
    end.
Proof.
  destruct to as [| |b|n|s|f|o|e]; try reflexivity.
  simpl. destruct (loc_path o) as [p|], (loc_name o) as [nm|];
      simpl; try reflexivity; destruct (loc_replace o); reflexivity.
Qed.

(** ** Cancellation of a superseded navigation *)

Lemma hookCallback_proceeds (route current_ : Route)
    (onAbort : option (JsValue -> History -> History)) (next : Cont)
    (v : JsValue) (h : History) :
  proceeds v = true → hookCallback route current_ onAbort next v h = next h.
Proof.
  destruct v as [| |b|n|s|f|o|e]; simpl; try discriminate; try reflexivity.
  - destruct b; [reflexivity|discriminate].
  - intros Hp. apply negb_true_iff in Hp. rewrite Hp. reflexivity.
Qed.

Lemma iterator_cancelled (route current_ : Route)
    (onAbort : option (JsValue -> History -> History))
    (hook : Hook) (next : Cont) (h : History) :
  pending_differs h route = true →
  iterator route current_ onAbort hook next h
  = Ok (abort onAbort (createNavigationCancelledError current_ route) h).
Proof. intros Hd. unfold iterator. rewrite Hd. reflexivity. Qed.

Lemma finish_cancelled (route current_ : Route)
    (onComplete : Route -> History -> History)
    (onAbort : option (JsValue -> History -> History)) (h : History) :
  pending_differs h route = true →
  finish route current_ onComplete onAbort h
  = Ok (abort onAbort (createNavigationCancelledError current_ route) h).
Proof. intros Hd. unfold finish. rewrite Hd. reflexivity. Qed.

Lemma runQueue_cancelled (route current_ : Route)
    (onAbort : option (JsValue -> History -> History))
    (rest : list (option Hook)) (k : Cont) (h : History) :
  pending_differs h route = true →
  k h = Ok (abort onAbort (createNavigationCancelledError current_ route) h) →
  runQueue rest (iterator route current_ onAbort) k h
  = Ok (abort onAbort (createNavigationCancelledError current_ route) h).
Proof.
  intros Hd Hk. induction rest as [|[hook|] rest IH]; simpl.
  - exact Hk.
  - apply iterator_cancelled, Hd.
  - exact IH.
Qed.

Lemma runQueue_cancelled_at_hook (route current_ : Route)
    (onAbort : option (JsValue -> History -> History))
    (rest : list (option Hook)) (k : Cont) (h : History) :
  pending_differs h route = true →
  (∃ hook, Some hook ∈ rest) →
  runQueue rest (iterator route current_ onAbort) k h
  = Ok (abort onAbort (createNavigationCancelledError current_ route) h).
Proof.
  intros Hd. induction rest as [|[hook|] rest IH]; simpl; intros (hk & Hin).
  - inversion Hin.
  - apply iterator_cancelled, Hd.
  - apply IH. exists hk. apply elem_of_cons in Hin as [Heq|Hin];
      [discriminate|assumption].
Qed.

Lemma invoked_calls (fs : list FnRef) (args : list Arg) :
  invoked (map (fun f => ECall f args) fs) = [].
Proof. induction fs; simpl; auto. Qed.

(** The failure callback of [transitionTo] touches the readiness flag and
    calls user callbacks, nothing else. *)
Lemma onTransitionAbort_frame (prev : Route) (f : option FnRef)
    (err : JsValue) (h : History) :
  let h' := onTransitionAbort prev f err h in
  current h' = current h ∧ pending h' = pending h ∧ heap h' = heap h
  ∧ router h' = router h
  ∧ invoked (trace h') = invoked (trace h).
Proof.
  unfold onTransitionAbort.
  assert (Hf : ∀ h0 : History,
    invoked (trace (match f with
                    | Some f0 => call f0 [AValue err] h0
                    | None => h0 end)) = invoked (trace h0)).
  { intros h0. destruct f; simpl; [|reflexivity].
    rewrite invoked_app. simpl. apply app_nil_r. }
  destruct f as [f0|]; simpl;
    repeat match goal with
           | |- context [if ?b then _ else _] => destruct b
           end; simpl;
    rewrite ?forEach_call_emits; simpl;
    rewrite ?invoked_app, ?invoked_calls; simpl; rewrite ?app_nil_r; auto.
Qed.

Lemma abort_transition_frame (prev : Route) (f : option FnRef)
    (err : JsValue) (h : History) :
  let h' := abort (Some (onTransitionAbort prev f)) err h in
  current h' = current h ∧ pending h' = pending h ∧ heap h' = heap h
  ∧ router h' = router h
  ∧ invoked (trace h') = invoked (trace h).
Proof.
  rewrite abort_emits. cbv zeta.
  match goal with
  | |- context [emits ?es h] => set (es0 := es)
  end.
  assert (He : invoked es0 = []).
  { unfold es0.
    destruct (negb (isNavigationFailure err None) && isError err);
      [|reflexivity].
    destruct (errorCbs h); [reflexivity|]. apply (invoked_calls (_ :: _)). }
  pose proof (onTransitionAbort_frame prev f err (emits es0 h))
    as (Hc & Hp & Hh & Hr & Hi).
  cbv zeta in *. rewrite Hc, Hp, Hh, Hr, Hi. simpl.
  rewrite invoked_app, He, app_nil_r. auto.
Qed.

Lemma queue_hook_or_empty (q : list (option Hook)) :
  (∃ hook, Some hook ∈ q) ∨ (∀ fn k, runQueue q fn k = k).
Proof.
  induction q as [|[hook|] q IH].
  - right. reflexivity.
  - left. exists hook. apply list_elem_of_here.
  - destruct IH as [(hook & Hin)|Hskip].
    + left. exists hook. apply list_elem_of_further, Hin.
    + right. intros fn k. simpl. apply Hskip.
Qed.

(** Whatever a guard of a superseded navigation passes to [next], no hook
    is invoked and [current] is not replaced. *)
Lemma superseded_next_invokes_nothing (route prev : Route)
    (oc oa : option FnRef) (act : list RecordRef) (second : bool)
    (rest : list (option Hook)) (v : JsValue) (h : History) :
  pending_differs h route = true →
  let h' := state_of (guard_next route prev oc oa act second rest v h) in
  invoked (trace h') = invoked (trace h) ∧ current h' = current h.
Proof.
  intros Hd. cbv zeta. unfold guard_next. cbv zeta.
  set (onAbort := Some (onTransitionAbort prev oa)).
  set (k := if second
            then finish route prev (onTransitionComplete route prev oc) onAbort
            else enterPhase route prev act
                            (onTransitionComplete route prev oc) onAbort).
  assert (Habort : ∀ err es h0,
    invoked (trace h0) = invoked (trace h) → current h0 = current h →
    invoked es = [] →
    invoked (trace (emits es (abort onAbort err h0))) = invoked (trace h)
    ∧ current (emits es (abort onAbort err h0)) = current h).
  { intros err es h0 Hi Hc Hes.
    destruct (abort_transition_frame prev oa err h0) as (Hc' & _ & _ & _ & Hi').
    cbv zeta in *. unfold emits at 1 2. cbn [trace current].
    rewrite invoked_app, Hes, app_nil_r.
    unfold onAbort. rewrite Hi', Hc'. auto. }
  assert (Hcancel : ∀ h0,
    h0 = abort onAbort (createNavigationCancelledError prev route) h →
    invoked (trace h0) = invoked (trace h) ∧ current h0 = current h).
  { intros h0 ->.
    destruct (Habort (createNavigationCancelledError prev route) [] h)
      as [Hi Hc]; try reflexivity.
    rewrite emits_nil in Hi, Hc. auto. }
  assert (Hnext : invoked (trace (state_of
                    (runQueue rest (iterator route prev onAbort) k h)))
                  = invoked (trace h)
                  ∧ current (state_of
                      (runQueue rest (iterator route prev onAbort) k h))
                    = current h).
  { destruct (queue_hook_or_empty rest) as [Hhook|Hskip].
    - rewrite runQueue_cancelled_at_hook by assumption.
      apply Hcancel. reflexivity.
    - rewrite Hskip. unfold k.
      destruct second.
      + rewrite finish_cancelled by exact Hd. apply Hcancel. reflexivity.
      + unfold enterPhase. destruct (extractEnterGuards _ _); [|auto].
        rewrite runQueue_cancelled; [apply Hcancel; reflexivity|exact Hd|].
        apply finish_cancelled, Hd. }
  assert (Hurl : ∀ err,
    invoked (trace (abort onAbort err (ensureURL true h))) = invoked (trace h)
    ∧ current (abort onAbort err (ensureURL true h)) = current h).
  { intros err. rewrite <- (emits_nil (abort _ _ _)).
    apply Habort; try reflexivity. simpl.
    rewrite invoked_app. simpl. apply app_nil_r. }
  unfold hookCallback, push, replace.
  destruct v as [| |b|n|s|f|o|e]; cbn [isError state_of];
    rewrite ?emit_emits; try exact Hnext; auto.
  - destruct b; [exact Hnext|]. apply Hurl.
  - destruct (bool_decide (is_Some (loc_path o))
              || bool_decide (is_Some (loc_name o))); cbn [state_of];
      [|exact Hnext].
    destruct (loc_replace o); apply Habort; reflexivity.
Qed.

(** A navigation failure reaches no error callback and no console: [abort]
    only hands it to the [onAbort] of the call. *)
Lemma abort_navigation_failure
    (onAbort : option (JsValue -> History -> History))
    (type : NavigationFailureType) (from to : Route) (h : History) :
  abort onAbort (VError (NavigationFailure type from to)) h
  = match onAbort with
    | Some f => f (VError (NavigationFailure type from to)) h
    | None => h
    end.
Proof. destruct onAbort; reflexivity. Qed.

(** What the failure callback of [transitionTo] does with a cancelled
    failure: the [onAbort] of the caller is called with it, then, on an
    engine that is not ready yet, the ready-error callbacks. *)
Lemma onTransitionAbort_cancelled (prev : Route) (f : option FnRef)
    (from to : Route) (h : History) :
  let failure := VError (NavigationFailure cancelled from to) in
  let h' := onTransitionAbort prev f failure h in
  trace h'
  = trace h ++ map (fun g => ECall g [AValue failure]) (given f)
    ++ (if ready h then []
        else map (fun g => ECall g [AValue failure]) (readyErrorCbs h))
  ∧ current h' = current h ∧ pending h' = pending h ∧ ready h' = true.
Proof.
  cbv zeta. unfold onTransitionAbort.
  assert (Hk : bool_decide (cancelled = redirected) = false) by reflexivity.
  destruct f as [f0|]; cbn [given map truthy isNavigationFailure negb orb andb
                            call emit ready trace current pending
                            readyErrorCbs];
    rewrite ?Hk; destruct (ready h) eqn:Hr; cbn [negb andb orb];
    rewrite ?forEach_call_emits; cbn; rewrite ?Hr, ?app_nil_r, <- ?app_assoc;
    auto.
Qed.

(** C2: once [pending] is no longer the route of a navigation, that
    navigation runs no further step.  The iterator, asked to run any hook,
    does not run it: it hands a cancelled failure to the [onAbort] of the
    navigation, and nothing else happens; so does the callback that ends
    the second queue.  Hence, whatever is left of either queue, a guard that
    resumes the navigation with a value that lets it proceed only triggers
    that delivery.  For a navigation started by [transitionTo] the delivery
    is a call of the caller's [onAbort] with the failure, followed on an
    engine that is not ready by the ready-error callbacks; [current] and
    [pending] stay.  Whatever value that is not a redirect the guard resumes
    the navigation with, no hook is invoked and [current] is not replaced.
    (A redirect reaches the backend's [push] or [replace], which starts a
    navigation of its own.) *)
Theorem C2_superseded_navigation_is_cancelled (route current_ : Route)
    (onComplete : Route -> History -> History)
    (onAbort : option (JsValue -> History -> History))
    (activated_ : list RecordRef) (h : History) :
  pending_differs h route = true →
  let failure := VError (NavigationFailure cancelled current_ route) in
  let cancel :=
    Ok (match onAbort with Some f => f failure h | None => h end) in
  let it := iterator route current_ onAbort in
  let second := finish route current_ onComplete onAbort in
  let first := enterPhase route current_ activated_ onComplete onAbort in
  (∀ hook next, it hook next h = cancel)
  ∧ second h = cancel
  ∧ (∀ rest v, proceeds v = true →
       hookCallback route current_ onAbort (runQueue rest it second) v h
       = cancel)
  ∧ (∀ rest v, proceeds v = true →
       (∃ hook, Some hook ∈ rest)
       ∨ is_Some (extractEnterGuards (heap h) activated_) →
       hookCallback route current_ onAbort (runQueue rest it first) v h
       = cancel)
  ∧ (∀ prev f,
       let h' := onTransitionAbort prev f failure h in
       trace h'
       = trace h ++ map (fun g => ECall g [AValue failure]) (given f)
         ++ (if ready h then []
             else map (fun g => ECall g [AValue failure]) (readyErrorCbs h))
       ∧ current h' = current h ∧ pending h' = pending h)
  ∧ (∀ prev oc oa second_ rest v,
       redirects v = false →
       let h' := state_of (guard_next route prev oc oa activated_ second_
                                      rest v h) in
       invoked (trace h') = invoked (trace h) ∧ current h' = current h).
Proof.
  intros Hd failure cancel it second first.
  assert (Hcancel : cancel
    = Ok (abort onAbort (createNavigationCancelledError current_ route) h)).
  { unfold cancel, createNavigationCancelledError.
    rewrite abort_navigation_failure. reflexivity. }
  assert (Hsecond : ∀ rest, runQueue rest it second h = cancel).
  { intros rest. rewrite Hcancel. apply runQueue_cancelled; [exact Hd|].
    apply finish_cancelled, Hd. }
  split; [intros; rewrite Hcancel; apply iterator_cancelled, Hd|].
  split; [rewrite Hcancel; apply finish_cancelled, Hd|].
  split; [intros rest v Hv; rewrite hookCallback_proceeds by exact Hv;
          apply Hsecond|].
  split; [|split].
  - intros rest v Hv Hcase. rewrite hookCallback_proceeds by exact Hv.
    destruct Hcase as [Hhook|[gs Hgs]].
    + rewrite Hcancel. apply runQueue_cancelled_at_hook; assumption.
    + rewrite Hcancel. apply runQueue_cancelled; [exact Hd|].
      rewrite <- Hcancel. unfold first, enterPhase. rewrite Hgs. apply Hsecond.
  - intros prev f.
    pose proof (onTransitionAbort_cancelled prev f current_ route h)
      as (Ht & Hc & Hp & _).
    cbv zeta in *. auto.
  - intros prev oc oa second_ rest v _.
    apply superseded_next_invokes_nothing, Hd.
Qed.

(** The navigation to "/a" waits in the global hook; the navigation to "/b"
    completes meanwhile.  When the hook of the first navigation then calls
    [next()], the resolution step that was left in its queue is not run: the
    [onAbort] of the first navigation, the function 7, is called with the
    cancelled failure, and [current] stays "/b". *)
Lemma C2_witness :
  let h' := state_of (guard_next route_a START None (Some 7) [] false
                        [Some (ResolveAsync [])] VUndefined after_a_then_b) in
  pending_differs after_a_then_b route_a = true
  ∧ trace h'
    = trace after_a_then_b
      ++ [ECall 7 [AValue (VError (NavigationFailure cancelled START
                                                     route_a))]]
  ∧ current h' = route_b.
Proof.
  assert (Hd : pending_differs after_a_then_b route_a = true)
    by (vm_compute; reflexivity).
  cbv zeta. split; [exact Hd|].
  pose proof (C2_superseded_navigation_is_cancelled route_a START
                (onTransitionComplete route_a START None)
                (Some (onTransitionAbort START (Some 7))) [] after_a_then_b Hd)
    as (_ & _ & _ & Hfirst & Hframe & _).
  cbv zeta in Hfirst, Hframe.
  unfold guard_next. cbv zeta.
  rewrite (Hfirst [Some (ResolveAsync [])] VUndefined eq_refl)
    by (left; exists (ResolveAsync []); apply list_elem_of_here).
  destruct (Hframe START (Some 7)) as (Ht & Hc & _).
  cbn [state_of]. split.
  - rewrite Ht. vm_compute. reflexivity.
  - rewrite Hc. vm_compute. reflexivity.
Defined.

(** ** Navigation to the current route *)

(** The index of the last record of [current] is not a number, so the test
    for a navigation to the current route fails whatever the routes are:
    [confirmTransition] sets [pending] and goes on to the guards. *)
Lemma confirmTransition_runs (route : Route)
    (onComplete : Route -> History -> History)
    (onAbort : option (JsValue -> History -> History)) (h : History) :
  confirmTransition route onComplete onAbort h
  = let q := resolveQueue (matched (current h)) (matched route) in
    match extractLeaveGuards (heap h) (deactivated q),
          extractUpdateHooks (heap h) (updated q) with
    | Some leave, Some update =>
        runQueue
          (leave ++ global_hooks (beforeHooks (router h)) ++ update
           ++ map (fun m => option_map Guard
                              (beforeEnter (record_of (heap h) m)))
                  (activated q)
           ++ [Some (ResolveAsync (activated q))])
          (iterator route (current h) onAbort)
          (enterPhase route (current h) (activated q) onComplete onAbort)
          (set_pending (Some route) h)
    | _, _ => Throw (set_pending (Some route) h) extraction_error
    end.
Proof.
  unfold confirmTransition. cbv zeta. cbn [minus_one strict_eq_number].
  rewrite andb_false_r. reflexivity.
Qed.

(** C5: the test for a navigation to the current route never succeeds,
    since the index of the last record of [current] is computed from a
    property the array does not have: [confirmTransition] always runs the
    guard pipeline.  The engine is at "/c"; a fresh route object for "/c"
    with the same record is not refused as a duplicate: the resolution step
    runs, the navigation is committed, [current] is replaced by the new
    route object, and the failure callback 7 is not called. *)
Theorem C5_same_route_is_not_duplicated :
  (∀ route onComplete onAbort h,
     confirmTransition route onComplete onAbort h
     = let q := resolveQueue (matched (current h)) (matched route) in
       match extractLeaveGuards (heap h) (deactivated q),
             extractUpdateHooks (heap h) (updated q) with
       | Some leave, Some update =>
           runQueue
             (leave ++ global_hooks (beforeHooks (router h)) ++ update
              ++ map (fun m => option_map Guard
                                 (beforeEnter (record_of (heap h) m)))
                     (activated q)
              ++ [Some (ResolveAsync (activated q))])
             (iterator route (current h) onAbort)
             (enterPhase route (current h) (activated q) onComplete onAbort)
             (set_pending (Some route) h)
       | _, _ => Throw (set_pending (Some route) h) extraction_error
       end)
  ∧ (let route := sample_route 4 "/c" [10] in
     let h' := state_of (transitionTo (VString "/c") None (Some 7) at_c) in
     isSameRoute route (current at_c) = true
     ∧ matched route = matched (current at_c)
     ∧ trace h' = [EHook (ResolveAsync []) route (current at_c);
                   EEnsureURL false]
     ∧ current h' = route
     ∧ route_ref (current h') ≠ route_ref (current at_c)
     ∧ pending h' = None).
Proof.
  split; [intros; apply confirmTransition_runs|].
  cbv zeta. split; [reflexivity|]. split; [reflexivity|].
  split; [vm_compute; reflexivity|]. split; [vm_compute; reflexivity|].
  split; [vm_compute; discriminate|vm_compute; reflexivity].
Qed.

(** ** Enter guards *)

Lemma mapM_id_In {A : Type} (l : list (option A)) (k : list A) (y : A) :
  mapM id l = Some k → In y k → In (Some y) l.
Proof.
  rewrite mapM_Some. induction 1 as [|x y' l k Hxy _ IH]; simpl.
  - intros [].
  - intros [->|Hin]; [left; exact Hxy|right; auto].
Qed.

(** Every entry [extractGuards] returns comes from a slot of one of the
    records, through [bind]. *)
Lemma extractGuards_In (hp : gmap nat RouteRecord) (records : list RecordRef)
    (name_ : string)
    (bind : NavigationGuard -> option Instance -> RecordRef -> string ->
            option Hook)
    (reverse_ : bool) (gs : list (option Hook)) (hook : Hook) :
  extractGuards hp records name_ bind reverse_ = Some gs →
  In (Some hook) gs →
  ∃ m key guard,
    In m records
    ∧ In key (map fst (components (record_of hp m)))
    ∧ bind guard (instances (record_of hp m) !! key) m key = Some hook.
Proof.
  unfold extractGuards, flatMapComponents, flatten.
  destruct (mapM id _) as [items|] eqn:Hitems; [|discriminate].
  intros [= <-] Hin.
  apply in_concat in Hin as (l & Hl & Hin).
  apply in_map_iff in Hl as (item & <- & Hitem).
  assert (Hitem' : In item items).
  { destruct reverse_; [|exact Hitem].
    rewrite <- list_elem_of_In in Hitem. rewrite elem_of_reverse in Hitem.
    rewrite list_elem_of_In in Hitem. exact Hitem. }
  apply (mapM_id_In _ _ _ Hitems) in Hitem'.
  apply in_concat in Hitem' as (per & Hper & Hsome).
  apply in_map_iff in Hper as (it & <- & Hit).
  apply in_map_iff in Hit as (m & <- & Hm).
  apply in_map_iff in Hsome as ((key & def) & Hfn & Hkb).
  simpl in Hfn.
  exists m, key.
  assert (Hkey : In key (map fst (components (record_of hp m))))
    by (apply in_map_iff; exists (key, def); auto).
  destruct (extractGuard def name_) as [[[g|gl]|]|]; try discriminate;
    injection Hfn as <-; simpl in Hin.
  - destruct Hin as [Hin|[]]. exists g. auto.
  - apply in_map_iff in Hin as (g & Hg & _). exists g. auto.
  - destruct Hin as [Hin|[]]. discriminate.
Qed.

Lemma enteredCbs_pushed (m : RecordRef) (key : string) (f : FnRef)
    (h : History) :
  enteredCbs (record_of (heap (push_enteredCb m key f h)) m) !! key
  = Some (default [] (enteredCbs (record_of (heap h) m) !! key) ++ [f]).
Proof.
  unfold push_enteredCb, record_of at 1. simpl.
  rewrite lookup_insert_eq. simpl. apply lookup_insert_eq.
Qed.

(** C9: every enter guard extracted from the activated records is a
    [routeEnterGuard] wrapper for a slot of one of those records.  The
    callback the wrapper hands to the guard forwards every value to the
    [next] of the pipeline, after it has appended a function value to the
    [enteredCbs] list of that record and slot; and in the pipeline a guard
    that calls [next] with a function lets the rest of the queue run, on the
    state in which the function is queued. *)
Theorem C9_enter_guard_queues_callback (hp : gmap nat RouteRecord)
    (activated_ : list RecordRef) (gs : list (option Hook)) (hook : Hook) :
  extractEnterGuards hp activated_ = Some gs →
  In (Some hook) gs →
  ∃ guard m key,
    hook = RouteEnterGuard guard m key
    ∧ In m activated_
    ∧ In key (map fst (components (record_of hp m)))
    ∧ (∀ (next : JsValue -> Cont) (v : JsValue) (h : History),
         enterCallback m key next v h
         = next v match v with
                  | VFunction f => push_enteredCb m key f h
                  | _ => h
                  end)
    ∧ (∀ (f : FnRef) (h : History),
         enteredCbs (record_of (heap (push_enteredCb m key f h)) m) !! key
         = Some (default [] (enteredCbs (record_of (heap h) m) !! key) ++ [f]))
    ∧ (∀ route current_ onAbort (next : Cont) (f : FnRef) (h : History),
         pending_differs h route = false →
         guard_body guard None route current_
         = {| calls := [VFunction f]; throws := None |} →
         iterator route current_ onAbort hook next h
         = try_catch
             (next (push_enteredCb m key f
                      (emit (EHook hook route current_) h)))
             (abort onAbort)).
Proof.
  intros Hgs Hin.
  destruct (extractGuards_In _ _ _ _ _ _ _ Hgs Hin)
    as (m & key & guard & Hm & Hkey & Hbind).
  injection Hbind as <-.
  exists guard, m, key. unfold bindEnterGuard.
  split; [reflexivity|]. split; [exact Hm|]. split; [exact Hkey|].
  split; [intros next v h; destruct v; reflexivity|].
  split; [intros; apply enteredCbs_pushed|].
  intros route current_ onAbort next f h Hpd Hbody.
  unfold iterator. rewrite Hpd.
  unfold callHook, routeEnterGuard, applyGuard. rewrite Hbody. simpl.
  destruct (next _); reflexivity.
Qed.

(** The record 20 has a [beforeRouteEnter] guard that calls [next] with
    the function 42: the function is queued on the slot ["default"] and the
    rest of the queue runs. *)
Lemma C9_witness :
  extractEnterGuards heap_entering [20]
  = Some [Some (RouteEnterGuard (guard_calling 3 (VFunction 42)) 20 "default")]
  ∧ ∃ guard m key,
      RouteEnterGuard (guard_calling 3 (VFunction 42)) 20 "default"
      = RouteEnterGuard guard m key
      ∧ iterator (sample_route 6 "/d" [20]) START None
          (RouteEnterGuard guard m key) Ok entering_d
        = Ok (push_enteredCb m key 42
                (emit (EHook (RouteEnterGuard guard m key)
                             (sample_route 6 "/d" [20]) START) entering_d)).
Proof.
  assert (Hgs : extractEnterGuards heap_entering [20]
    = Some [Some (RouteEnterGuard (guard_calling 3 (VFunction 42))
                                  20 "default")])
    by (vm_compute; reflexivity).
  split; [exact Hgs|].
  destruct (C9_enter_guard_queues_callback heap_entering [20] _
              (RouteEnterGuard (guard_calling 3 (VFunction 42)) 20 "default")
              Hgs (or_introl eq_refl))
    as (guard & m & key & Heq & _ & _ & _ & _ & Hrun).
  exists guard, m, key. split; [exact Heq|].
  injection Heq as <- <- <-.
  rewrite (Hrun (sample_route 6 "/d" [20]) START None Ok 42 entering_d);
    reflexivity.
Defined.

(** ** Properties of the state that every step of the engine keeps

    A property of the state that the outgoing calls, the writes to the heap
    and to [pending] keep, and that the two callbacks of the navigation
    keep, is kept by every piece of the pipeline. *)

Section Frame.
Variable P : History -> Prop.
Hypothesis P_emit : ∀ e h, P h → P (emit e h).
Hypothesis P_heap : ∀ m h, P h → P (set_heap m h).
Hypothesis P_resolved : ∀ m h, P h → P (set_factory_resolved m h).
Hypothesis P_pending : ∀ p h, P h → P (set_pending p h).

Lemma keeps_forEach_call (cbs : list FnRef) (args : list Arg) (h : History) :
  P h → P (forEach_call cbs args h).
Proof.
  unfold forEach_call. revert h.
  induction cbs as [|f cbs IH]; simpl; intros h Hh; [exact Hh|].
  apply IH, P_emit, Hh.
Qed.

Lemma keeps_abort (onAbort : option (JsValue -> History -> History))
    (err : JsValue) (h : History) :
  (∀ f e h0, onAbort = Some f → P h0 → P (f e h0)) →
  P h → P (abort onAbort err h).
Proof.
  intros Hf Hh. unfold abort.
  match goal with
  | |- P (match onAbort with Some f => f err ?h1 | None => ?h1 end) =>
      assert (H1 : P h1)
  end.
  { destruct (negb (isNavigationFailure err None) && isError err);
      [|exact Hh].
    destruct (errorCbs h) eqn:Hc.
    - apply P_emit, P_emit, Hh.
    - apply keeps_forEach_call, Hh. }
  destruct onAbort as [f|]; [apply (Hf f); auto|exact H1].
Qed.

Lemma keeps_callNext (vs : list JsValue) (next : JsValue -> Cont) :
  (∀ v, keeps P (next v)) → keeps P (callNext vs next).
Proof.
  intros Hn. induction vs as [|v vs IH]; intros h Hh; simpl; [exact Hh|].
  pose proof (Hn v h Hh) as Hv.
  destruct (next v h) as [h'|h' e]; simpl in *; [apply IH, Hv|exact Hv].
Qed.

Lemma keeps_applyGuard (g : NavigationGuard) (this : option Instance)
    (to from : Route) (next : JsValue -> Cont) :
  (∀ v, keeps P (next v)) → keeps P (applyGuard g this to from next).
Proof.
  intros Hn h Hh. unfold applyGuard.
  pose proof (keeps_callNext (calls (guard_body g this to from)) next Hn h Hh)
    as Hc.
  destruct (callNext _ next h) as [h'|h' e]; simpl in *; [|exact Hc].
  destruct (throws _); exact Hc.
Qed.

Lemma keeps_enterCallback (m : RecordRef) (key : string)
    (next : JsValue -> Cont) (v : JsValue) :
  (∀ v, keeps P (next v)) → keeps P (enterCallback m key next v).
Proof.
  intros Hn h Hh. unfold enterCallback.
  destruct v; try (apply Hn, Hh). apply Hn, P_heap, Hh.
Qed.

Lemma keeps_resolve (slot : nat * string) (m : RecordRef) (def : Factory)
    (next : JsValue -> Cont) (d : ResolvedDef) :
  (∀ v, keeps P (next v)) → keeps_step P (resolve slot m def next d).
Proof.
  intros Hn st h Hh. unfold resolve, once.
  destruct (bool_decide _); [exact Hh|].
  unfold resolve_body. cbv zeta.
  match goal with
  | |- context [next VUndefined ?h2] => assert (H2 : P h2)
  end.
  { apply P_heap, P_resolved, Hh. }
  destruct (_ <=? _)%Z; simpl; [apply Hn, H2|exact H2].
Qed.

Lemma keeps_reject (slot : nat * string) (next : JsValue -> Cont)
    (reason : JsValue) :
  (∀ v, keeps P (next v)) → keeps_step P (reject slot next reason).
Proof.
  intros Hn st h Hh. unfold reject, once.
  destruct (bool_decide _); [exact Hh|].
  unfold reject_body. cbv zeta.
  assert (H1 : P (if production h then h
                  else emit (EWarnAsync slot.2 reason) h))
    by (destruct (production h); [exact Hh|apply P_emit, Hh]).
  destruct (error _); simpl; [exact H1|apply Hn, H1].
Qed.

Lemma keeps_runFactoryActions (acts : list FactoryAction)
    (slot : nat * string) (m : RecordRef) (def : Factory)
    (next : JsValue -> Cont) :
  (∀ v, keeps P (next v)) →
  keeps_step P (runFactoryActions acts slot m def next).
Proof.
  intros Hn. induction acts as [|a acts IH]; intros st h Hh; simpl;
    [exact Hh|].
  match goal with
  | |- context [match ?o.2 with _ => _ end] =>
      assert (Ho : P (state_of o.2)); [|destruct o as [st' [h'|h' e]]]
  end.
  { destruct a; [apply keeps_resolve|apply keeps_reject]; auto. }
  - simpl in *. apply IH, Ho.
  - exact Ho.
Qed.

Lemma keeps_callFactory (slot : nat * string) (m : RecordRef)
    (def : Factory) (next : JsValue -> Cont) :
  (∀ v, keeps P (next v)) → keeps_step P (callFactory slot m def next).
Proof.
  intros Hn st h Hh. unfold callFactory.
  pose proof (keeps_runFactoryActions (factory_actions def) slot m def next
                Hn st h Hh) as Ho.
  destruct (runFactoryActions _ _ _ _ _ _ _) as [st' [h'|h' e]];
    simpl in *; [|exact Ho].
  destruct (factory_throws def); exact Ho.
Qed.

Lemma keeps_visitComponent (idx : nat) (m : RecordRef) (key : string)
    (next : JsValue -> Cont) :
  (∀ v, keeps P (next v)) → keeps_step P (visitComponent idx m key next).
Proof.
  intros Hn st h Hh. unfold visitComponent.
  destruct (lookup_binding _ _) as [[c|def]|]; try exact Hh.
  pose proof (keeps_callFactory (idx, key) m def next Hn (begin_async st)
                h Hh) as Ho.
  destruct (callFactory _ _ _ _ _ _) as [st' [h'|h' e]]; simpl in *;
    [exact Ho|].
  apply keeps_reject; auto.
Qed.

Lemma keeps_visitKeys (idx : nat) (m : RecordRef) (keys : list string)
    (next : JsValue -> Cont) :
  (∀ v, keeps P (next v)) → keeps_step P (visitKeys idx m keys next).
Proof.
  intros Hn. induction keys as [|key keys IH]; intros st h Hh; simpl;
    [exact Hh|].
  pose proof (keeps_visitComponent idx m key next Hn st h Hh) as Ho.
  destruct (visitComponent _ _ _ _ _ _) as [st' [h'|h' e]]; simpl in *;
    [apply IH, Ho|exact Ho].
Qed.

Lemma keeps_visitRecords (ms : list RecordRef) (next : JsValue -> Cont) :
  (∀ v, keeps P (next v)) → ∀ idx, keeps_step P (visitRecords idx ms next).
Proof.
  intros Hn. induction ms as [|m ms IH]; intros idx st h Hh; simpl;
    [exact Hh|].
  pose proof (keeps_visitKeys idx m
                (map fst (components (record_of (heap h) m))) next Hn st h Hh)
    as Ho.
  destruct (visitKeys _ _ _ _ _ _) as [st' [h'|h' e]]; simpl in *;
    [apply IH, Ho|exact Ho].
Qed.

Lemma keeps_resolveAsyncComponents (ms : list RecordRef) (to from : Route)
    (next : JsValue -> Cont) :
  (∀ v, keeps P (next v)) →
  ∀ h, P h → P (state_of (resolveAsyncComponents ms to from next h).2).
Proof.
  intros Hn h Hh. unfold resolveAsyncComponents.
  pose proof (keeps_visitRecords ms next Hn 0 initialStep h Hh) as Ho.
  destruct (visitRecords _ _ _ _ _) as [st' [h'|h' e]]; simpl in *;
    [|exact Ho].
  destruct (hasAsync st'); simpl; [exact Ho|apply Hn, Ho].
Qed.

Lemma keeps_callHook (hook : Hook) (to from : Route)
    (next : JsValue -> Cont) :
  (∀ v, keeps P (next v)) → keeps P (callHook hook to from next).
Proof.
  intros Hn h Hh. unfold callHook.
  pose proof (P_emit (EHook hook to from) h Hh) as H1.
  destruct hook as [g|g i|g m key|ms].
  - apply keeps_applyGuard; auto.
  - apply keeps_applyGuard; auto.
  - apply keeps_applyGuard; auto.
    intros v. apply keeps_enterCallback, Hn.
  - apply keeps_resolveAsyncComponents; auto.
Qed.

Section Navigation.
Variable route : Route.
Variable onComplete : Route -> History -> History.
Variable onAbort : option (JsValue -> History -> History).
Hypothesis P_onComplete : ∀ r h, P h → P (onComplete r h).
Hypothesis P_onAbort : ∀ f e h, onAbort = Some f → P h → P (f e h).

Lemma keeps_hookCallback (current_ : Route) (next : Cont) (v : JsValue) :
  keeps P next → keeps P (hookCallback route current_ onAbort next v).
Proof.
  intros Hn h Hh. unfold hookCallback, push, replace, ensureURL.
  destruct v as [| |b|n|s|f|o|e]; simpl; try (apply Hn, Hh);
    try exact Hh.
  - destruct b; [apply Hn, Hh|].
    simpl. apply keeps_abort; [exact P_onAbort|apply P_emit, Hh].
  - apply P_emit, keeps_abort; [exact P_onAbort|exact Hh].
  - destruct (_ || _); [|apply Hn, Hh]. simpl.
    destruct (loc_replace o);
      apply P_emit, keeps_abort; solve [exact P_onAbort|exact Hh].
  - apply keeps_abort; [exact P_onAbort|apply P_emit, Hh].
Qed.

Lemma keeps_iterator (current_ : Route) (hook : Hook) (next : Cont) :
  keeps P next → keeps P (iterator route current_ onAbort hook next).
Proof.
  intros Hn h Hh. unfold iterator.
  destruct (pending_differs h route); simpl.
  - apply keeps_abort; [exact P_onAbort|exact Hh].
  - pose proof (keeps_callHook hook route current_ _
                  (fun v => keeps_hookCallback current_ next v Hn) h Hh) as Hc.
    destruct (callHook _ _ _ _ _) as [h'|h' e]; simpl in *; [exact Hc|].
    apply keeps_abort; [exact P_onAbort|exact Hc].
Qed.

Lemma keeps_runQueue (current_ : Route) (queue : list (option Hook))
    (k : Cont) :
  keeps P k → keeps P (runQueue queue (iterator route current_ onAbort) k).
Proof.
  intros Hk. induction queue as [|[hook|] queue IH]; simpl;
    [exact Hk|apply keeps_iterator, IH|exact IH].
Qed.

Lemma keeps_finish (current_ : Route) :
  keeps P (finish route current_ onComplete onAbort).
Proof.
  intros h Hh. unfold finish.
  destruct (pending_differs h route); simpl.
  - apply keeps_abort; [exact P_onAbort|exact Hh].
  - assert (H1 : P (onComplete route (set_pending None h)))
      by apply P_onComplete, P_pending, Hh.
    destruct (app _); [apply P_emit, H1|exact H1].
Qed.

Lemma keeps_enterPhase (current_ : Route) (activated_ : list RecordRef) :
  keeps P (enterPhase route current_ activated_ onComplete onAbort).
Proof.
  intros h Hh. unfold enterPhase.
  destruct (extractEnterGuards _ _); [|exact Hh].
  apply keeps_runQueue; [apply keeps_finish|exact Hh].
Qed.

Lemma keeps_confirmTransition :
  keeps P (confirmTransition route onComplete onAbort).
Proof.
  intros h Hh. unfold confirmTransition. cbv zeta.
  pose proof (P_pending (Some route) h Hh) as H1.
  destruct (_ && _); simpl.
  - apply keeps_abort; [exact P_onAbort|apply P_emit, H1].
  - destruct (extractLeaveGuards _ _); [|exact H1].
    destruct (extractUpdateHooks _ _); [|exact H1].
    apply keeps_runQueue; [apply keeps_enterPhase|exact H1].
Qed.
End Navigation.
End Frame.

(** ** Readiness *)

(** The first navigation of a fresh engine is refused with [next(false)]:
    [ready] flips there and the error callback 12 is called.  The second
    navigation is the first that completes, and the ready callback 11 is
    not called, then or ever.  And when the only guard throws [undefined],
    the navigation fails while the engine is not ready, yet [ready] stays
    false and the error callback is not called: a failure that is not a
    redirected one does not always make the engine ready. *)
Lemma C4_counterexample :
  (let h := run [OpOnReady 11 (Some 12);
                 OpTransitionTo (VString "/a") None None;
                 OpTransitionTo (VString "/b") None None]
                (fresh sample_refusing_router ∅) in
   trace h
   = [EHook (Guard guard_refusing_a) route_a START;
      EEnsureURL true;
      ECall 12 [AValue (VError (NavigationFailure aborted START route_a))];
      EHook (Guard guard_refusing_a) route_b START;
      EHook (ResolveAsync []) route_b START;
      EEnsureURL false]
   ∧ current h = route_b ∧ ready h = true ∧ readyCbs h = [11])
  ∧ (let h := run [OpOnReady 11 (Some 12);
                   OpTransitionTo (VString "/a") None None]
                  (fresh sample_throwing_router ∅) in
     trace h = [EHook (Guard (guard_throwing 1 VUndefined)) route_a START]
     ∧ ready h = false ∧ readyErrorCbs h = [12])
  ∧ ¬ (∀ (prev : Route) (oa : option FnRef) (err : JsValue) (h : History),
         ready h = false → initial_redirect err prev = false →
         ready (onTransitionAbort prev oa err h) = true).
Proof.
  split; [vm_compute; auto 10|]. split; [vm_compute; auto|].
  intros H.
  specialize (H START None VUndefined (fresh sample_throwing_router ∅)
                eq_refl eq_refl).
  discriminate H.
Qed.

Lemma afterHooks_emits (hooks : list (option FnRef)) (args : list Arg)
    (h : History) :
  fold_left (fun acc hook =>
               match hook with
               | Some f => call f args acc
               | None => acc
               end) hooks h
  = emits (concat (map (fun hook => match hook with
                                    | Some f => [ECall f args]
                                    | None => []
                                    end) hooks)) h.
Proof.
  revert h. induction hooks as [|[f|] hooks IH]; intros h; simpl.
  - symmetry; apply emits_nil.
  - rewrite IH. unfold call. rewrite emit_emits, emits_emits. reflexivity.
  - apply IH.
Qed.

Lemma ready_onTransitionComplete (route prev : Route) (oc : option FnRef)
    (r : Route) (h : History) :
  ready (onTransitionComplete route prev oc r h) = true.
Proof.
  unfold onTransitionComplete. cbv zeta.
  match goal with |- ready (if ready ?x then _ else _) = _ =>
    destruct (ready x) eqn:Hr end; [exact Hr|].
  rewrite forEach_call_emits. reflexivity.
Qed.

Lemma ready_onTransitionAbort (prev : Route) (oa : option FnRef)
    (err : JsValue) (h : History) :
  ready h = true → ready (onTransitionAbort prev oa err h) = true.
Proof.
  intros Hr. unfold onTransitionAbort.
  assert (H1 : ready (match oa with
                      | Some f => call f [AValue err] h
                      | None => h end) = true) by (destruct oa; exact Hr).
  rewrite H1, andb_false_r. exact H1.
Qed.

Lemma ready_guard_next (route prev : Route) (oc oa : option FnRef)
    (act : list RecordRef) (second : bool) (rest : list (option Hook))
    (v : JsValue) :
  keeps (fun h => ready h = true) (guard_next route prev oc oa act second rest v).
Proof.
  unfold guard_next. cbv zeta.
  apply keeps_hookCallback; auto.
  - intros f e h [= <-]. apply ready_onTransitionAbort.
  - apply keeps_runQueue; auto.
    + intros f e h [= <-]. apply ready_onTransitionAbort.
    + destruct second.
      * apply keeps_finish; auto.
        -- intros; apply ready_onTransitionComplete.
        -- intros f e h [= <-]. apply ready_onTransitionAbort.
      * apply keeps_enterPhase; auto.
        -- intros; apply ready_onTransitionComplete.
        -- intros f e h [= <-]. apply ready_onTransitionAbort.
Qed.

Lemma ready_perform (op : Op) (h : History) :
  ready h = true → ready (perform op h) = true.
Proof.
  intros Hr. destruct op; simpl.
  - unfold transitionTo.
    destruct (router_match _ _ _) as [route|e]; simpl.
    + apply (keeps_confirmTransition (fun h => ready h = true)); auto.
      * intros; apply ready_onTransitionComplete.
      * intros f e h0 [= <-]. apply ready_onTransitionAbort.
    + rewrite forEach_call_emits. exact Hr.
  - apply ready_guard_next, Hr.
  - apply (keeps_resolve (fun h => ready h = true)); auto.
    intros v0. apply ready_guard_next.
  - apply (keeps_reject (fun h => ready h = true)); auto.
    intros v0. apply ready_guard_next.
  - exact Hr.
  - unfold onReady. rewrite Hr. exact Hr.
  - exact Hr.
  - unfold teardown. rewrite forEach_call_emits. exact Hr.
Qed.

Lemma ready_run (ops : list Op) (h : History) :
  ready h = true → ready (run ops h) = true.
Proof.
  unfold run. revert h.
  induction ops as [|op ops IH]; simpl; intros h Hr; [exact Hr|].
  apply IH, ready_perform, Hr.
Qed.

(** C4 (amended): when a navigation started by [transitionTo] completes,
    [current] is replaced, the listener, [onComplete], the backend and the
    after hooks are called, and, if the engine was not ready, [ready]
    becomes true and every [readyCbs] callback is called with the route; if
    it was ready, none is.  When the navigation fails, [onAbort] gets the
    failure, and if the failure value is truthy, the engine is not ready and
    the failure is not a redirected failure of a navigation that started
    from [START], [ready] becomes true and every [readyErrorCbs] callback is
    called with the failure; otherwise [ready] is left as it is and none is
    called.  Nothing that happens to the engine makes [ready] false again,
    so at most one of the two lists is flushed, at most once. *)
Theorem C4_readiness (route prev r : Route) (oc oa : option FnRef)
    (err : JsValue) (ops : list Op) (h : History) :
  (let h' := onTransitionComplete route prev oc r h in
   ready h' = true
   ∧ current h' = route
   ∧ trace h'
     = trace h
       ++ map (fun f => ECall f [ARoute route]) (given (cb h))
       ++ map (fun f => ECall f [ARoute route]) (given oc)
       ++ [EEnsureURL false]
       ++ concat (map (fun hook => match hook with
                                   | Some f => [ECall f [ARoute route;
                                                         ARoute prev]]
                                   | None => []
                                   end) (afterHooks (router h)))
       ++ (if ready h then []
           else map (fun f => ECall f [ARoute route]) (readyCbs h)))
  ∧ (let h' := onTransitionAbort prev oa err h in
     let flips := truthy err && negb (ready h)
                  && negb (initial_redirect err prev) in
     ready h' = ready h || flips
     ∧ current h' = current h
     ∧ trace h'
       = trace h
         ++ map (fun f => ECall f [AValue err]) (given oa)
         ++ (if flips
             then map (fun f => ECall f [AValue err]) (readyErrorCbs h)
             else []))
  ∧ (ready h = true → ready (run ops h) = true).
Proof.
  split; [|split; [|apply ready_run]].
  - cbv zeta. split; [apply ready_onTransitionComplete|].
    unfold onTransitionComplete, updateRoute. cbv zeta.
    rewrite afterHooks_emits, forEach_call_emits.
    destruct h as [rt cur pe [l|] [|] rcs recs ecs ls pr hp fr tr], oc as [c|];
      simpl; rewrite <- ?app_assoc; simpl; rewrite ?app_nil_r; auto.
  - cbv zeta. unfold onTransitionAbort, initial_redirect.
    assert (Hnf : negb (isNavigationFailure err (Some redirected))
                  || negb (same_route_object prev START)
                  = negb match err with
                         | VError (NavigationFailure redirected _ _) =>
                             bool_decide (route_ref prev = route_ref START)
                         | _ => false
                         end).
    { unfold same_route_object.
      destruct err as [| |b|n|s|f|o|e]; try reflexivity.
      destruct e as [| | |t ? ?]; try reflexivity. destruct t; reflexivity. }
    rewrite Hnf. rewrite forEach_call_emits.
    destruct h as [rt cur pe l [|] rcs recs ecs ls pr hp fr tr], oa as [a|],
      (truthy err); simpl;
      try match goal with
          | |- context [negb ?b] => destruct b
          end; simpl; rewrite <- ?app_assoc, ?app_nil_r; auto.
Qed.

(** ** The resolution step without async factories *)

Lemma lookup_binding_In (key : string) (l : list (string * ViewBinding))
    (b : ViewBinding) :
  lookup_binding key l = Some b → In (key, b) l.
Proof.
  induction l as [|[k b'] l IH]; simpl; [discriminate|].
  destruct (decide (k = key)) as [->|Hne].
  - intros [= ->]. left; reflexivity.
  - intros H. right. apply IH, H.
Qed.

Lemma visitKeys_all_resolved (idx : nat) (m : RecordRef) (keys : list string)
    (next : JsValue -> Cont) (st : StepState) (h : History) :
  forallb (fun kb : string * ViewBinding =>
             match kb.2 with
             | Resolved _ => true
             | AsyncFactory _ => false
             end) (components (record_of (heap h) m)) = true →
  visitKeys idx m keys next st h = (st, Ok h).
Proof.
  intros Hall. induction keys as [|key keys IH]; simpl; [reflexivity|].
  unfold visitComponent.
  destruct (lookup_binding key _) as [[c|def]|] eqn:Hb; simpl; try exact IH.
  apply lookup_binding_In in Hb.
  rewrite forallb_forall in Hall. specialize (Hall _ Hb). discriminate.
Qed.

Lemma visitRecords_no_async (ms : list RecordRef) (next : JsValue -> Cont)
    (idx : nat) (st : StepState) (h : History) :
  no_async (heap h) ms = true → visitRecords idx ms next st h = (st, Ok h).
Proof.
  revert idx. induction ms as [|m ms IH]; intros idx; simpl; [reflexivity|].
  intros Hall. apply andb_true_iff in Hall as [Hm Hms].
  rewrite visitKeys_all_resolved by exact Hm. simpl. apply IH, Hms.
Qed.

Lemma resolveAsyncComponents_no_async (ms : list RecordRef) (to from : Route)
    (next : JsValue -> Cont) (h : History) :
  no_async (heap h) ms = true →
  resolveAsyncComponents ms to from next h = (initialStep, next VUndefined h).
Proof.
  intros Hall. unfold resolveAsyncComponents.
  rewrite visitRecords_no_async by exact Hall. reflexivity.
Qed.

(** ** Order of the guard steps *)

Lemma components_push_enteredCb (m : RecordRef) (key : string) (f : FnRef)
    (h : History) (m' : RecordRef) :
  components (record_of (heap (push_enteredCb m key f h)) m')
  = components (record_of (heap h) m').
Proof.
  unfold push_enteredCb, record_of at 1. simpl.
  destruct (decide (m = m')) as [->|Hne].
  - rewrite lookup_insert_eq. reflexivity.
  - rewrite lookup_insert_ne by exact Hne. reflexivity.
Qed.

Lemma after_pass_frame (to from : Route) (hook : Hook) (h : History) :
  let h' := after_pass to from hook h in
  trace h' = trace h ++ [EHook hook to from]
  ∧ pending h' = pending h ∧ current h' = current h ∧ router h' = router h
  ∧ ready h' = ready h
  ∧ (∀ m, components (record_of (heap h') m)
          = components (record_of (heap h) m))
  ∧ (match hook with RouteEnterGuard _ _ _ => False | _ => True end →
     heap h' = heap h).
Proof.
  unfold after_pass. cbv zeta. destruct hook as [g|g i|g m key|ms]; simpl;
    try (repeat split; auto; fail).
  destruct (calls _) as [|[| | | | |f| |] [|]]; simpl;
    repeat split; auto;
    try (intros m'; apply (components_push_enteredCb m key f h m'));
    try contradiction.
Qed.

Lemma after_passes_frame (to from : Route) (hs : list Hook) (h : History) :
  let h' := after_passes to from hs h in
  trace h' = trace h ++ map (fun hook => EHook hook to from) hs
  ∧ pending h' = pending h ∧ current h' = current h ∧ router h' = router h
  ∧ ready h' = ready h
  ∧ (∀ m, components (record_of (heap h') m)
          = components (record_of (heap h) m))
  ∧ (Forall (fun hook => match hook with
                         | RouteEnterGuard _ _ _ => False
                         | _ => True
                         end) hs →
     heap h' = heap h).
Proof.
  unfold after_passes. revert h.
  induction hs as [|hook hs IH]; intros h; simpl.
  - rewrite app_nil_r. repeat split; auto.
  - destruct (IH (after_pass to from hook h))
      as (Ht & Hp & Hc & Hr & Hrd & Hcomp & Hheap).
    destruct (after_pass_frame to from hook h)
      as (Ht1 & Hp1 & Hc1 & Hr1 & Hrd1 & Hcomp1 & Hheap1).
    cbv zeta in *.
    rewrite Ht, Ht1, Hp, Hp1, Hc, Hc1, Hr, Hr1, Hrd, Hrd1, <- app_assoc.
    repeat split; auto.
    + intros m. rewrite Hcomp, Hcomp1. reflexivity.
    + intros Hall. apply Forall_cons in Hall as [H1 Hall].
      rewrite Hheap, Hheap1; auto.
Qed.

Lemma no_async_components (hp hp' : gmap nat RouteRecord)
    (ms : list RecordRef) :
  (∀ m, components (record_of hp' m) = components (record_of hp m)) →
  no_async hp' ms = no_async hp ms.
Proof.
  intros Hc. unfold no_async. induction ms as [|m ms IH]; simpl;
    [reflexivity|]. rewrite Hc, IH. reflexivity.
Qed.

Lemma pending_differs_same (route : Route) (h : History) :
  pending h = Some route → pending_differs h route = false.
Proof.
  intros Hp. unfold pending_differs, same_route_object. rewrite Hp.
  rewrite bool_decide_eq_true_2; reflexivity.
Qed.

(** One step that approves hands over to the rest of the queue. *)
Lemma iterator_approved (route current_ : Route)
    (onAbort : option (JsValue -> History -> History))
    (hp : gmap nat RouteRecord) (hook : Hook) (next : Cont) (h : History) :
  pending h = Some route →
  (∀ m, components (record_of (heap h) m) = components (record_of hp m)) →
  approves route current_ hp hook →
  iterator route current_ onAbort hook next h
  = try_catch (next (after_pass route current_ hook h)) (abort onAbort).
Proof.
  intros Hp Hc Happ. unfold iterator.
  rewrite pending_differs_same by exact Hp.
  f_equal. unfold callHook, after_pass. cbv zeta.
  destruct hook as [g|g i|g m key|ms]; simpl in Happ.
  - destruct Happ as (v & Hb & Hv). unfold applyGuard. rewrite Hb. simpl.
    rewrite hookCallback_proceeds by exact Hv. destruct (next _); reflexivity.
  - destruct Happ as (v & Hb & Hv). unfold applyGuard. rewrite Hb. simpl.
    rewrite hookCallback_proceeds by exact Hv. destruct (next _); reflexivity.
  - destruct Happ as (v & Hb & Hv).
    unfold routeEnterGuard, applyGuard. rewrite Hb. simpl.
    unfold enterCallback.
    destruct v as [| |b|n|s|f|o|e];
      rewrite hookCallback_proceeds by exact Hv;
      match goal with |- context [next ?x] => destruct (next x) end;
      reflexivity.
  - rewrite resolveAsyncComponents_no_async.
    + reflexivity.
    + simpl. rewrite <- Happ. apply no_async_components, Hc.
Qed.

(** A queue whose steps all approve runs them in order and then runs its
    callback, provided the callback does not throw. *)
Lemma runQueue_approved (route current_ : Route)
    (onAbort : option (JsValue -> History -> History))
    (hp : gmap nat RouteRecord) (queue : list (option Hook)) (k : Cont)
    (h : History) :
  pending h = Some route →
  (∀ m, components (record_of (heap h) m) = components (record_of hp m)) →
  all_approve route current_ hp queue →
  (∃ h2, k (after_passes route current_ (hooks queue) h) = Ok h2) →
  runQueue queue (iterator route current_ onAbort) k h
  = k (after_passes route current_ (hooks queue) h).
Proof.
  revert h. induction queue as [|[hook|] queue IH]; intros h Hp Hc Hall Hk.
  - reflexivity.
  - apply Forall_cons in Hall as [Hhook Hall].
    change (hooks (Some hook :: queue)) with (hook :: hooks queue) in *.
    change (after_passes route current_ (hook :: hooks queue) h)
      with (after_passes route current_ (hooks queue)
              (after_pass route current_ hook h)) in *.
    simpl. rewrite (iterator_approved _ _ _ hp) by assumption.
    destruct (after_pass_frame route current_ hook h)
      as (_ & Hp1 & _ & _ & _ & Hc1 & _). cbv zeta in *.
    rewrite IH.
    + destruct Hk as [h2 ->]. reflexivity.
    + rewrite Hp1. exact Hp.
    + intros m. rewrite Hc1. apply Hc.
    + exact Hall.
    + exact Hk.
  - apply Forall_cons in Hall as [_ Hall]. simpl. apply IH; auto.
Qed.

Lemma runQueue_app (q rest : list (option Hook)) (fn : Hook -> Cont -> Cont)
    (k : Cont) :
  runQueue (q ++ rest) fn k = runQueue q fn (runQueue rest fn k).
Proof.
  induction q as [|[x|] q IH]; simpl; [reflexivity| |exact IH].
  rewrite IH. reflexivity.
Qed.


Lemma extractEnterGuards_components (hp hp' : gmap nat RouteRecord)
    (ms : list RecordRef) :
  (∀ m, components (record_of hp' m) = components (record_of hp m)) →
  extractEnterGuards hp' ms = extractEnterGuards hp ms.
Proof.
  intros Hc. unfold extractEnterGuards, extractGuards, flatMapComponents.
  assert (Heq : ∀ A (f : RecordRef -> list (string * ViewBinding) -> A),
    map (fun m => f m (components (record_of hp' m))) ms
    = map (fun m => f m (components (record_of hp m))) ms).
  { intros A f. apply map_ext. intros m. rewrite Hc. reflexivity. }
  cbv beta.
  rewrite (Heq _ (fun m cs => Many (map _ cs))). reflexivity.
Qed.


(** The leave guards are reversed slot by slot: the guard of the slot
    ["b"] comes first, then the two guards of the slot ["a"] in their own
    order. *)
Lemma leave_guards_by_slot :
  extractLeaveGuards heap_two_slots [50]
  = Some [Some (BoundRouteGuard (guard_calling 33 VUndefined) 6);
          Some (BoundRouteGuard (guard_calling 31 VUndefined) 5);
          Some (BoundRouteGuard (guard_calling 32 VUndefined) 5)].
Proof. vm_compute. reflexivity. Qed.

(** What is left of the first queue, then the enter guards and the global
    before-resolve hooks, run in order when every step approves. *)
Lemma pipeline_approved (route current_ : Route)
    (onComplete : Route -> History -> History)
    (onAbort : option (JsValue -> History -> History))
    (activated_ : list RecordRef) (rest enter : list (option Hook))
    (h : History) :
  let second := enter ++ global_hooks (resolveHooks (router h)) in
  pending h = Some route →
  extractEnterGuards (heap h) activated_ = Some enter →
  all_approve route current_ (heap h) (rest ++ second) →
  ∃ h',
    runQueue rest (iterator route current_ onAbort)
      (enterPhase route current_ activated_ onComplete onAbort) h
    = Ok (let h3 := onComplete route (set_pending None h') in
          if app (router h3) then emit (ENextTick route) h3 else h3)
    ∧ trace h'
      = trace h ++ map (fun hook => EHook hook route current_)
                       (hooks rest ++ hooks second)
    ∧ current h' = current h ∧ pending h' = Some route.
Proof.
  intros second Hp Henter Hall.
  apply Forall_app in Hall as [Hrest Hsecond].
  set (h1 := after_passes route current_ (hooks rest) h).
  set (h2 := after_passes route current_ (hooks second) h1).
  destruct (after_passes_frame route current_ (hooks rest) h)
    as (Ht1 & Hp1 & Hc1 & Hr1 & _ & Hcomp1 & _).
  destruct (after_passes_frame route current_ (hooks second) h1)
    as (Ht2 & Hp2 & Hc2 & Hr2 & _ & Hcomp2 & _).
  cbv zeta in *. fold h1 in Ht1, Hp1, Hc1, Hr1, Hcomp1.
  fold h2 in Ht2, Hp2, Hc2, Hr2, Hcomp2.
  assert (Hfin : finish route current_ onComplete onAbort h2
    = Ok (let h3 := onComplete route (set_pending None h2) in
          if app (router h3) then emit (ENextTick route) h3 else h3)).
  { unfold finish. rewrite pending_differs_same; [reflexivity|].
    rewrite Hp2, Hp1. exact Hp. }
  assert (Hent : enterPhase route current_ activated_ onComplete onAbort h1
    = finish route current_ onComplete onAbort h2).
  { unfold enterPhase.
    rewrite (extractEnterGuards_components (heap h)) by exact Hcomp1.
    rewrite Henter, Hr1.
    apply (runQueue_approved _ _ _ (heap h)).
    - rewrite Hp1. exact Hp.
    - exact Hcomp1.
    - exact Hsecond.
    - fold h2. rewrite Hfin. eexists; reflexivity. }
  exists h2. split; [|split; [|split]].
  - rewrite (runQueue_approved _ _ _ (heap h)).
    + fold h1. rewrite Hent. exact Hfin.
    + exact Hp.
    + intros m; reflexivity.
    + exact Hrest.
    + fold h1. rewrite Hent, Hfin. eexists; reflexivity.
  - rewrite Ht2, Ht1. rewrite map_app, app_assoc. reflexivity.
  - rewrite Hc2, Hc1. reflexivity.
  - rewrite Hp2, Hp1. exact Hp.
Qed.






(** ** Resolution of the async views *)

(** One factory: the step waits; the factory rejects, and the step fails
    with an [Error] made from the reason; the same factory then resolves,
    and the step calls [next] a second time, with no argument: a resolution
    that comes after the failure is not ignored. *)
Lemma C7_counterexample :
  (let started := resolveAsyncComponents [41] (sample_route 9 "/lazy" [41])
                    START probe lazy_single in
   let settled := settle_all probe
                    [Rejects (0, "default") (VString "boom");
                     Resolves (0, "default") 41 (deferred 1)
                              (PlainDef plain_component)]
                    started.1 (state_of started.2) in
   trace (state_of started.2) = []
   ∧ trace settled.2
     = [EWarnAsync "default" (VString "boom");
        ECall 99 [AValue (VError (AsyncComponentError "default"
                                    (VString "boom")))];
        ECall 99 [AValue VUndefined]])
  ∧ ¬ (∀ (slot : nat * string) (m : RecordRef) (def : Factory)
         (d : ResolvedDef) (st : StepState) (h : History),
         is_Some (error st) →
         trace (state_of (resolve slot m def probe d st h).2) = trace h).
Proof.
  split; [vm_compute; auto|].
  intros H.
  specialize (H (0, "default") 41 (deferred 1) (PlainDef plain_component)
                {| hasAsync := true; pendingCount := 1;
                   error := Some (VError (UserError 0));
                   resolveCalled := ∅; rejectCalled := {[(0, "default")]} |}
                lazy_single (ex_intro _ _ eq_refl)).
  vm_compute in H. discriminate H.
Qed.

Lemma resolve_first (slot : nat * string) (m : RecordRef) (def : Factory)
    (next : JsValue -> Cont) (d : ResolvedDef) (st : StepState) (h : History) :
  slot ∉ resolveCalled st →
  resolve slot m def next d st h
  = let c := unwrap_module d in
    let h' := assign_component m slot.2 (Resolved c)
                (set_factory_resolved
                   (<[factory_ref def := as_constructor c]>
                      (factory_resolved h)) h) in
    (set_pendingCount (pendingCount st - 1)%Z (mark_resolve slot st),
     if (pendingCount st - 1 <=? 0)%Z then next VUndefined h' else Ok h').
Proof.
  intros Hs. unfold resolve, once. rewrite bool_decide_eq_false_2 by exact Hs.
  unfold resolve_body. simpl. destruct (_ <=? _)%Z; reflexivity.
Qed.

Lemma resolve_again (slot : nat * string) (m : RecordRef) (def : Factory)
    (next : JsValue -> Cont) (d : ResolvedDef) (st : StepState) (h : History) :
  slot ∈ resolveCalled st → resolve slot m def next d st h = (st, Ok h).
Proof.
  intros Hs. unfold resolve, once. rewrite bool_decide_eq_true_2 by exact Hs.
  reflexivity.
Qed.

Lemma reject_again (slot : nat * string) (next : JsValue -> Cont)
    (reason : JsValue) (st : StepState) (h : History) :
  slot ∈ rejectCalled st → reject slot next reason st h = (st, Ok h).
Proof.
  intros Hs. unfold reject, once. rewrite bool_decide_eq_true_2 by exact Hs.
  reflexivity.
Qed.

Lemma reject_first (slot : nat * string) (next : JsValue -> Cont)
    (reason : JsValue) (st : StepState) (h : History) :
  slot ∉ rejectCalled st →
  reject slot next reason st h
  = let h' := if production h then h
              else emits [EWarnAsync slot.2 reason] h in
    match error st with
    | Some _ => (mark_reject slot st, Ok h')
    | None =>
        let err := match reason with
                   | VError _ => reason
                   | _ => VError (AsyncComponentError slot.2 reason)
                   end in
        (set_error err (mark_reject slot st), next err h')
    end.
Proof.
  intros Hs. unfold reject, once. rewrite bool_decide_eq_false_2 by exact Hs.
  unfold reject_body. simpl.
  destruct (error st); [reflexivity|].
  destruct reason; reflexivity.
Qed.

(** After a failure, while the failed factory does not resolve, the counter
    stays above zero and [next] is not consulted. *)
Lemma settle_all_quiet (slots : gset (nat * string)) (failed : nat * string)
    (next next' : JsValue -> Cont) (evs : list Settlement) (st : StepState)
    (h : History) :
  counts slots st → is_Some (error st) →
  failed ∈ slots → failed ∉ resolveCalled st →
  spare slots failed evs →
  settle_all next evs st h = settle_all next' evs st h.
Proof.
  revert st h. induction evs as [|ev evs IH];
    intros st h Hcount Herr Hin Hnot Hspare; [reflexivity|].
  apply Forall_cons in Hspare as [Hev Hspare]. simpl.
  destruct ev as [slot m def d|slot reason]; simpl.
  - destruct Hev as [Hslot Hne].
    destruct (decide (slot ∈ resolveCalled st)) as [Hcalled|Hfresh].
    + rewrite !resolve_again by exact Hcalled. simpl. apply IH; auto.
    + destruct Hcount as [Hsub Hpending].
      assert (Hsize : size ({[slot]} ∪ resolveCalled st)
                      = S (size (resolveCalled st))).
      { rewrite size_union by (apply disjoint_singleton_l, Hfresh).
        rewrite size_singleton. lia. }
      assert (Hbound : size ({[slot]} ∪ resolveCalled st) < size slots).
      { assert (Hle : size ({[slot]} ∪ resolveCalled st)
                      ≤ size (slots ∖ {[failed]})).
        { apply subseteq_size. intros x Hx.
          apply elem_of_difference. rewrite elem_of_singleton.
          apply elem_of_union in Hx as [Hx|Hx].
          - apply elem_of_singleton in Hx as ->. auto.
          - split; [apply Hsub, Hx|]. intros ->. contradiction. }
        assert (Hdiff : size (slots ∖ {[failed]}) < size slots).
        { rewrite size_difference by (apply singleton_subseteq_l, Hin).
          rewrite size_singleton.
          assert (size slots ≠ 0); [|lia].
          intros Hz. apply size_empty_inv in Hz.
          apply (not_elem_of_empty (C:=gset (nat * string)) failed).
          rewrite <- Hz. exact Hin. }
        lia. }
      rewrite !resolve_first by exact Hfresh. cbv zeta.
      destruct (Z.leb_spec (pendingCount st - 1) 0) as [Hle|Hgt]; [lia|].
      simpl. apply IH; auto.
      * split; simpl.
        -- apply union_least; [apply singleton_subseteq_l, Hslot|exact Hsub].
        -- rewrite Hsize. lia.
      * simpl. rewrite elem_of_union, elem_of_singleton.
        intros [Heq|Hx]; [congruence|contradiction].
  - destruct (decide (slot ∈ rejectCalled st)) as [Hcalled|Hfresh].
    + rewrite !reject_again by exact Hcalled. simpl. apply IH; auto.
    + rewrite !reject_first by exact Hfresh. cbv zeta.
      destruct Herr as [e He]. rewrite He. simpl.
      apply IH; try assumption.
      simpl. rewrite He. eexists; reflexivity.
Qed.

(** C7 (amended): the resolution step over records without an async
    factory calls [next()] before it returns.  The first call of the
    [resolve] of a slot stores the definition, decrements the counter and
    calls [next()] when the counter is then at most zero; the first
    rejection calls [next] with the reason, or with an [Error] made from it
    when it is not one.  After a failure a rejection only warns; a
    resolution is still stored and counted, and as long as the factory that
    failed does not also resolve, [next] is never called again.  Every
    further call of the same [resolve] or [reject] does nothing. *)
Theorem C7_async_resolution (ms : list RecordRef) (to from : Route)
    (next : JsValue -> Cont) (slot : nat * string) (m : RecordRef)
    (def : Factory) (d : ResolvedDef) (reason : JsValue) (st : StepState)
    (h : History) :
  (no_async (heap h) ms = true →
   resolveAsyncComponents ms to from next h = (initialStep, next VUndefined h))
  ∧ (slot ∉ resolveCalled st →
     let c := unwrap_module d in
     let h' := assign_component m slot.2 (Resolved c)
                 (set_factory_resolved
                    (<[factory_ref def := as_constructor c]>
                       (factory_resolved h)) h) in
     resolve slot m def next d st h
     = (set_pendingCount (pendingCount st - 1)%Z (mark_resolve slot st),
        if (pendingCount st - 1 <=? 0)%Z then next VUndefined h' else Ok h'))
  ∧ (slot ∉ rejectCalled st →
     let h' := if production h then h
               else emits [EWarnAsync slot.2 reason] h in
     reject slot next reason st h
     = match error st with
       | Some _ => (mark_reject slot st, Ok h')
       | None =>
           let err := match reason with
                      | VError _ => reason
                      | _ => VError (AsyncComponentError slot.2 reason)
                      end in
           (set_error err (mark_reject slot st), next err h')
       end)
  ∧ (slot ∈ resolveCalled st → resolve slot m def next d st h = (st, Ok h))
  ∧ (slot ∈ rejectCalled st → reject slot next reason st h = (st, Ok h))
  ∧ (∀ slots failed evs next',
       counts slots st → is_Some (error st) →
       failed ∈ slots → failed ∉ resolveCalled st →
       spare slots failed evs →
       settle_all next evs st h = settle_all next' evs st h).
Proof.
  split; [apply resolveAsyncComponents_no_async|].
  split; [apply resolve_first|].
  split; [apply reject_first|].
  split; [apply resolve_again|].
  split; [apply reject_again|].
  intros slots failed evs next'. apply settle_all_quiet.
Qed.

(** Two factories: the first rejects and the step fails; the second then
    resolves and is rejected, and whatever [next] is, it is not called. *)
Lemma C7_witness :
  let started := resolveAsyncComponents [40] (sample_route 9 "/lazy" [40])
                   START probe lazy_engine in
  let failed := reject (0, "default") probe (VString "boom")
                  started.1 (state_of started.2) in
  trace (state_of failed.2)
  = [EWarnAsync "default" (VString "boom");
     ECall 99 [AValue (VError (AsyncComponentError "default"
                                 (VString "boom")))]]
  ∧ ∀ next',
      settle_all probe
        [Resolves (0, "side") 40 (deferred 2) (PlainDef plain_component);
         Rejects (0, "side") (VString "late")]
        failed.1 (state_of failed.2)
      = settle_all next'
          [Resolves (0, "side") 40 (deferred 2) (PlainDef plain_component);
           Rejects (0, "side") (VString "late")]
          failed.1 (state_of failed.2).
Proof.
  cbv zeta. split; [vm_compute; reflexivity|].
  intros next'.
  set (started := resolveAsyncComponents [40] (sample_route 9 "/lazy" [40])
                    START probe lazy_engine).
  set (failed := reject (0, "default") probe (VString "boom")
                   started.1 (state_of started.2)).
  assert (Hst : failed.1
    = {| hasAsync := true; pendingCount := 2;
         error := Some (VError (AsyncComponentError "default"
                                  (VString "boom")));
         resolveCalled := ∅; rejectCalled := {[(0, "default")]} |})
    by (vm_compute; reflexivity).
  destruct (C7_async_resolution [] START START probe (0, "side") 40
              (deferred 2) (PlainDef plain_component) VUndefined
              failed.1 (state_of failed.2))
    as (_ & _ & _ & _ & _ & Hquiet).
  apply (Hquiet {[(0, "default"); (0, "side")]} (0, "default")).
  - rewrite Hst. split; simpl; [apply empty_subseteq|].
    vm_compute. reflexivity.
  - rewrite Hst. simpl. eexists; reflexivity.
  - apply elem_of_union_l, elem_of_singleton. reflexivity.
  - rewrite Hst. simpl. apply not_elem_of_empty.
  - constructor; [|constructor; [exact I|constructor]].
    split; [apply elem_of_union_r, elem_of_singleton; reflexivity|].
    discriminate.
Defined.

(** * Further properties of the engine *)

(** ** More on the transition diff *)

Lemma scan_sym (A B : list RecordRef) (steps i : nat) :
  scan A B i steps = scan B A i steps.
Proof.
  revert i. induction steps as [|k IH]; intros i; simpl; [reflexivity|].
  destruct (decide (A !! i = B !! i)) as [Heq|Hne],
           (decide (B !! i = A !! i)) as [Heq'|Hne'];
    first [apply IH|congruence].
Qed.

Lemma scan_from_zero (A B : list RecordRef) :
  let i := scan A B 0 (Nat.max (length A) (length B)) in
  (∀ j, j < i → A !! j = B !! j)
  ∧ (A !! i ≠ B !! i ∨ (i = length A ∧ i = length B)).
Proof.
  pose proof (scan_spec A B (Nat.max (length A) (length B)) 0)
    as ((_ & Hhi) & Hpre & Hdiv).
  cbv zeta. set (i := scan A B 0 _) in *.
  assert (Hagree : ∀ j, j < i → A !! j = B !! j)
    by (intros j Hj; apply Hpre; lia).
  split; [exact Hagree|].
  destruct (decide (i < Nat.max (length A) (length B))) as [Hlt|Hge].
  - left. apply Hdiv. lia.
  - right. assert (A = B) as ->
      by (apply agree_below_max; intros j Hj; apply Hagree; lia).
    lia.
Qed.

(** X1: the diff of two chains taken the other way round has the same
    updated records, and what was activated is deactivated and conversely. *)
Theorem resolveQueue_swap (A B : list RecordRef) :
  updated (resolveQueue B A) = updated (resolveQueue A B)
  ∧ activated (resolveQueue B A) = deactivated (resolveQueue A B)
  ∧ deactivated (resolveQueue B A) = activated (resolveQueue A B).
Proof.
  unfold resolveQueue. simpl.
  rewrite (Nat.max_comm (length B) (length A)), (scan_sym B A).
  destruct (scan_from_zero A B) as [Hagree _]. cbv zeta in Hagree.
  split; [|split; reflexivity].
  apply take_agree, Hagree.
Qed.

(** X2: the updated records are the longest common prefix of the two
    chains: a prefix of both, and every common prefix is a prefix of it.
    Past it the chains differ at once: unless both are exhausted, the first
    deactivated record is not the first activated one. *)
Theorem resolveQueue_longest_common_prefix (A B : list RecordRef) :
  let q := resolveQueue A B in
  updated q `prefix_of` A
  ∧ updated q `prefix_of` B
  ∧ (∀ p, p `prefix_of` A → p `prefix_of` B → p `prefix_of` updated q)
  ∧ ((activated q = [] ∧ deactivated q = [])
     ∨ head (deactivated q) ≠ head (activated q)).
Proof.
  cbv zeta. unfold resolveQueue. simpl.
  destruct (scan_from_zero A B) as [Hagree Hdiv]. cbv zeta in *.
  set (i := scan A B 0 _) in *.
  split; [|split; [|split]].
  - rewrite <- (take_agree A B i Hagree). apply prefix_take.
  - apply prefix_take.
  - intros p [ka ->] [kb HB].
    assert (Hlen : length p ≤ i).
    { destruct (decide (length p ≤ i)) as [|Hgt]; [assumption|exfalso].
      assert (Hi : i < length p) by lia.
      destruct Hdiv as [Hne|[Hla _]].
      - apply Hne. rewrite HB, !lookup_app_l by exact Hi. reflexivity.
      - rewrite length_app in Hla. lia. }
    rewrite HB. exists (take (i - length p) kb).
    rewrite take_app_ge by exact Hlen. reflexivity.
  - destruct Hdiv as [Hne|[Hla Hlb]].
    + right. rewrite !head_lookup, !lookup_drop, !Nat.add_0_r. exact Hne.
    + left. rewrite !drop_ge by lia. auto.
Qed.

(** ** The base path *)

Lemma strip_trailing_slash_leading (s : string) :
  lacks_leading_slash s = false →
  strip_trailing_slash s = ""
  ∨ lacks_leading_slash (strip_trailing_slash s) = false.
Proof.
  destruct s as [|c [|d s]]; simpl; try discriminate.
  - destruct (Ascii.eqb c "/"); auto.
  - auto.
Qed.

Lemma leading_slash_added (s : string) :
  lacks_leading_slash
    (if lacks_leading_slash s then "/" +:+ s else s) = false.
Proof. destruct (lacks_leading_slash s) eqn:H; [reflexivity|exact H]. Qed.

(** X3: the base path [normalizeBase] returns is empty or starts with a
    slash, whatever it is given and whatever the page holds. *)
Theorem normalizeBase_shape (inBrowser : bool) (baseHref base : option string) :
  normalizeBase inBrowser baseHref base = ""
  ∨ lacks_leading_slash (normalizeBase inBrowser baseHref base) = false.
Proof.
  unfold normalizeBase. cbv zeta.
  apply strip_trailing_slash_leading, leading_slash_added.
Qed.

Lemma strip_trailing_slash_ends (s : string) :
  ends_with_two_slashes s = false →
  ends_with_slash (strip_trailing_slash s) = false.
Proof.
  induction s as [|c s IH]; [reflexivity|].
  destruct s as [|d s].
  - intros _. simpl. destruct (Ascii.eqb c "/") eqn:Hc; simpl;
      [reflexivity|exact Hc].
  - intros H. change (ends_with_two_slashes (String c (String d s)))
      with ((Ascii.eqb c "/" && match s with
                                | EmptyString => Ascii.eqb d "/"
                                | String _ _ => false
                                end)
            || ends_with_two_slashes (String d s)) in H.
    apply orb_false_iff in H as [Hcd Hrest].
    specialize (IH Hrest).
    change (strip_trailing_slash (String c (String d s)))
      with (String c (strip_trailing_slash (String d s))).
    destruct (strip_trailing_slash (String d s)) as [|e t] eqn:Hs.
    + simpl. destruct s as [|e s]; simpl in Hs.
      * destruct (Ascii.eqb d "/") eqn:Hd; [|discriminate].
        rewrite andb_true_r in Hcd. exact Hcd.
      * discriminate.
    + exact IH.
Qed.

Lemma strip_trailing_slash_id (s : string) :
  ends_with_slash s = false → strip_trailing_slash s = s.
Proof.
  induction s as [|c s IH]; [reflexivity|].
  destruct s as [|d s].
  - simpl. intros ->. reflexivity.
  - intros H. change (strip_trailing_slash (String c (String d s)))
      with (String c (strip_trailing_slash (String d s))).
    rewrite IH; [reflexivity|exact H].
Qed.

Lemma two_slashes_after_slash (s : string) :
  lacks_leading_slash s = true →
  ends_with_two_slashes s = false →
  ends_with_two_slashes ("/" +:+ s) = false.
Proof.
  intros Hl Hs. destruct s as [|c s]; [reflexivity|].
  change (ends_with_two_slashes ("/" +:+ String c s))
    with ((Ascii.eqb "/" "/" && match s with
                                | EmptyString => Ascii.eqb c "/"
                                | String _ _ => false
                                end)
          || ends_with_two_slashes (String c s)).
  rewrite Hs, orb_false_r. simpl.
  destruct s; [|reflexivity].
  simpl in Hl. destruct (Ascii.eqb_spec c "/") as [->|Hne];
    [discriminate|reflexivity].
Qed.

(** X4: a base path that is given, and does not end with two slashes, is
    normalised to one without a trailing slash, which [normalizeBase] then
    leaves as it is: outside the browser always, and in the browser too
    unless it is empty (an empty base is read from the page again). *)
Theorem normalizeBase_fixed_point (inBrowser : bool)
    (baseHref : option string) (b : string) :
  b ≠ "" →
  ends_with_two_slashes b = false →
  let r := normalizeBase inBrowser baseHref (Some b) in
  ends_with_slash r = false
  ∧ normalizeBase false None (Some r) = r
  ∧ (r ≠ "" → ∀ ib hr, normalizeBase ib hr (Some r) = r).
Proof.
  intros Hb Htwo. cbv zeta.
  assert (Hends : ends_with_slash (normalizeBase inBrowser baseHref (Some b))
                  = false).
  { unfold normalizeBase. cbv zeta.
    destruct b as [|c b]; [contradiction|]. cbn [nonempty].
    apply strip_trailing_slash_ends.
    destruct (lacks_leading_slash (String c b)) eqn:Hl; [|exact Htwo].
    apply two_slashes_after_slash; assumption. }
  assert (Hfix : ∀ r ib hr,
    r ≠ "" → lacks_leading_slash r = false → ends_with_slash r = false →
    normalizeBase ib hr (Some r) = r).
  { intros r ib hr Hr Hl He. unfold normalizeBase. cbv zeta.
    destruct r as [|c r]; [contradiction|]. cbn [nonempty].
    rewrite Hl. apply strip_trailing_slash_id, He. }
  split; [exact Hends|].
  assert (Hshape : normalizeBase inBrowser baseHref (Some b) = ""
    ∨ lacks_leading_slash (normalizeBase inBrowser baseHref (Some b)) = false).
  { unfold normalizeBase. cbv zeta.
    apply strip_trailing_slash_leading, leading_slash_added. }
  destruct Hshape as [He|Hl].
  - rewrite He. split; [reflexivity|]. intros Hne. contradiction.
  - split; [|intros Hne ib hr]; apply Hfix; auto;
      intros He; rewrite He in Hl; discriminate.
Qed.

Lemma normalizeBase_fixed_point_witness :
  normalizeBase false None (Some (normalizeBase true None (Some "app/")))
  = normalizeBase true None (Some "app/")
  ∧ normalizeBase true None (Some "app/") = "/app".
Proof.
  split; [|reflexivity].
  destruct (normalizeBase_fixed_point true None "app/") as (_ & Hfix & _);
    [discriminate|reflexivity|exact Hfix].
Defined.

Lemma strip_prefix_app (p s : string) : strip_prefix p (p +:+ s) = Some s.
Proof.
  induction p as [|a p IH]; simpl; [destruct s; reflexivity|].
  rewrite Ascii.eqb_refl. exact IH.
Qed.

Lemma from_first_slash_app (host rest : string) :
  has_slash host = false →
  lacks_leading_slash rest = false ∨ rest = "" →
  from_first_slash (host +:+ rest) = rest.
Proof.
  intros Hh Hr. induction host as [|c host IH]; simpl.
  - destruct Hr as [Hl| ->]; [|reflexivity].
    destruct rest as [|d rest]; [reflexivity|]. simpl in *.
    destruct d as [[] [] [] [] [] [] [] []]; try discriminate. reflexivity.
  - simpl in Hh. apply orb_false_iff in Hh as [Hc Hhost].
    rewrite Hc. apply IH, Hhost.
Qed.

(** X5: in the browser, when no base is given, the [href] of the [<base>]
    element is used without its origin: for [http] and [https], a host that
    is not empty is dropped and the path that follows it is normalised. *)
Theorem normalizeBase_strips_origin (secure : bool) (host rest : string) :
  host ≠ "" →
  has_slash host = false →
  lacks_leading_slash rest = false ∨ rest = "" →
  let scheme := if secure then "https://" else "http://" in
  strip_origin (scheme +:+ host +:+ rest) = rest
  ∧ normalizeBase true (Some (scheme +:+ host +:+ rest)) None
    = strip_trailing_slash (if lacks_leading_slash rest then "/" else rest).
Proof.
  intros Hne Hh Hr. cbv zeta.
  assert (Hwith : ∀ scheme,
    strip_origin_with scheme (scheme +:+ host +:+ rest) = Some rest).
  { intros scheme. unfold strip_origin_with. rewrite strip_prefix_app.
    destruct host as [|c host]; [contradiction|].
    simpl in Hh. apply orb_false_iff in Hh as [Hc Hhost].
    change (String c host +:+ rest) with (String c (host +:+ rest)).
    cbv iota. rewrite Hc. f_equal. apply from_first_slash_app; assumption. }
  assert (Hstrip : strip_origin
            ((if secure then "https://" else "http://") +:+ host +:+ rest)
          = rest).
  { unfold strip_origin. destruct secure.
    - rewrite Hwith. reflexivity.
    - destruct (strip_origin_with "https://" _) eqn:Hs.
      + unfold strip_origin_with in Hs. simpl in Hs. discriminate.
      + rewrite Hwith. reflexivity. }
  split; [exact Hstrip|].
  unfold normalizeBase. cbv zeta.
  assert (Hnon : nonempty (Some ((if secure then "https://" else "http://")
                                 +:+ host +:+ rest))
                 = Some ((if secure then "https://" else "http://")
                         +:+ host +:+ rest))
    by (destruct secure; reflexivity).
  rewrite Hnon. cbn [nonempty default from_option id]. rewrite Hstrip.
  destruct Hr as [Hl| ->]; [rewrite Hl|]; reflexivity.
Qed.

Lemma normalizeBase_strips_origin_witness :
  normalizeBase true (Some "https://example.com/app/") None = "/app".
Proof.
  destruct (normalizeBase_strips_origin true "example.com" "/app/")
    as [_ Heq]; [discriminate|reflexivity|left; reflexivity|].
  exact Heq.
Defined.

(** ** The edges of a navigation *)

Lemma invoked_hooks (to from : Route) (hs : list Hook) :
  invoked (map (fun hook => EHook hook to from) hs) = hs.
Proof. induction hs as [|x hs IH]; simpl; [|rewrite IH]; reflexivity. Qed.

Lemma invoked_afterHooks (hooks : list (option FnRef)) (args : list Arg) :
  invoked (concat (map (fun hook => match hook with
                                    | Some f => [ECall f args]
                                    | None => []
                                    end) hooks)) = [].
Proof. induction hooks as [|[f|] hooks IH]; simpl; auto. Qed.

Lemma onTransitionComplete_frame (route prev : Route) (oc : option FnRef)
    (r : Route) (h : History) :
  let h' := onTransitionComplete route prev oc r h in
  current h' = route ∧ pending h' = pending h ∧ heap h' = heap h
  ∧ router h' = router h ∧ ready h' = true
  ∧ invoked (trace h') = invoked (trace h).
Proof.
  cbv zeta. split; [|split; [|split; [|split; [|split]]]];
    try apply ready_onTransitionComplete;
    unfold onTransitionComplete, updateRoute; cbv zeta;
    rewrite afterHooks_emits;
    match goal with |- context [if ready ?x then _ else _] =>
      destruct (ready x) end;
    rewrite ?forEach_call_emits;
    destruct (cb (set_current route h)), oc; simpl; try reflexivity;
    rewrite ?invoked_app, ?invoked_calls, ?invoked_afterHooks; simpl;
    rewrite ?app_nil_r; reflexivity.
Qed.

(** X6: when the matcher throws, every error callback of the engine is
    called with the thrown value, in the order of registration and whatever
    the value is, and the exception leaves [transitionTo]: neither
    [onComplete] nor [onAbort] is called, nothing is printed, and the
    current route, a navigation in flight and the readiness of the engine
    are left as they are. *)
Theorem transitionTo_match_throws (location : JsValue)
    (onComplete onAbort : option FnRef) (e : JsValue) (h : History) :
  router_match (router h) location (current h) = inr e →
  ∃ h',
    transitionTo location onComplete onAbort h = Throw h' e
    ∧ trace h' = trace h ++ map (fun f => ECall f [AValue e]) (errorCbs h)
    ∧ current h' = current h ∧ pending h' = pending h
    ∧ ready h' = ready h ∧ heap h' = heap h.
Proof.
  intros Hm. unfold transitionTo. rewrite Hm.
  eexists. split; [reflexivity|].
  rewrite forEach_call_emits. repeat split.
Qed.

Lemma transitionTo_match_throws_witness :
  ∃ h',
    transitionTo (VString "/a") (Some 1) (Some 2)
      (onError 8 (onError 7 (fresh (sample_failing_router VUndefined) ∅)))
    = Throw h' VUndefined
    ∧ trace h' = [ECall 7 [AValue VUndefined]; ECall 8 [AValue VUndefined]].
Proof.
  destruct (transitionTo_match_throws (VString "/a") (Some 1) (Some 2)
              VUndefined
              (onError 8 (onError 7 (fresh (sample_failing_router VUndefined)
                                           ∅))) eq_refl)
    as (h' & Heq & Ht & _).
  exists h'. split; [exact Heq|exact Ht].
Defined.

(** X7: [teardown] calls every clean-up function once, in the order of
    registration, empties the list, puts the engine back on [START] and
    forgets the navigation in flight.  A guard of a navigation that was in
    flight and calls [next] afterwards, with a value that is not a
    redirect, makes no hook run and leaves the engine on [START]; a second
    [teardown] calls nothing. *)
Theorem teardown_resets (h : History) :
  let h' := teardown h in
  trace h' = trace h ++ map (fun f => ECall f []) (listeners h)
  ∧ listeners h' = [] ∧ current h' = START ∧ pending h' = None
  ∧ ready h' = ready h
  ∧ trace (teardown h') = trace h'
  ∧ (∀ route prev oc oa act second rest v,
       redirects v = false →
       let h2 := state_of (guard_next route prev oc oa act second rest v h') in
       invoked (trace h2) = invoked (trace h') ∧ current h2 = START).
Proof.
  cbv zeta. unfold teardown. rewrite forEach_call_emits.
  split; [reflexivity|]. split; [reflexivity|]. split; [reflexivity|].
  split; [reflexivity|]. split; [reflexivity|].
  split; [reflexivity|].
  intros route prev oc oa act second rest v _.
  apply (superseded_next_invokes_nothing route prev oc oa act second rest v).
  reflexivity.
Qed.

Lemma invoked_emit_other (e : Effect) (h : History) :
  match e with EHook _ _ _ => False | _ => True end →
  invoked (trace (emit e h)) = invoked (trace h).
Proof.
  intros He. simpl. rewrite invoked_app.
  destruct e; try contradiction; simpl; apply app_nil_r.
Qed.

(** X8: a guard that calls [next] with [false], an [Error] or [null], the
    values that neither let the navigation proceed nor redirect it, ends
    the navigation there: no hook runs, the current route and the heap are
    left as they are, and [pending] still holds the route that was
    refused. *)
Theorem refused_navigation_keeps_route (route prev : Route)
    (oc oa : option FnRef) (act : list RecordRef) (second : bool)
    (rest : list (option Hook)) (v : JsValue) (h : History) :
  proceeds v = false → redirects v = false →
  let h' := state_of (guard_next route prev oc oa act second rest v h) in
  current h' = current h ∧ pending h' = pending h ∧ heap h' = heap h
  ∧ invoked (trace h') = invoked (trace h).
Proof.
  intros Hv _. cbv zeta. unfold guard_next. cbv zeta.
  set (k := runQueue _ _ _). clearbody k.
  assert (Hab : ∀ err h0,
    current h0 = current h → pending h0 = pending h → heap h0 = heap h →
    invoked (trace h0) = invoked (trace h) →
    let h1 := abort (Some (onTransitionAbort prev oa)) err h0 in
    current h1 = current h ∧ pending h1 = pending h ∧ heap h1 = heap h
    ∧ invoked (trace h1) = invoked (trace h)).
  { intros err h0 Hc Hp Hh Hi.
    destruct (abort_transition_frame prev oa err h0)
      as (Hc' & Hp' & Hh' & _ & Hi').
    cbv zeta in *. rewrite Hc', Hp', Hh', Hi'. auto. }
  assert (Hem : ∀ e h0,
    match e with EHook _ _ _ => False | _ => True end →
    current h0 = current h ∧ pending h0 = pending h ∧ heap h0 = heap h
    ∧ invoked (trace h0) = invoked (trace h) →
    current (emit e h0) = current h ∧ pending (emit e h0) = pending h
    ∧ heap (emit e h0) = heap h
    ∧ invoked (trace (emit e h0)) = invoked (trace h)).
  { intros e h0 He (Hc & Hp & Hh & Hi).
    rewrite (invoked_emit_other e h0 He). auto. }
  unfold hookCallback, push, replace, ensureURL.
  destruct v as [| |b|n|s|f|o|e]; simpl in Hv; try discriminate.
  - cbn [state_of isError]. auto.
  - destruct b; [discriminate|]. cbn [state_of isError].
    apply Hab; try reflexivity. apply invoked_emit_other. exact I.
  - cbn [state_of isError]. apply Hem; [exact I|]. apply Hab; reflexivity.
  - apply negb_false_iff in Hv. cbn [isError]. rewrite Hv. cbn [state_of].
    destruct (loc_replace o); (apply Hem; [exact I|]); apply Hab; reflexivity.
  - cbn [state_of isError]. apply Hab; try reflexivity.
    apply invoked_emit_other. exact I.
Qed.

Lemma refused_navigation_keeps_route_witness :
  let h := state_of (transitionTo (VString "/a") None None
                       (fresh sample_two_router ∅)) in
  let h' := state_of (guard_next route_a START None None [] false []
                        (VBool false) h) in
  current h' = START ∧ pending h' = Some route_a.
Proof.
  cbv zeta.
  destruct (refused_navigation_keeps_route route_a START None None [] false
              [] (VBool false)
              (state_of (transitionTo (VString "/a") None None
                           (fresh sample_two_router ∅))) eq_refl eq_refl)
    as (Hc & Hp & _).
  cbv zeta in *. rewrite Hc, Hp. split; reflexivity.
Defined.



Lemma extractGuards_is_Some (hp : gmap nat RouteRecord)
    (records : list RecordRef) (name_ : string)
    (bind : NavigationGuard -> option Instance -> RecordRef -> string ->
            option Hook)
    (reverse_ : bool) :
  is_Some (extractGuards hp records name_ bind reverse_)
  ↔ no_async hp records = true.
Proof.
  unfold extractGuards.
  match goal with |- is_Some (match mapM id ?g with _ => _ end) ↔ _ =>
    set (guards := g);
    transitivity (is_Some (mapM id guards));
    [destruct (mapM id guards); split; intros [x Hx]; try discriminate;
     eexists; reflexivity|]
  end.
  rewrite mapM_is_Some. subst guards.
  unfold flatMapComponents, flatten, no_async.
  induction records as [|m records IH]; simpl.
  - split; [reflexivity|constructor].
  - rewrite Forall_app, andb_true_iff, IH.
    apply and_iff_compat_r.
    induction (components (record_of hp m)) as [|[key def] cs IHc]; simpl.
    + split; [reflexivity|constructor].
    + rewrite Forall_cons, andb_true_iff, IHc.
      apply and_iff_compat_r.
      destruct def as [c|f]; simpl.
      * split; [reflexivity|intros _].
        destruct (comp_options c !! name_) as [[g|gs]|]; eexists; reflexivity.
      * split; [intros [x Hx]; discriminate|discriminate].
Qed.





Lemma pending_confirmTransition (route prev : Route) (oc oa : option FnRef)
    (h : History) :
  let h' := state_of (confirmTransition route
                        (onTransitionComplete route prev oc)
                        (Some (onTransitionAbort prev oa)) h) in
  pending h' = Some route ∨ pending h' = None.
Proof.
  cbv zeta.
  set (P := fun h0 : History => pending h0 = Some route ∨ pending h0 = None).
  assert (Pemit : ∀ e h0, P h0 → P (emit e h0)) by (intros e h0 H; exact H).
  assert (Pheap : ∀ m h0, P h0 → P (set_heap m h0))
    by (intros m h0 H; exact H).
  assert (Pres : ∀ m h0, P h0 → P (set_factory_resolved m h0))
    by (intros m h0 H; exact H).
  assert (Pabort : ∀ f e h0,
            Some (onTransitionAbort prev oa) = Some f → P h0 → P (f e h0)).
  { intros f e h0 [= <-] Hh0. unfold P.
    destruct (onTransitionAbort_frame prev oa e h0) as (_ & Hp & _).
    cbv zeta in Hp. rewrite Hp. exact Hh0. }
  assert (Pfinish : ∀ current_,
            keeps P (finish route current_ (onTransitionComplete route prev oc)
                            (Some (onTransitionAbort prev oa)))).
  { intros current_ h0 Hh0. unfold finish.
    destruct (pending_differs h0 route); cbn [state_of].
    - apply (keeps_abort P Pemit); [exact Pabort|exact Hh0].
    - destruct (onTransitionComplete_frame route prev oc route
                  (set_pending None h0)) as (_ & Hp & _).
      cbv zeta in Hp.
      destruct (app _); right; exact Hp. }
  assert (Penter : ∀ current_ act,
            keeps P (enterPhase route current_ act
                       (onTransitionComplete route prev oc)
                       (Some (onTransitionAbort prev oa)))).
  { intros current_ act h0 Hh0. unfold enterPhase.
    destruct (extractEnterGuards _ _); [|exact Hh0].
    exact (keeps_runQueue P Pemit Pheap Pres route _ Pabort current_ _ _
             (Pfinish current_) h0 Hh0). }
  assert (H1 : P (set_pending (Some route) h)) by (left; reflexivity).
  change (P (state_of (confirmTransition route
                         (onTransitionComplete route prev oc)
                         (Some (onTransitionAbort prev oa)) h))).
  unfold confirmTransition. cbv zeta.
  destruct (_ && _); cbn [state_of].
  - apply (keeps_abort P Pemit); [exact Pabort|exact H1].
  - destruct (extractLeaveGuards _ _); [|exact H1].
    destruct (extractUpdateHooks _ _); [|exact H1].
    exact (keeps_runQueue P Pemit Pheap Pres route _ Pabort _ _ _
             (Penter _ _) _ H1).
Qed.

(** X10: a navigation that gets past the matcher and is not redirected (no
    [push] or [replace] is issued while [transitionTo] runs) takes the place
    of every navigation in flight, whatever becomes of it (refused, waiting
    in a guard, completed, or failed in the extraction of the guards): when
    [transitionTo] is left, [pending] is the new route or nothing, so a
    guard of an older navigation to another route that then calls [next],
    with a value that is not a redirect, makes no hook run and does not
    replace the current route. *)
Theorem new_navigation_supersedes (location : JsValue)
    (onComplete onAbort : option FnRef) (route : Route) (h : History) :
  router_match (router h) location (current h) = inl route →
  let h' := state_of (transitionTo location onComplete onAbort h) in
  pushes (trace h') = pushes (trace h) →
  (pending h' = Some route ∨ pending h' = None)
  ∧ (∀ other prev oc oa act second rest v,
       route_ref other ≠ route_ref route →
       redirects v = false →
       let h2 := state_of (guard_next other prev oc oa act second rest v h') in
       invoked (trace h2) = invoked (trace h') ∧ current h2 = current h').
Proof.
  intros Hm. cbv zeta. unfold transitionTo. rewrite Hm. intros _.
  pose proof (pending_confirmTransition route (current h) onComplete onAbort h)
    as Hp.
  cbv zeta in Hp. split; [exact Hp|].
  intros other prev oc oa act second rest v Hne _.
  apply superseded_next_invokes_nothing.
  unfold pending_differs. destruct Hp as [-> | ->]; [|reflexivity].
  unfold same_route_object. rewrite bool_decide_eq_false_2; [reflexivity|].
  intros Heq. apply Hne. symmetry. exact Heq.
Qed.

(** A navigation to "/a" waits in the global hook; the navigation to "/b"
    that follows completes, and the hook's later [next()] runs nothing. *)
Lemma new_navigation_supersedes_witness :
  let h := state_of (transitionTo (VString "/a") None None
                       (fresh sample_two_router ∅)) in
  let h' := state_of (transitionTo (VString "/b") None None h) in
  let h2 := state_of (guard_next route_a START None None [] false
                        [Some (ResolveAsync [])] VUndefined h') in
  pending h = Some route_a
  ∧ invoked (trace h2) = invoked (trace h') ∧ current h2 = route_b.
Proof.
  cbv zeta.
  destruct (new_navigation_supersedes (VString "/b") None None route_b
              (state_of (transitionTo (VString "/a") None None
                           (fresh sample_two_router ∅))) eq_refl)
    as [_ Hlater].
  { vm_compute. reflexivity. }
  cbv zeta in Hlater.
  destruct (Hlater route_a START None None [] false
              [Some (ResolveAsync [])] VUndefined) as [Hi Hc].
  { discriminate. }
  { reflexivity. }
  split; [reflexivity|]. split; [exact Hi|]. rewrite Hc. reflexivity.
Defined.

(** X11: a navigation all of whose steps approve at once is committed before
    [transitionTo] returns: the hooks of the two queues have run in order,
    the current route is the new one, no navigation is pending and the
    engine is ready.  A guard of that navigation that calls [next] again
    afterwards, with a value that is not a redirect, makes no hook run and
    leaves the current route in place.  (A redirect value would reach the
    backend's [push] or [replace], which starts a navigation of its own.) *)
Theorem approved_navigation_commits (location : JsValue)
    (onComplete onAbort : option FnRef) (route : Route) (h : History)
    (leave update enter : list (option Hook)) :
  let q := resolveQueue (matched (current h)) (matched route) in
  let first :=
    leave ++ global_hooks (beforeHooks (router h)) ++ update
    ++ map (fun m => option_map Guard (beforeEnter (record_of (heap h) m)))
           (activated q)
    ++ [Some (ResolveAsync (activated q))] in
  let second := enter ++ global_hooks (resolveHooks (router h)) in
  router_match (router h) location (current h) = inl route →
  extractLeaveGuards (heap h) (deactivated q) = Some leave →
  extractUpdateHooks (heap h) (updated q) = Some update →
  extractEnterGuards (heap h) (activated q) = Some enter →
  all_approve route (current h) (heap h) (first ++ second) →
  ∃ h',
    transitionTo location onComplete onAbort h = Ok h'
    ∧ current h' = route ∧ pending h' = None ∧ ready h' = true
    ∧ invoked (trace h')
      = invoked (trace h) ++ hooks first ++ hooks second
    ∧ (∀ prev oc oa act snd rest v,
         redirects v = false →
         let h2 := state_of (guard_next route prev oc oa act snd rest v h') in
         invoked (trace h2) = invoked (trace h') ∧ current h2 = route).
Proof.
  intros q first second Hm Hleave Hupdate Henter Hall.
  unfold transitionTo. rewrite Hm.
  set (oc := onTransitionComplete route (current h) onComplete).
  set (oa := Some (onTransitionAbort (current h) onAbort)).
  assert (Hrun : confirmTransition route oc oa h
    = runQueue first (iterator route (current h) oa)
        (enterPhase route (current h) (activated q) oc oa)
        (set_pending (Some route) h)).
  { rewrite confirmTransition_runs. cbv zeta.
    fold q. rewrite Hleave, Hupdate. reflexivity. }
  destruct (pipeline_approved route (current h) oc oa (activated q) first
              enter (set_pending (Some route) h) eq_refl Henter Hall)
    as (h1 & Heq & Ht & _ & _).
  rewrite Hrun, Heq. eexists. split; [reflexivity|].
  destruct (onTransitionComplete_frame route (current h) onComplete route
              (set_pending None h1)) as (Hc & Hp & _ & _ & Hr & Hi).
  cbv zeta in Hc, Hp, Hr, Hi. fold oc in Hc, Hp, Hr, Hi.
  assert (Hinv : invoked (trace (oc route (set_pending None h1)))
                 = invoked (trace h) ++ hooks first ++ hooks second).
  { rewrite Hi. change (trace (set_pending None h1)) with (trace h1).
    rewrite Ht. change (trace (set_pending (Some route) h)) with (trace h).
    rewrite invoked_app, invoked_hooks. reflexivity. }
  assert (Hlater : ∀ h2 : History,
    current h2 = route → pending h2 = None →
    ∀ prev oc' oa' act snd rest v,
      redirects v = false →
      let h3 := state_of (guard_next route prev oc' oa' act snd rest v h2) in
      invoked (trace h3) = invoked (trace h2) ∧ current h3 = route).
  { intros h2 Hc2 Hp2 prev oc' oa' act snd rest v _. cbv zeta.
    rewrite <- Hc2 at 3. apply superseded_next_invokes_nothing.
    unfold pending_differs. rewrite Hp2. reflexivity. }
  cbv zeta. destruct (app _).
  - split; [exact Hc|]. split; [exact Hp|]. split; [exact Hr|].
    split; [rewrite invoked_emit_other by exact I; exact Hinv|].
    apply Hlater; [exact Hc|exact Hp].
  - split; [exact Hc|]. split; [exact Hp|]. split; [exact Hr|].
    split; [exact Hinv|]. apply Hlater; [exact Hc|exact Hp].
Qed.

(** From [Root, Child] to [Root, Child2], with guards that all call
    [next()]. *)
Lemma approved_navigation_commits_witness :
  ∃ h',
    transitionTo (VString "/root/child2") None None at_child = Ok h'
    ∧ current h' = route_child2 ∧ pending h' = None ∧ ready h' = true
    ∧ invoked (trace h')
      = [BoundRouteGuard (guard_calling 22 VUndefined) 5;
         Guard (guard_calling 25 VUndefined);
         BoundRouteGuard (guard_calling 21 VUndefined) 5;
         Guard (guard_calling 24 VUndefined);
         ResolveAsync [3];
         RouteEnterGuard (guard_calling 23 VUndefined) 3 "default";
         Guard (guard_calling 26 VUndefined)].
Proof.
  destruct (approved_navigation_commits (VString "/root/child2") None None
              route_child2 at_child
              [Some (BoundRouteGuard (guard_calling 22 VUndefined) 5)]
              [Some (BoundRouteGuard (guard_calling 21 VUndefined) 5)]
              [Some (RouteEnterGuard (guard_calling 23 VUndefined)
                                     3 "default")])
    as (h' & Heq & Hc & Hp & Hr & Hi & _).
  - reflexivity.
  - vm_compute. reflexivity.
  - vm_compute. reflexivity.
  - vm_compute. reflexivity.
  - repeat constructor;
      try (eexists; split; reflexivity);
      vm_compute; reflexivity.
  - exists h'. split; [exact Heq|]. split; [exact Hc|]. split; [exact Hp|].
    split; [exact Hr|]. rewrite Hi. vm_compute. reflexivity.
Defined.

(** ** The guards of the views *)

Lemma mapM_id_In_inv {A : Type} (l : list (option A)) (k : list A) (y : A) :
  mapM id l = Some k → In (Some y) l → In y k.
Proof.
  rewrite mapM_Some. induction 1 as [|x y' l k Hxy _ IH]; simpl.
  - intros [].
  - intros [->|Hin]; [left|right; auto].
    simpl in Hxy. injection Hxy as ->. reflexivity.
Qed.

Lemma extractGuards_elem (hp : gmap nat RouteRecord)
    (records : list RecordRef) (name_ : string)
    (bind : NavigationGuard -> option Instance -> RecordRef -> string ->
            option Hook)
    (reverse_ : bool) (gs : list (option Hook)) (hook : Hook) :
  extractGuards hp records name_ bind reverse_ = Some gs →
  (In (Some hook) gs ↔
   ∃ m key c guard,
     In m records
     ∧ In (key, Resolved c) (components (record_of hp m))
     ∧ In guard (guards_of (comp_options c !! name_))
     ∧ bind guard (instances (record_of hp m) !! key) m key = Some hook).
Proof.
  unfold extractGuards, flatMapComponents, flatten.
  destruct (mapM id _) as [items|] eqn:Hitems; [|discriminate].
  intros [= <-].
  assert (Hrev : ∀ item,
            In item (if reverse_ then reverse items else items)
            ↔ In item items).
  { intros item. destruct reverse_; [|reflexivity].
    rewrite <- !list_elem_of_In. apply elem_of_reverse. }
  split.
  - intros Hin.
    apply in_concat in Hin as (l & Hl & Hin).
    apply in_map_iff in Hl as (item & <- & Hitem).
    apply Hrev in Hitem.
    apply (mapM_id_In _ _ _ Hitems) in Hitem.
    apply in_concat in Hitem as (per & Hper & Hsome).
    apply in_map_iff in Hper as (it & <- & Hit).
    apply in_map_iff in Hit as (m & <- & Hm).
    apply in_map_iff in Hsome as ((key & def) & Hfn & Hkb).
    simpl in Hfn. destruct def as [c|f]; simpl in Hfn; [|discriminate].
    exists m, key, c.
    destruct (comp_options c !! name_) as [[g|gl]|];
      injection Hfn as <-; simpl in Hin.
    + destruct Hin as [Hin|[]]. exists g. simpl. auto.
    + apply in_map_iff in Hin as (g & Hg & Hgl). exists g. auto.
    + destruct Hin as [Hin|[]]. discriminate.
  - intros (m & key & c & guard & Hm & Hkb & Hg & Hbind).
    assert (Hitem : ∃ item,
              In item items
              ∧ In (Some hook)
                   match item with One a => [a] | Many l => l end).
    { destruct (comp_options c !! name_) as [[g|gl]|] eqn:Hopt;
        simpl in Hg; [destruct Hg as [->|[]]| |contradiction].
      - exists (One (bind guard (instances (record_of hp m) !! key) m key)).
        split; [|left; exact Hbind].
        apply (mapM_id_In_inv _ _ _ Hitems).
        apply in_concat. eexists. split.
        + apply in_map_iff. eexists. split; [reflexivity|].
          apply in_map_iff. exists m. split; [reflexivity|exact Hm].
        + simpl. apply in_map_iff. exists (key, Resolved c).
          split; [|exact Hkb]. simpl. rewrite Hopt. reflexivity.
      - exists (Many (map (fun g => bind g (instances (record_of hp m) !! key)
                                         m key) gl)).
        split; [|apply in_map_iff; exists guard; auto].
        apply (mapM_id_In_inv _ _ _ Hitems).
        apply in_concat. eexists. split.
        + apply in_map_iff. eexists. split; [reflexivity|].
          apply in_map_iff. exists m. split; [reflexivity|exact Hm].
        + simpl. apply in_map_iff. exists (key, Resolved c).
          split; [|exact Hkb]. simpl. rewrite Hopt. reflexivity. }
    destruct Hitem as (item & Hitem & Hin).
    apply in_concat. eexists. split; [|exact Hin].
    apply in_map_iff. exists item. split; [reflexivity|].
    apply Hrev, Hitem.
Qed.

(** X12: the leave guards and the update guards that are extracted from
    records are exactly the guards of the views that are mounted: every
    guard of the option of a view slot that has an instance registered is
    there, bound to that instance, and there is nothing else; the guards of
    a view slot without a registered instance are left out. *)
Theorem bound_guards_are_the_mounted_ones (hp : gmap nat RouteRecord)
    (records : list RecordRef) (name_ : string) (reverse_ : bool)
    (gs : list (option Hook)) (hook : Hook) :
  extractGuards hp records name_ bindGuard reverse_ = Some gs →
  (In (Some hook) gs ↔
   ∃ m key c guard i,
     In m records
     ∧ In (key, Resolved c) (components (record_of hp m))
     ∧ In guard (guards_of (comp_options c !! name_))
     ∧ instances (record_of hp m) !! key = Some i
     ∧ hook = BoundRouteGuard guard i).
Proof.
  intros Hgs. rewrite (extractGuards_elem _ _ _ _ _ _ hook Hgs).
  split.
  - intros (m & key & c & guard & Hm & Hkb & Hg & Hbind).
    unfold bindGuard in Hbind.
    destruct (instances (record_of hp m) !! key) as [i|] eqn:Hi;
      [|discriminate].
    injection Hbind as <-. exists m, key, c, guard, i. auto.
  - intros (m & key & c & guard & i & Hm & Hkb & Hg & Hi & ->).
    exists m, key, c, guard. unfold bindGuard. rewrite Hi. auto.
Qed.

(** The record 50 has the slots ["a"] and ["b"], mounted as the instances
    5 and 6: the leave guard 33 of ["b"] is extracted, bound to 6. *)
Lemma bound_guards_are_the_mounted_ones_witness :
  In (Some (BoundRouteGuard (guard_calling 33 VUndefined) 6))
     [Some (BoundRouteGuard (guard_calling 33 VUndefined) 6);
      Some (BoundRouteGuard (guard_calling 31 VUndefined) 5);
      Some (BoundRouteGuard (guard_calling 32 VUndefined) 5)]
  ↔ ∃ m key c guard i,
      In m [50]
      ∧ In (key, Resolved c) (components (record_of heap_two_slots m))
      ∧ In guard (guards_of (comp_options c !! "beforeRouteLeave"))
      ∧ instances (record_of heap_two_slots m) !! key = Some i
      ∧ BoundRouteGuard (guard_calling 33 VUndefined) 6
        = BoundRouteGuard guard i.
Proof.
  apply (bound_guards_are_the_mounted_ones heap_two_slots [50]
           "beforeRouteLeave" true).
  vm_compute. reflexivity.
Defined.

(** ** What a resolution stores *)

Lemma lookup_assign_binding (key : string) (b : ViewBinding)
    (l : list (string * ViewBinding)) :
  lookup_binding key (assign_binding key b l) = Some b.
Proof.
  induction l as [|[k b'] l IH]; simpl.
  - destruct (decide (key = key)); [reflexivity|contradiction].
  - destruct (decide (k = key)) as [->|Hne]; simpl.
    + destruct (decide (key = key)); [reflexivity|contradiction].
    + destruct (decide (k = key)); [contradiction|exact IH].
Qed.

Lemma lookup_assign_binding_ne (key key' : string) (b : ViewBinding)
    (l : list (string * ViewBinding)) :
  key' ≠ key →
  lookup_binding key' (assign_binding key b l) = lookup_binding key' l.
Proof.
  intros Hne. induction l as [|[k b'] l IH]; simpl.
  - destruct (decide (key = key')); [congruence|reflexivity].
  - destruct (decide (k = key)) as [->|Hk]; simpl.
    + destruct (decide (key = key')); [congruence|reflexivity].
    + destruct (decide (k = key')); [reflexivity|exact IH].
Qed.

Lemma keys_assign_binding (key : string) (b : ViewBinding)
    (l : list (string * ViewBinding)) :
  In key (map fst l) → map fst (assign_binding key b l) = map fst l.
Proof.
  induction l as [|[k b'] l IH]; simpl; [intros []|].
  destruct (decide (k = key)) as [->|Hk]; simpl; [reflexivity|].
  intros [Heq|Hin]; [contradiction|]. rewrite IH by exact Hin. reflexivity.
Qed.

Lemma record_assign_component (m : RecordRef) (key : string)
    (b : ViewBinding) (h : History) :
  record_of (heap (assign_component m key b h)) m
  = {| components := assign_binding key b (components (record_of (heap h) m));
       instances := instances (record_of (heap h) m);
       enteredCbs := enteredCbs (record_of (heap h) m);
       beforeEnter := beforeEnter (record_of (heap h) m) |}.
Proof.
  unfold assign_component, record_of at 1. cbn [heap set_heap].
  rewrite lookup_insert_eq. reflexivity.
Qed.

(** X13: the first call of the [resolve] of a view slot stores what it is
    given: reading the slot of the record then gives the resolved
    definition (the [default] of a module), the constructor is kept on the
    factory, and nothing else is touched: the other slots of the record,
    its instances, its queued callbacks and its [beforeEnter], the other
    records, and the order of the keys when the slot was there.  Nothing is
    called before [next]. *)
Theorem resolve_stores_component (slot : nat * string) (m : RecordRef)
    (def : Factory) (next : JsValue -> Cont) (d : ResolvedDef)
    (st : StepState) (h : History) :
  slot ∉ resolveCalled st →
  ∃ h',
    (resolve slot m def next d st h).2
    = (if (pendingCount st - 1 <=? 0)%Z then next VUndefined h' else Ok h')
    ∧ lookup_binding slot.2 (components (record_of (heap h') m))
      = Some (Resolved (unwrap_module d))
    ∧ (∀ key, key ≠ slot.2 →
         lookup_binding key (components (record_of (heap h') m))
         = lookup_binding key (components (record_of (heap h) m)))
    ∧ (In slot.2 (map fst (components (record_of (heap h) m))) →
       map fst (components (record_of (heap h') m))
       = map fst (components (record_of (heap h) m)))
    ∧ instances (record_of (heap h') m) = instances (record_of (heap h) m)
    ∧ enteredCbs (record_of (heap h') m) = enteredCbs (record_of (heap h) m)
    ∧ beforeEnter (record_of (heap h') m) = beforeEnter (record_of (heap h) m)
    ∧ (∀ m', m' ≠ m → heap h' !! m' = heap h !! m')
    ∧ factory_resolved h' !! factory_ref def
      = Some (as_constructor (unwrap_module d))
    ∧ trace h' = trace h.
Proof.
  intros Hslot. rewrite (resolve_first slot m def next d st h Hslot).
  cbv zeta. eexists. split; [reflexivity|].
  rewrite record_assign_component.
  cbn [components instances enteredCbs beforeEnter].
  change (heap (set_factory_resolved _ h)) with (heap h).
  split; [apply lookup_assign_binding|].
  split; [intros key Hne; apply lookup_assign_binding_ne, Hne|].
  split; [intros Hin; apply keys_assign_binding, Hin|].
  split; [reflexivity|]. split; [reflexivity|]. split; [reflexivity|].
  split.
  { intros m' Hne. unfold assign_component. cbn [heap set_heap].
    apply lookup_insert_ne. congruence. }
  split; [apply lookup_insert_eq|reflexivity].
Qed.

(** The factory of the slot ["default"] of the record 41 resolves with a
    module. *)
Lemma resolve_stores_component_witness :
  ∃ h',
    (resolve (0, "default") 41 (deferred 1) probe (ESModule plain_component)
             (begin_async initialStep) lazy_single).2
    = probe VUndefined h'
    ∧ lookup_binding "default" (components (record_of (heap h') 41))
      = Some (Resolved plain_component).
Proof.
  destruct (resolve_stores_component (0, "default") 41 (deferred 1) probe
              (ESModule plain_component) (begin_async initialStep)
              lazy_single) as (h' & Heq & Hlook & _).
  - simpl. apply not_elem_of_empty.
  - exists h'. split; [exact Heq|exact Hlook].
Defined.

(** ** Counting the factories *)

Lemma lookup_binding_NoDup (l : list (string * ViewBinding)) (k : string)
    (b : ViewBinding) :
  NoDup (map fst l) → In (k, b) l → lookup_binding k l = Some b.
Proof.
  induction l as [|[k' b'] l IH]; simpl; [intros _ []|].
  intros Hnd Hin. apply NoDup_cons in Hnd as [Hk' Hnd].
  destruct Hin as [[= -> ->]|Hin].
  - destruct (decide (k = k)); [reflexivity|contradiction].
  - destruct (decide (k' = k)) as [->|Hne]; [|apply IH; assumption].
    exfalso. apply Hk'. apply list_elem_of_In.
    apply in_map_iff. exists (k, b). auto.
Qed.

Lemma begun_succ (n : nat) (st : StepState) :
  begun n (begin_async st) = begun (S n) st.
Proof.
  unfold begun. induction n as [|n IH]; simpl; [reflexivity|].
  simpl in IH. rewrite IH. reflexivity.
Qed.

Lemma begun_add (a b : nat) (st : StepState) :
  begun b (begun a st) = begun (a + b) st.
Proof.
  unfold begun. induction b as [|b IH]; simpl.
  - rewrite Nat.add_0_r. reflexivity.
  - rewrite Nat.add_succ_r. simpl. rewrite IH. reflexivity.
Qed.

Lemma begun_initial (n : nat) :
  hasAsync (begun n initialStep) = negb (bool_decide (n = 0))
  ∧ pendingCount (begun n initialStep) = Z.of_nat n
  ∧ error (begun n initialStep) = None
  ∧ resolveCalled (begun n initialStep) = ∅
  ∧ rejectCalled (begun n initialStep) = ∅.
Proof.
  induction n as [|n (Ha & Hp & He & Hr & Hj)].
  - repeat split.
  - change (begun (S n) initialStep)
      with (begin_async (begun n initialStep)).
    unfold begin_async. cbn [hasAsync pendingCount error resolveCalled
                             rejectCalled].
    rewrite Hp, He, Hr, Hj. repeat split. lia.
Qed.

Lemma visitKeys_deferred (idx : nat) (m : RecordRef)
    (next : JsValue -> Cont) (h : History)
    (cs : list (string * ViewBinding)) (st : StepState) :
  (∀ k b, In (k, b) cs →
          lookup_binding k (components (record_of (heap h) m)) = Some b) →
  (∀ k f, In (k, AsyncFactory f) cs →
          factory_actions f = [] ∧ factory_throws f = None) →
  visitKeys idx m (map fst cs) next st h
  = (begun (length (async_slots_of idx cs)) st, Ok h).
Proof.
  revert st. induction cs as [|[k b] cs IH]; intros st Hlook Hdef; simpl;
    [reflexivity|].
  unfold visitComponent. rewrite (Hlook k b) by (left; reflexivity).
  assert (Hrest : ∀ st',
    visitKeys idx m (map fst cs) next st' h
    = (begun (length (async_slots_of idx cs)) st', Ok h)).
  { intros st'. apply IH.
    - intros k' b' Hin. apply Hlook. right. exact Hin.
    - intros k' f Hin. apply (Hdef k'). right. exact Hin. }
  destruct b as [c|f]; simpl.
  - apply Hrest.
  - destruct (Hdef k f) as [Hacts Hthrows]; [left; reflexivity|].
    unfold callFactory. rewrite Hacts, Hthrows. simpl.
    rewrite Hrest. unfold async_slots_of at 2. simpl.
    fold (async_slots_of idx cs). rewrite begun_succ. reflexivity.
Qed.

Lemma visitRecords_deferred (ms : list RecordRef) (next : JsValue -> Cont)
    (h : History) (idx : nat) (st : StepState) :
  well_keyed (heap h) ms → all_deferred (heap h) ms →
  visitRecords idx ms next st h
  = (begun (length (async_slots (heap h) idx ms)) st, Ok h).
Proof.
  revert idx st. induction ms as [|m ms IH]; intros idx st Hkeys Hdef; simpl;
    [reflexivity|].
  rewrite (visitKeys_deferred idx m next h).
  - simpl. rewrite IH.
    + rewrite begun_add, length_app. reflexivity.
    + intros m' Hm'. apply Hkeys. right. exact Hm'.
    + intros m' key f Hm'. apply (Hdef m' key). right. exact Hm'.
  - intros k b Hin. apply lookup_binding_NoDup; [|exact Hin].
    apply Hkeys. left. reflexivity.
  - intros k f Hin. apply (Hdef m k f); [left; reflexivity|exact Hin].
Qed.

Lemma async_slots_of_elem (idx i : nat) (k : string)
    (cs : list (string * ViewBinding)) :
  (i, k) ∈ async_slots_of idx cs → i = idx ∧ k ∈ map fst cs.
Proof.
  unfold async_slots_of. rewrite list_elem_of_omap.
  intros ([k' b] & Hin & Hsome). simpl in Hsome.
  destruct b; [discriminate|]. injection Hsome as <- <-.
  split; [reflexivity|].
  apply list_elem_of_In, in_map_iff. exists (k', AsyncFactory f).
  split; [reflexivity|]. apply list_elem_of_In, Hin.
Qed.

Lemma async_slots_of_NoDup (idx : nat) (cs : list (string * ViewBinding)) :
  NoDup (map fst cs) → NoDup (async_slots_of idx cs).
Proof.
  induction cs as [|[k b] cs IH]; simpl; [intros _; constructor|].
  intros Hnd. apply NoDup_cons in Hnd as [Hk Hnd].
  destruct b as [c|f]; unfold async_slots_of; simpl;
    fold (async_slots_of idx cs); [apply IH, Hnd|].
  apply NoDup_cons. split; [|apply IH, Hnd].
  intros Hin. apply async_slots_of_elem in Hin as [_ Hin]. contradiction.
Qed.

Lemma async_slots_idx (hp : gmap nat RouteRecord) (ms : list RecordRef)
    (idx i : nat) (k : string) :
  (i, k) ∈ async_slots hp idx ms → idx ≤ i.
Proof.
  revert idx. induction ms as [|m ms IH]; intros idx; simpl.
  - intros Hin. apply elem_of_nil in Hin. contradiction.
  - rewrite elem_of_app. intros [Hin|Hin].
    + apply async_slots_of_elem in Hin as [-> _]. lia.
    + apply IH in Hin. lia.
Qed.

Lemma async_slots_NoDup (hp : gmap nat RouteRecord) (ms : list RecordRef)
    (idx : nat) :
  well_keyed hp ms → NoDup (async_slots hp idx ms).
Proof.
  revert idx. induction ms as [|m ms IH]; intros idx Hkeys; simpl;
    [constructor|].
  apply NoDup_app. split; [|split].
  - apply async_slots_of_NoDup, Hkeys. left. reflexivity.
  - intros [i k] Hin Hin'.
    apply async_slots_of_elem in Hin as [-> _].
    apply async_slots_idx in Hin'. lia.
  - apply IH. intros m' Hm'. apply Hkeys. right. exact Hm'.
Qed.

(** X14: when the keys of the records are distinct and every factory of
    the records returns without having settled, the resolution step calls
    each of them once, changes nothing and calls [next] only if there was no
    factory at all.  It leaves a counter that is the number of view slots
    bound to a factory, with no slot resolved and no error: the counter
    counts the factories that have not resolved. *)
Theorem deferred_factories_are_counted (ms : list RecordRef)
    (to from : Route) (next : JsValue -> Cont) (h : History) :
  well_keyed (heap h) ms →
  all_deferred (heap h) ms →
  let slots := async_slots (heap h) 0 ms in
  let out := resolveAsyncComponents ms to from next h in
  out.2 = (if bool_decide (length slots = 0) then next VUndefined h else Ok h)
  ∧ pendingCount out.1 = Z.of_nat (length slots)
  ∧ error out.1 = None ∧ resolveCalled out.1 = ∅ ∧ rejectCalled out.1 = ∅
  ∧ counts (list_to_set slots) out.1.
Proof.
  intros Hkeys Hdef. cbv zeta. unfold resolveAsyncComponents.
  rewrite (visitRecords_deferred ms next h 0 initialStep Hkeys Hdef).
  cbn [fst snd].
  destruct (begun_initial (length (async_slots (heap h) 0 ms)))
    as (Ha & Hp & He & Hr & Hj).
  rewrite Ha.
  assert (Hcounts : counts (list_to_set (async_slots (heap h) 0 ms))
                      (begun (length (async_slots (heap h) 0 ms))
                             initialStep)).
  { unfold counts. rewrite Hr, Hp. split; [apply empty_subseteq|].
    rewrite size_empty, size_list_to_set
      by (apply async_slots_NoDup, Hkeys). lia. }
  destruct (bool_decide (length (async_slots (heap h) 0 ms) = 0));
    cbn [negb fst snd]; auto 10.
Qed.

(** The record 40 has two slots, both bound to a factory that defers. *)
Lemma deferred_factories_are_counted_witness :
  let out := resolveAsyncComponents [40] (sample_route 9 "/lazy" [40]) START
               probe lazy_engine in
  out.2 = Ok lazy_engine ∧ pendingCount out.1 = 2%Z
  ∧ counts {[(0, "default"); (0, "side")]} out.1.
Proof.
  destruct (deferred_factories_are_counted [40] (sample_route 9 "/lazy" [40])
              START probe lazy_engine) as (Hres & Hp & _ & _ & _ & Hc).
  - intros m [<-|[]]. apply (bool_decide_unpack _). vm_compute. exact I.
  - intros m key f [<-|[]] Hin. vm_compute in Hin.
    destruct Hin as [[= <- <-]|[[= <- <-]|[]]]; split; reflexivity.
  - cbv zeta. split; [exact Hres|]. split; [exact Hp|].
    exact Hc.
Defined.

(** X15: while the counter of the step counts the factories that have not
    resolved, the first resolution of a view slot calls [next], with no
    argument, exactly when it is the last one outstanding, that is when
    every slot has then resolved; before that it only stores the component.
    The counter goes on counting. *)
Theorem last_resolution_calls_next (slots : gset (nat * string))
    (slot : nat * string) (m : RecordRef) (def : Factory)
    (next : JsValue -> Cont) (d : ResolvedDef) (st : StepState)
    (h : History) :
  counts slots st →
  slot ∈ slots →
  slot ∉ resolveCalled st →
  let out := resolve slot m def next d st h in
  resolveCalled out.1 = {[slot]} ∪ resolveCalled st
  ∧ counts slots out.1
  ∧ ∃ h',
      trace h' = trace h
      ∧ out.2 = (if bool_decide (resolveCalled out.1 = slots)
                 then next VUndefined h' else Ok h').
Proof.
  intros [Hsub Hcount] Hin Hnew. cbv zeta.
  rewrite (resolve_first slot m def next d st h Hnew). cbv zeta.
  cbn [fst snd resolveCalled set_pendingCount mark_resolve].
  assert (Hsub' : {[slot]} ∪ resolveCalled st ⊆ slots).
  { apply union_least; [apply singleton_subseteq_l, Hin|exact Hsub]. }
  assert (Hsize : size ({[slot]} ∪ resolveCalled st)
                  = S (size (resolveCalled st))).
  { rewrite size_union by (apply disjoint_singleton_l, Hnew).
    rewrite size_singleton. reflexivity. }
  split; [reflexivity|]. split.
  - split; [exact Hsub'|].
    cbn [pendingCount resolveCalled set_pendingCount mark_resolve].
    rewrite Hsize, Hcount. lia.
  - exists (assign_component m slot.2 (Resolved (unwrap_module d))
              (set_factory_resolved
                 (<[factory_ref def := as_constructor (unwrap_module d)]>
                    (factory_resolved h)) h)).
    split.
    + reflexivity.
    + pose proof (subseteq_size _ _ Hsub') as Hle.
      destruct (bool_decide ({[slot]} ∪ resolveCalled st = slots)) eqn:Hall.
      * apply bool_decide_eq_true in Hall.
        assert (Hz : (pendingCount st - 1 <=? 0)%Z = true)
          by (apply Z.leb_le; rewrite Hcount, <- Hall, Hsize; lia).
        rewrite Hz. reflexivity.
      * apply bool_decide_eq_false in Hall.
        assert (Hz : (pendingCount st - 1 <=? 0)%Z = false).
        { apply Z.leb_gt. rewrite Hcount.
          destruct (decide (size slots ≤ S (size (resolveCalled st))))
            as [Hfull|Hmore]; [|lia].
          exfalso. apply Hall.
          apply set_subseteq_size_eq; [exact Hsub'|]. rewrite Hsize.
          exact Hfull. }
        rewrite Hz. reflexivity.
Qed.

(** The record 40 has two factories: the resolution of the first slot
    only stores the component, the resolution of the second calls
    [next]. *)
Lemma last_resolution_calls_next_witness :
  let slots : gset (nat * string) := {[(0, "default"); (0, "side")]} in
  let st := begun 2 initialStep in
  let first := resolve (0, "default") 40 (deferred 1) probe
                 (PlainDef plain_component) st lazy_engine in
  let second := resolve (0, "side") 40 (deferred 2) probe
                  (PlainDef plain_component) first.1 (state_of first.2) in
  trace (state_of first.2) = []
  ∧ trace (state_of second.2) = [ECall 99 [AValue VUndefined]].
Proof.
  cbv zeta.
  destruct (last_resolution_calls_next {[(0, "default"); (0, "side")]}
              (0, "default") 40 (deferred 1) probe (PlainDef plain_component)
              (begun 2 initialStep) lazy_engine)
    as (Hrc & Hcounts & h1 & Ht1 & Heq1).
  { split; [apply empty_subseteq|]. vm_compute. reflexivity. }
  { apply elem_of_union_l, elem_of_singleton. reflexivity. }
  { apply not_elem_of_empty. }
  cbv zeta in *.
  destruct (last_resolution_calls_next {[(0, "default"); (0, "side")]}
              (0, "side") 40 (deferred 2) probe (PlainDef plain_component)
              (resolve (0, "default") 40 (deferred 1) probe
                 (PlainDef plain_component) (begun 2 initialStep)
                 lazy_engine).1
              (state_of (resolve (0, "default") 40 (deferred 1) probe
                 (PlainDef plain_component) (begun 2 initialStep)
                 lazy_engine).2))
    as (_ & _ & h2 & Ht2 & Heq2).
  { exact Hcounts. }
  { apply elem_of_union_r, elem_of_singleton. reflexivity. }
  { rewrite Hrc. vm_compute. intros Hin. discriminate Hin. }
  split; vm_compute; reflexivity.
Defined.

(** ** Registration of the global hooks *)

Lemma indexOf_absent {A : Type} (key : A -> nat) (fn : A)
    (l : list (option A)) :
  (∀ g, In (Some g) l → key g ≠ key fn) → indexOf key fn l = (-1)%Z.
Proof.
  induction l as [|[g|] l IH]; simpl; intros Habs; [reflexivity| |].
  - rewrite bool_decide_eq_false_2 by (apply Habs; left; reflexivity).
    rewrite IH by (intros g' Hg'; apply Habs; right; exact Hg').
    reflexivity.
  - rewrite IH by (intros g' Hg'; apply Habs; right; exact Hg').
    reflexivity.
Qed.

Lemma indexOf_first {A : Type} (key : A -> nat) (fn g : A)
    (pre post : list (option A)) :
  (∀ g', In (Some g') pre → key g' ≠ key fn) →
  key g = key fn →
  indexOf key fn (pre ++ Some g :: post) = Z.of_nat (length pre).
Proof.
  intros Habs Hg. induction pre as [|x pre IH]; simpl.
  - rewrite bool_decide_eq_true_2 by exact Hg. reflexivity.
  - assert (Hx : match x with
                 | Some g' => bool_decide (key g' = key fn)
                 | None => false
                 end = false).
    { destruct x as [g'|]; [|reflexivity].
      apply bool_decide_eq_false_2, Habs. left. reflexivity. }
    rewrite Hx, IH by (intros g' Hg'; apply Habs; right; exact Hg').
    destruct (Z.of_nat (length pre) <? 0)%Z eqn:Hneg;
      [apply Z.ltb_lt in Hneg; lia|lia].
Qed.

Lemma indexOf_range {A : Type} (key : A -> nat) (fn : A)
    (l : list (option A)) :
  (-1 ≤ indexOf key fn l < Z.of_nat (length l))%Z.
Proof.
  induction l as [|x l IH]; simpl; [lia|].
  destruct (match x with Some g => _ | None => _ end); [lia|].
  destruct (indexOf key fn l <? 0)%Z eqn:Hneg; [lia|].
  apply Z.ltb_ge in Hneg. lia.
Qed.

(** X16: [registerHook] appends the function to the array, and the
    function it returns removes one entry, the first one that is that
    function, from the array as it then is: hooks registered before and
    after keep their places, a second registration of the same function
    stays, and when the function is not there any more the array is left
    as it is, so that calling it again does nothing.  The size of the array
    goes down by one at most. *)
Theorem registerHook_removes_first {A : Type} (key : A -> nat)
    (list_ : list (option A)) (fn : A) :
  let reg := registerHook key list_ fn in
  reg.1 = list_ ++ [Some fn]
  ∧ (∀ pre g post,
       (∀ g', In (Some g') pre → key g' ≠ key fn) → key g = key fn →
       reg.2 (pre ++ Some g :: post) = pre ++ post)
  ∧ (∀ now, (∀ g, In (Some g) now → key g ≠ key fn) → reg.2 now = now)
  ∧ (∀ now, length now - 1 ≤ length (reg.2 now) ≤ length now).
Proof.
  cbv zeta. unfold registerHook. cbn [fst snd].
  split; [reflexivity|]. split; [|split].
  - intros pre g post Habs Hg.
    rewrite (indexOf_first key fn g pre post Habs Hg).
    assert (Hpos : (Z.of_nat (length pre) >? -1)%Z = true)
      by (apply Z.gtb_lt; lia).
    rewrite Hpos, Nat2Z.id. unfold splice1.
    rewrite take_app_length, drop_app_ge by lia.
    replace (S (length pre) - length pre) with 1 by lia. reflexivity.
  - intros now Habs. rewrite (indexOf_absent key fn now Habs). reflexivity.
  - intros now. pose proof (indexOf_range key fn now) as Hr.
    destruct (indexOf key fn now >? -1)%Z eqn:Hpos; [|lia].
    apply Z.gtb_lt in Hpos. unfold splice1.
    rewrite length_app, length_take, length_drop. lia.
Qed.

(** ** The instances of the views *)

Lemma record_assign_instance (m : RecordRef) (name_ : string)
    (val : option Instance) (h : History) :
  record_of (heap (assign_instance m name_ val h)) m
  = {| components := components (record_of (heap h) m);
       instances := match val with
                    | Some v => <[name_ := v]> (instances (record_of (heap h) m))
                    | None => delete name_ (instances (record_of (heap h) m))
                    end;
       enteredCbs := enteredCbs (record_of (heap h) m);
       beforeEnter := beforeEnter (record_of (heap h) m) |}.
Proof.
  unfold assign_instance, record_of at 1. cbn [heap set_heap].
  rewrite lookup_insert_eq. reflexivity.
Qed.

Lemma instance_assigned (m : RecordRef) (name_ : string)
    (val : option Instance) (h : History) :
  instances (record_of (heap (assign_instance m name_ val h)) m) !! name_
  = val.
Proof.
  rewrite record_assign_instance. cbn [instances].
  destruct val; [apply lookup_insert_eq|apply lookup_delete_eq].
Qed.

Lemma registerRouteInstance_slot (m : RecordRef) (name_ : string)
    (vm : Instance) (val : option Instance) (h : History) :
  instances (record_of (heap (registerRouteInstance m name_ vm val h)) m)
    !! name_
  = let current_ := instances (record_of (heap h) m) !! name_ in
    match val with
    | Some v => if bool_decide (current_ = Some vm) then current_ else Some v
    | None => if bool_decide (current_ = Some vm) then None else current_
    end.
Proof.
  unfold registerRouteInstance. cbv zeta.
  destruct val as [v|].
  - rewrite bool_decide_eq_true_2 by (eexists; reflexivity).
    destruct (bool_decide _); cbn [orb andb negb];
      [reflexivity|apply instance_assigned].
  - rewrite (bool_decide_eq_false_2 (is_Some None))
      by (intros [x Hx]; discriminate).
    destruct (bool_decide _); cbn [orb andb negb];
      [apply instance_assigned|reflexivity].
Qed.

Lemma registerRouteInstance_frame (m : RecordRef) (name_ : string)
    (vm : Instance) (val : option Instance) (h : History) :
  let h' := registerRouteInstance m name_ vm val h in
  (∀ m', components (record_of (heap h') m')
         = components (record_of (heap h) m'))
  ∧ (∀ m', m' ≠ m → heap h' !! m' = heap h !! m')
  ∧ (∀ key, key ≠ name_ →
       instances (record_of (heap h') m) !! key
       = instances (record_of (heap h) m) !! key)
  ∧ trace h' = trace h ∧ current h' = current h ∧ pending h' = pending h.
Proof.
  cbv zeta. unfold registerRouteInstance. cbv zeta.
  destruct (_ || _); [|repeat split].
  split; [|split; [|split; [|repeat split]]].
  - intros m'. destruct (decide (m' = m)) as [->|Hne].
    + rewrite record_assign_instance. reflexivity.
    + unfold assign_instance, record_of. cbn [heap set_heap].
      rewrite lookup_insert_ne by congruence. reflexivity.
  - intros m' Hne. unfold assign_instance. cbn [heap set_heap].
    apply lookup_insert_ne. congruence.
  - intros key Hne. rewrite record_assign_instance. cbn [instances].
    destruct val; [apply lookup_insert_ne|apply lookup_delete_ne]; congruence.
Qed.

Lemma assign_instance_components (m : RecordRef) (name_ : string)
    (val : option Instance) (h : History) (m' : RecordRef) :
  components (record_of (heap (assign_instance m name_ val h)) m')
  = components (record_of (heap h) m').
Proof.
  destruct (decide (m' = m)) as [->|Hne].
  - rewrite record_assign_instance. reflexivity.
  - unfold assign_instance, record_of. cbn [heap set_heap].
    rewrite lookup_insert_ne by congruence. reflexivity.
Qed.

Lemma assign_instance_other (m : RecordRef) (name_ : string)
    (val : option Instance) (h : History) (s : RecordRef * string) :
  (m, name_) ≠ s →
  view_instance (assign_instance m name_ val h) s = view_instance h s.
Proof.
  destruct s as [m' n']. intros Hne. unfold view_instance. cbn [fst snd].
  destruct (decide (m' = m)) as [->|Hm].
  - rewrite record_assign_instance. cbn [instances].
    destruct val; [apply lookup_insert_ne|apply lookup_delete_ne]; congruence.
  - unfold assign_instance, record_of. cbn [heap set_heap].
    rewrite lookup_insert_ne by congruence. reflexivity.
Qed.

Lemma assign_instance_same (m : RecordRef) (name_ : string)
    (val : option Instance) (h : History) :
  view_instance (assign_instance m name_ val h) (m, name_) = val.
Proof. apply instance_assigned. Qed.

Lemma registerRouteInstance_other (m : RecordRef) (name_ : string)
    (vm : Instance) (val : option Instance) (h : History)
    (s : RecordRef * string) :
  (m, name_) ≠ s →
  view_instance (registerRouteInstance m name_ vm val h) s
  = view_instance h s.
Proof.
  intros Hne. unfold registerRouteInstance. cbv zeta.
  destruct (_ || _); [apply assign_instance_other, Hne|reflexivity].
Qed.

Lemma view_events_app (hre : Route -> History -> History)
    (evs evs' : list ViewEvent) (h : History) :
  view_events hre (evs ++ evs') h = view_events hre evs' (view_events hre evs h).
Proof. unfold view_events. apply fold_left_app. Qed.

Lemma view_event_components (hre : Route -> History -> History)
    (ev : ViewEvent) (h : History) (m : RecordRef) :
  keeps_views hre →
  components (record_of (heap (view_event hre ev h)) m)
  = components (record_of (heap h) m).
Proof.
  intros Hhre. destruct ev as [vm [[m' n']|]|vm [[m' n']|]|m' n' ci|m' n' r ka ci];
    cbn [view_event registerInstance closure option_map fst snd];
    try reflexivity.
  - apply (registerRouteInstance_frame m' n' vm _ h).
  - apply (registerRouteInstance_frame m' n' vm _ h).
  - apply assign_instance_components.
  - unfold init. cbv zeta. rewrite (proj2 (Hhre _ _ _)).
    destruct (_ && _); [apply assign_instance_components|reflexivity].
Qed.

Lemma view_events_components (hre : Route -> History -> History)
    (evs : list ViewEvent) (h : History) (m : RecordRef) :
  keeps_views hre →
  components (record_of (heap (view_events hre evs h)) m)
  = components (record_of (heap h) m).
Proof.
  intros Hhre. revert h. induction evs as [|ev evs IH]; intros h;
    [reflexivity|].
  change (view_events hre (ev :: evs) h)
    with (view_events hre evs (view_event hre ev h)).
  rewrite IH. apply view_event_components, Hhre.
Qed.

Lemma handleRouteEntered_slot (hre : Route -> History -> History)
    (route : Route) (h : History) (s : RecordRef * string) :
  keeps_views hre →
  view_instance (hre route h) s = view_instance h s.
Proof.
  intros Hhre. unfold view_instance. rewrite (proj1 (Hhre _ _ _)).
  reflexivity.
Qed.

(** One event that leaves the slot alone. *)
Lemma view_event_leaves (hre : Route -> History -> History)
    (s : RecordRef * string) (cur : option Instance) (ev : ViewEvent)
    (h : History) :
  keeps_views hre →
  leaves_slot s cur ev →
  view_instance h s = cur →
  view_instance (view_event hre ev h) s = cur.
Proof.
  intros Hhre Hev Hcur.
  destruct ev as [vm at_|vm at_|m n ci|m n r ka ci];
    cbn [view_event leaves_slot] in *.
  - destruct at_ as [[m n]|]; cbn [registerInstance closure option_map fst snd];
      [|exact Hcur].
    destruct (decide ((m, n) = s)) as [<-|Hne];
      [|rewrite registerRouteInstance_other by exact Hne; exact Hcur].
    destruct Hev as [Hat|Hv]; [congruence|].
    unfold view_instance in *. cbn [fst snd] in *.
    rewrite registerRouteInstance_slot. cbv zeta. rewrite Hcur, Hv.
    rewrite bool_decide_eq_true_2; reflexivity.
  - destruct at_ as [[m n]|]; cbn [registerInstance closure option_map fst snd];
      [|exact Hcur].
    destruct (decide ((m, n) = s)) as [<-|Hne];
      [|rewrite registerRouteInstance_other by exact Hne; exact Hcur].
    destruct Hev as [Hat|Hv]; [congruence|].
    unfold view_instance in *. cbn [fst snd] in *.
    rewrite registerRouteInstance_slot. cbv zeta. rewrite Hcur.
    rewrite bool_decide_eq_false_2; [reflexivity|exact Hv].
  - unfold prepatch.
    destruct (decide ((m, n) = s)) as [<-|Hne];
      [|rewrite assign_instance_other by exact Hne; exact Hcur].
    destruct Hev as [Hat| ->]; [congruence|]. apply assign_instance_same.
  - unfold init. cbv zeta. rewrite handleRouteEntered_slot by exact Hhre.
    destruct (decide ((m, n) = s)) as [<-|Hne].
    + destruct Hev as [Hat|[-> |[-> | ->]]]; [congruence| | |].
      * exact Hcur.
      * rewrite (bool_decide_eq_false_2 (is_Some None))
          by (intros [x Hx]; discriminate).
        rewrite andb_false_r. exact Hcur.
      * unfold view_instance in Hcur. cbn [fst snd] in Hcur.
        rewrite Hcur, (bool_decide_eq_true_2 (cur = cur)) by reflexivity.
        rewrite andb_false_r. unfold view_instance. exact Hcur.
    + destruct (_ && _); [|exact Hcur].
      rewrite assign_instance_other by exact Hne. exact Hcur.
Qed.

Lemma view_events_leave (hre : Route -> History -> History)
    (s : RecordRef * string) (cur : option Instance) (evs : list ViewEvent)
    (h : History) :
  keeps_views hre →
  Forall (leaves_slot s cur) evs →
  view_instance h s = cur →
  view_instance (view_events hre evs h) s = cur.
Proof.
  intros Hhre Hevs. revert h.
  induction Hevs as [|ev evs Hev _ IH]; intros h Hcur; [exact Hcur|].
  change (view_events hre (ev :: evs) h)
    with (view_events hre evs (view_event hre ev h)).
  apply IH. apply view_event_leaves; assumption.
Qed.

(** One event that registers an instance. *)
Lemma view_event_registers (hre : Route -> History -> History)
    (s : RecordRef * string) (vm : Instance) (ev : ViewEvent) (h : History) :
  keeps_views hre →
  registers s vm ev →
  view_instance (view_event hre ev h) s = Some vm.
Proof.
  intros Hhre Hev.
  destruct ev as [v at_|v at_|m n ci|m n r ka ci];
    cbn [view_event registers] in *.
  - destruct Hev as [-> ->]. destruct s as [m n].
    cbn [registerInstance closure option_map fst snd].
    unfold view_instance. cbn [fst snd].
    rewrite registerRouteInstance_slot. cbv zeta.
    destruct (bool_decide _) eqn:Hc; [|reflexivity].
    apply bool_decide_eq_true in Hc. exact Hc.
  - contradiction.
  - destruct Hev as [<- ->]. apply assign_instance_same.
  - destruct Hev as (<- & -> & ->). unfold init. cbv zeta.
    rewrite handleRouteEntered_slot by exact Hhre.
    rewrite (bool_decide_eq_true_2 (is_Some (Some vm)))
      by (eexists; reflexivity).
    cbn [andb]. destruct (bool_decide _) eqn:Hc; cbn [negb].
    + apply bool_decide_eq_true in Hc. symmetry. exact Hc.
    + apply assign_instance_same.
Qed.

Lemma slot_after_registered (hre : Route -> History -> History)
    (s : RecordRef * string) (vm : Instance) (write : ViewEvent)
    (before after : list ViewEvent) (h : History) :
  keeps_views hre →
  registers s vm write →
  Forall (leaves_slot s (Some vm)) after →
  view_instance (view_events hre (before ++ write :: after) h) s = Some vm.
Proof.
  intros Hhre Hwrite Hafter. rewrite view_events_app.
  change (view_events hre (write :: after) ?h0)
    with (view_events hre after (view_event hre write h0)).
  apply view_events_leave; [exact Hhre|exact Hafter|].
  apply view_event_registers; assumption.
Qed.

Lemma slot_after_destroyed (hre : Route -> History -> History)
    (s : RecordRef * string) (vm : Instance) (write : ViewEvent)
    (before after later : list ViewEvent) (h : History) :
  keeps_views hre →
  registers s vm write →
  Forall (leaves_slot s (Some vm)) after →
  Forall (leaves_slot s None) later →
  view_instance
    (view_events hre
       (before ++ write :: after ++ Destroyed vm (Some s) :: later) h) s
  = None.
Proof.
  intros Hhre Hwrite Hafter Hlater.
  change (before ++ write :: after ++ Destroyed vm (Some s) :: later)
    with (before ++ (write :: after) ++ Destroyed vm (Some s) :: later).
  rewrite app_assoc, view_events_app.
  change (view_events hre (Destroyed vm (Some s) :: later) ?h0)
    with (view_events hre later (view_event hre (Destroyed vm (Some s)) h0)).
  apply view_events_leave; [exact Hhre|exact Hlater|].
  cbn [view_event registerInstance closure option_map].
  unfold view_instance. destruct s as [m n]. cbn [fst snd].
  rewrite registerRouteInstance_slot. cbv zeta.
  pose proof (slot_after_registered hre (m, n) vm write before after h Hhre
                Hwrite Hafter) as Hheld.
  unfold view_instance in Hheld. cbn [fst snd] in Hheld.
  rewrite Hheld, bool_decide_eq_true_2; reflexivity.
Qed.

Lemma slot_after_destroyed_elsewhere (hre : Route -> History -> History)
    (s : RecordRef * string) (vm : Instance) (write : ViewEvent)
    (at_ : option (RecordRef * string))
    (before after later : list ViewEvent) (h : History) :
  keeps_views hre →
  registers s vm write →
  Forall (leaves_slot s (Some vm)) after →
  Forall (leaves_slot s (Some vm)) later →
  at_ ≠ Some s →
  view_instance
    (view_events hre
       (before ++ write :: after ++ Destroyed vm at_ :: later) h) s
  = Some vm.
Proof.
  intros Hhre Hwrite Hafter Hlater Hat.
  apply slot_after_registered; [exact Hhre|exact Hwrite|].
  apply Forall_app. split; [exact Hafter|].
  constructor; [left; exact Hat|exact Hlater].
Qed.

(** X17: the slot of a view holds the instance that was registered in it
    last, by the [beforeCreate] of the instance under a vnode of that slot,
    by a [prepatch] of the slot or by the [init] of a kept-alive vnode of
    the slot; hooks of other slots and the [destroyed] of other instances
    do not change it.  The [destroyed] of the instance empties the slot when
    it acts through a vnode of that slot, and the slot then stays empty
    until something is registered in it; when the instance was reused for
    another route and its [destroyed] acts through a vnode of another
    record, the slot goes on holding the instance.  [handleRouteEntered] is
    assumed to assign no instance. *)
Theorem view_slot_holds_last_registered
    (handleRouteEntered : Route -> History -> History)
    (s : RecordRef * string) (vm : Instance) (write : ViewEvent)
    (before after later : list ViewEvent) (h : History) :
  keeps_views handleRouteEntered →
  registers s vm write →
  Forall (leaves_slot s (Some vm)) after →
  let run := view_events handleRouteEntered in
  view_instance (run (before ++ write :: after) h) s = Some vm
  ∧ (Forall (leaves_slot s None) later →
     view_instance
       (run (before ++ write :: after ++ Destroyed vm (Some s) :: later) h) s
     = None)
  ∧ (∀ at_, at_ ≠ Some s →
     Forall (leaves_slot s (Some vm)) later →
     view_instance
       (run (before ++ write :: after ++ Destroyed vm at_ :: later) h) s
     = Some vm)
  ∧ (∀ ci, view_instance (run (before ++ [Prepatch s.1 s.2 ci]) h) s = ci).
Proof.
  intros Hhre Hwrite Hafter. cbv zeta.
  split; [apply slot_after_registered; assumption|].
  split; [intros Hlater; apply slot_after_destroyed; assumption|].
  split; [intros at_ Hat Hlater;
          apply slot_after_destroyed_elsewhere; assumption|].
  intros ci. rewrite view_events_app. destruct s as [m n].
  apply assign_instance_same.
Qed.

(** The instance 6 replaces the instance 5 in the slot ["default"] of the
    record 10: it is created before 5 is destroyed.  Then the route changes
    to one matched by the record 11, for which the instance is reused: its
    [destroyed] later acts through the vnode of the record 11, and the
    record 10 goes on holding it. *)
Lemma view_slot_holds_last_registered_witness :
  let run := view_events (fun _ h => h) in
  view_instance
    (run [BeforeCreate 6 (Some (10, "default"));
          Destroyed 5 (Some (10, "default"))] at_c) (10, "default") = Some 6
  ∧ view_instance
      (run [BeforeCreate 6 (Some (10, "default"));
            Destroyed 5 (Some (10, "default"));
            Prepatch 11 "default" (Some 6);
            Destroyed 6 (Some (11, "default"))] at_c) (10, "default")
    = Some 6
  ∧ view_instance
      (run [BeforeCreate 6 (Some (10, "default"));
            Destroyed 5 (Some (10, "default"));
            Destroyed 6 (Some (10, "default"))] at_c) (10, "default")
    = None.
Proof.
  cbv zeta.
  assert (Hhre : keeps_views (fun _ h => h)) by (intros r h m; auto).
  assert (Hafter : Forall (leaves_slot (10, "default") (Some 6))
                     [Destroyed 5 (Some (10, "default"))])
    by (constructor; [right; discriminate|constructor]).
  destruct (view_slot_holds_last_registered (fun _ h => h) (10, "default") 6
              (BeforeCreate 6 (Some (10, "default"))) []
              [Destroyed 5 (Some (10, "default"))] [] at_c Hhre
              (conj eq_refl eq_refl) Hafter) as (Hheld & Hgone & _).
  destruct (view_slot_holds_last_registered (fun _ h => h) (10, "default") 6
              (BeforeCreate 6 (Some (10, "default"))) []
              [Destroyed 5 (Some (10, "default"));
               Prepatch 11 "default" (Some 6)] [] at_c Hhre
              (conj eq_refl eq_refl)) as (_ & _ & Hstale & _).
  { constructor; [right; discriminate|].
    constructor; [left; discriminate|constructor]. }
  split; [exact Hheld|].
  split; [|apply Hgone; constructor].
  apply (Hstale (Some (11, "default"))); [discriminate|constructor].
Defined.

Lemma hooks_none (gs : list (option Hook)) :
  (∀ hook, ¬ In (Some hook) gs) → hooks gs = [].
Proof.
  unfold hooks. induction gs as [|[x|] gs IH]; simpl; intros Hno.
  - reflexivity.
  - exfalso. apply (Hno x). left. reflexivity.
  - apply IH. intros hook Hin. apply (Hno hook). right. exact Hin.
Qed.

(** X18: the leave guards follow the instance of the view.  While the
    slot of a view holds the instance registered last, every leave guard of
    the component of that slot is extracted bound to that instance; once
    the instance is destroyed through a vnode of that slot, a record whose
    only view it was gives no leave guard at all, so that leaving the route
    calls none.  When the instance was reused for another route and is
    destroyed through a vnode of another record, the leave guards of the
    first record are still extracted bound to it.  [handleRouteEntered] is
    assumed to assign no instance and no component. *)
Theorem leave_guards_follow_the_instance
    (handleRouteEntered : Route -> History -> History)
    (m : RecordRef) (name_ : string) (vm : Instance) (c : Component)
    (write : ViewEvent) (before after later : list ViewEvent) (h : History) :
  keeps_views handleRouteEntered →
  registers (m, name_) vm write →
  Forall (leaves_slot (m, name_) (Some vm)) after →
  In (name_, Resolved c) (components (record_of (heap h) m)) →
  let run := view_events handleRouteEntered in
  let bound_to_vm h' :=
    ∀ records leave g,
      In m records →
      extractLeaveGuards (heap h') records = Some leave →
      In g (guards_of (comp_options c !! "beforeRouteLeave")) →
      In (Some (BoundRouteGuard g vm)) leave in
  bound_to_vm (run (before ++ write :: after) h)
  ∧ (∀ at_, at_ ≠ Some (m, name_) →
     Forall (leaves_slot (m, name_) (Some vm)) later →
     bound_to_vm
       (run (before ++ write :: after ++ Destroyed vm at_ :: later) h))
  ∧ (Forall (leaves_slot (m, name_) None) later →
     components (record_of (heap h) m) = [(name_, Resolved c)] →
     ∃ leave,
       extractLeaveGuards
         (heap (run (before ++ write :: after
                     ++ Destroyed vm (Some (m, name_)) :: later) h)) [m]
       = Some leave
       ∧ hooks leave = []).
Proof.
  intros Hhre Hwrite Hafter Hslot. cbv zeta.
  assert (Hbound : ∀ evs,
    view_instance (view_events handleRouteEntered evs h) (m, name_) = Some vm →
    ∀ records leave g,
      In m records →
      extractLeaveGuards (heap (view_events handleRouteEntered evs h)) records
      = Some leave →
      In g (guards_of (comp_options c !! "beforeRouteLeave")) →
      In (Some (BoundRouteGuard g vm)) leave).
  { intros evs Hheld records leave g Hm Hleave Hg.
    apply (extractGuards_elem _ _ _ _ _ _ _ Hleave).
    exists m, name_, c, g.
    rewrite view_events_components by exact Hhre.
    unfold view_instance in Hheld. cbn [fst snd] in Hheld. rewrite Hheld.
    auto. }
  split; [apply Hbound, slot_after_registered; assumption|].
  split.
  - intros at_ Hat Hlater.
    apply Hbound, slot_after_destroyed_elsewhere; assumption.
  - intros Hlater Honly.
    set (gone := view_events _ _ h).
    assert (Hcomp : components (record_of (heap gone) m)
                    = [(name_, Resolved c)])
      by (unfold gone; rewrite view_events_components by exact Hhre;
          exact Honly).
    destruct (proj2 (extractGuards_is_Some (heap gone) [m] "beforeRouteLeave"
                       bindGuard true)) as [leave Hleave].
    { unfold no_async. simpl. rewrite Hcomp. reflexivity. }
    exists leave. split; [exact Hleave|].
    apply hooks_none. intros hook Hin.
    apply (extractGuards_elem _ _ _ _ _ _ _ Hleave) in Hin
      as (m' & key & c' & g & Hm' & Hkb & _ & Hbind).
    destruct Hm' as [<-|[]]. rewrite Hcomp in Hkb.
    destruct Hkb as [[= <- <-]|[]].
    pose proof (slot_after_destroyed handleRouteEntered (m, name_) vm write
                  before after later h Hhre Hwrite Hafter Hlater) as Hnone.
    unfold view_instance in Hnone. cbn [fst snd] in Hnone.
    fold gone in Hnone. rewrite Hnone in Hbind.
    discriminate Hbind.
Qed.

(** The view of the record 10 is mounted as the instance 6, with a leave
    guard; the guard is extracted bound to 6, also after the instance was
    reused under the record 11 and destroyed there. *)
Lemma leave_guards_follow_the_instance_witness :
  let c := {| comp_is_function := false;
              comp_options :=
                {["beforeRouteLeave" :=
                    OneGuard (guard_calling 22 VUndefined)]} |} in
  let h := set_heap {[10 := sample_record (comp_options c) None]} at_c in
  ∃ leave,
    extractLeaveGuards
      (heap (view_events (fun _ h => h)
               [BeforeCreate 6 (Some (10, "default"));
                Destroyed 5 (Some (10, "default"));
                Prepatch 11 "default" (Some 6);
                Destroyed 6 (Some (11, "default"))] h)) [10]
    = Some leave
    ∧ In (Some (BoundRouteGuard (guard_calling 22 VUndefined) 6)) leave.
Proof.
  cbv zeta.
  assert (Hhre : keeps_views (fun _ h => h)) by (intros r h m; auto).
  destruct (leave_guards_follow_the_instance (fun _ h => h) 10 "default" 6
              {| comp_is_function := false;
                 comp_options :=
                   {["beforeRouteLeave" :=
                       OneGuard (guard_calling 22 VUndefined)]} |}
              (BeforeCreate 6 (Some (10, "default"))) []
              [Destroyed 5 (Some (10, "default"));
               Prepatch 11 "default" (Some 6)] []
              (set_heap
                 {[10 := sample_record
                           {["beforeRouteLeave" :=
                               OneGuard (guard_calling 22 VUndefined)]}
                           None]} at_c) Hhre (conj eq_refl eq_refl))
    as (_ & Hstale & _).
  - constructor; [right; discriminate|].
    constructor; [left; discriminate|constructor].
  - left. reflexivity.
  - eexists. split; [vm_compute; reflexivity|].
    apply (Hstale (Some (11, "default")) ltac:(discriminate)
             ltac:(constructor) [10]).
    + left. reflexivity.
    + vm_compute. reflexivity.
    + left. reflexivity.
Defined.

(** ** The props of a view *)




(** ** Failures inside a step *)

(** X20: an [Error] that a guard throws and an [Error] that it passes to
    [next] both end the navigation with that error, handed to [abort] in
    the same way; the difference is that the visible location is reconciled
    only for the one passed to [next].  A value thrown that is not an
    [Error] is handed to [abort] as well. *)
Theorem thrown_and_passed_errors (route prev : Route)
    (onAbort : option (JsValue -> History -> History)) (hook : Hook)
    (g : NavigationGuard) (next : Cont) (e : JsValue) (h : History) :
  guard_of hook = Some g →
  pending h = Some route →
  let h1 := emit (EHook hook route prev) h in
  (guard_body g (this_of hook) route prev
   = {| calls := []; throws := Some e |} →
   iterator route prev onAbort hook next h = Ok (abort onAbort e h1))
  ∧ (isError e = true →
     guard_body g (this_of hook) route prev
     = {| calls := [e]; throws := None |} →
     iterator route prev onAbort hook next h
     = Ok (abort onAbort e (emit (EEnsureURL true) h1))).
Proof.
  intros Hg Hp. cbv zeta. unfold iterator.
  rewrite (pending_differs_same route h Hp). unfold callHook. cbv zeta.
  split.
  - intros Hbody.
    destruct hook as [g'|g' i|g' m key|ms]; simpl in Hg; try discriminate;
      injection Hg as ->; simpl in Hbody;
      unfold routeEnterGuard, applyGuard; rewrite Hbody; reflexivity.
  - intros He Hbody. destruct e; try discriminate He.
    destruct hook as [g'|g' i|g' m key|ms]; simpl in Hg; try discriminate;
      injection Hg as ->; simpl in Hbody;
      unfold routeEnterGuard, applyGuard; rewrite Hbody; reflexivity.
Qed.

Lemma thrown_and_passed_errors_witness :
  iterator route_a START None (Guard (guard_throwing 1 (VError (UserError 3))))
    Ok (set_pending (Some route_a) (fresh sample_throwing_router ∅))
  = Ok (abort None (VError (UserError 3))
          (emit (EHook (Guard (guard_throwing 1 (VError (UserError 3))))
                       route_a START)
                (set_pending (Some route_a)
                   (fresh sample_throwing_router ∅)))).
Proof.
  destruct (thrown_and_passed_errors route_a START None
              (Guard (guard_throwing 1 (VError (UserError 3))))
              (guard_throwing 1 (VError (UserError 3))) Ok
              (VError (UserError 3))
              (set_pending (Some route_a) (fresh sample_throwing_router ∅))
              eq_refl eq_refl) as [Hthrown _].
  apply Hthrown. reflexivity.
Defined.

(** X21: a factory that rejects and a factory that throws fail the
    navigation alike.  For a record with one view bound to a factory, the
    resolution step warns (outside production), and aborts the navigation
    with the reason when it is an [Error] and with an [Error] made from it
    otherwise, after the visible location has been reconciled; nothing that
    follows the step in the queue is run. *)
Theorem failed_factory_aborts (route prev : Route)
    (onAbort : option (JsValue -> History -> History)) (m : RecordRef)
    (key : string) (def : Factory) (reason : JsValue) (next : Cont)
    (h : History) :
  pending h = Some route →
  components (record_of (heap h) m) = [(key, AsyncFactory def)] →
  (factory_actions def = [CallReject reason] ∧ factory_throws def = None)
  ∨ (factory_actions def = [] ∧ factory_throws def = Some reason) →
  let err := if isError reason then reason
             else VError (AsyncComponentError key reason) in
  let h1 := emit (EHook (ResolveAsync [m]) route prev) h in
  let h2 := if production h then h1 else emit (EWarnAsync key reason) h1 in
  iterator route prev onAbort (ResolveAsync [m]) next h
  = Ok (abort onAbort err (emit (EEnsureURL true) h2)).
Proof.
  intros Hp Hcomp Hdef. cbv zeta. unfold iterator.
  rewrite (pending_differs_same route h Hp). unfold callHook. cbv zeta.
  set (h1 := emit (EHook (ResolveAsync [m]) route prev) h).
  set (next' := hookCallback route prev onAbort next).
  assert (Hrej : ∀ st,
    error st = None → (0, key) ∉ rejectCalled st →
    ∃ st',
      reject (0, key) next' reason st h1
      = (st',
         Ok (abort onAbort
               (if isError reason then reason
                else VError (AsyncComponentError key reason))
               (emit (EEnsureURL true)
                  (if production h then h1
                   else emit (EWarnAsync key reason) h1))))
      ∧ hasAsync st' = hasAsync st).
  { intros st Herr Hnew. rewrite (reject_first _ _ _ _ _ Hnew). cbv zeta.
    rewrite Herr. change (production h1) with (production h).
    exists (set_error
              match reason with
              | VError _ => reason
              | _ => VError (AsyncComponentError key reason)
              end (mark_reject (0, key) st)).
    split; [|reflexivity].
    unfold next'. destruct (production h);
      destruct reason; reflexivity. }
  unfold resolveAsyncComponents. cbn [visitRecords].
  change (heap h1) with (heap h). rewrite Hcomp. cbn [map fst visitKeys].
  unfold visitComponent. change (heap h1) with (heap h). rewrite Hcomp.
  cbn [lookup_binding]. destruct (decide (key = key)); [|contradiction].
  unfold callFactory.
  destruct Hdef as [[Hacts Hthrows]|[Hacts Hthrows]];
    rewrite Hacts, Hthrows; cbn [runFactoryActions fst snd].
  - destruct (Hrej (begin_async initialStep) eq_refl
                (not_elem_of_empty (0, key))) as (st' & -> & Hasync).
    cbn [fst snd]. rewrite Hasync. reflexivity.
  - destruct (Hrej (begin_async initialStep) eq_refl
                (not_elem_of_empty (0, key))) as (st' & -> & Hasync).
    cbn [fst snd]. rewrite Hasync. reflexivity.
Qed.

(** The factory of the record 41 throws the string "offline". *)
Lemma failed_factory_aborts_witness :
  let def := {| factory_ref := 1; factory_actions := [];
                factory_throws := Some (VString "offline") |} in
  let h := set_pending (Some route_a)
             (set_heap {[41 := {| components := [("default", AsyncFactory def)];
                                  instances := ∅; enteredCbs := ∅;
                                  beforeEnter := None |}]}
                (fresh sample_throwing_router ∅)) in
  trace (state_of (iterator route_a START None (ResolveAsync [41]) Ok h))
  = [EHook (ResolveAsync [41]) route_a START;
     EWarnAsync "default" (VString "offline");
     EEnsureURL true;
     EWarn "uncaught error during route navigation:";
     EConsoleError (VError (AsyncComponentError "default"
                              (VString "offline")))].
Proof.
  cbv zeta.
  rewrite (failed_factory_aborts route_a START None 41 "default"
             {| factory_ref := 1; factory_actions := [];
                factory_throws := Some (VString "offline") |}
             (VString "offline") Ok
             (set_pending (Some route_a)
                (set_heap
                   {[41 := {| components :=
                                [("default",
                                  AsyncFactory
                                    {| factory_ref := 1;
                                       factory_actions := [];
                                       factory_throws :=
                                         Some (VString "offline") |})];
                              instances := ∅; enteredCbs := ∅;
                              beforeEnter := None |}]}
                   (fresh sample_throwing_router ∅)))).
  - reflexivity.
  - reflexivity.
  - vm_compute. reflexivity.
  - right. split; reflexivity.
Defined.

(** ** What a navigation leaves alone *)

Lemma registrations_emits (es : list Effect) (h : History) :
  registrations (emits es h) = registrations h.
Proof. reflexivity. Qed.






(** ** A navigation that waits for its views *)

Lemma async_slots_components (hp hp' : gmap nat RouteRecord)
    (ms : list RecordRef) (idx : nat) :
  (∀ m, components (record_of hp' m) = components (record_of hp m)) →
  async_slots hp' idx ms = async_slots hp idx ms.
Proof.
  intros Hc. revert idx. induction ms as [|m ms IH]; intros idx; simpl;
    [reflexivity|]. rewrite Hc, IH. reflexivity.
Qed.

Lemma resolution_step_waits (route current_ : Route)
    (onAbort : option (JsValue -> History -> History))
    (ms : list RecordRef) (next : Cont) (hp : gmap nat RouteRecord)
    (h : History) :
  pending h = Some route →
  (∀ m, components (record_of (heap h) m) = components (record_of hp m)) →
  well_keyed hp ms → all_deferred hp ms → async_slots hp 0 ms ≠ [] →
  iterator route current_ onAbort (ResolveAsync ms) next h
  = Ok (emit (EHook (ResolveAsync ms) route current_) h).
Proof.
  intros Hp Hc Hkeys Hdef Hsome. unfold iterator.
  rewrite (pending_differs_same route h Hp). unfold callHook. cbv zeta.
  unfold resolveAsyncComponents.
  rewrite visitRecords_deferred.
  - cbn [fst snd]. change (heap (emit _ h)) with (heap h).
    rewrite (async_slots_components hp (heap h) ms 0 Hc).
    destruct (begun_initial (length (async_slots hp 0 ms)))
      as (Ha & _). rewrite Ha.
    rewrite bool_decide_eq_false_2; [reflexivity|].
    intros Hlen. apply Hsome. apply length_zero_iff_nil, Hlen.
  - intros m Hm. change (heap (emit _ h)) with (heap h). rewrite Hc.
    apply Hkeys, Hm.
  - intros m key f Hm. change (heap (emit _ h)) with (heap h). rewrite Hc.
    apply Hdef, Hm.
Qed.

(** X23: a navigation whose activated records have views bound to
    factories that do not settle at once stops at the resolution step: when
    the guards before it approve, they and the step are all that is run,
    and [confirmTransition] returns with the navigation pending, the
    current route in place and the records as they were.  No enter guard
    and no before-resolve hook is run and nothing is committed before the
    factories resolve. *)
Theorem navigation_waits_for_factories (route : Route)
    (onComplete : Route -> History -> History)
    (onAbort : option (JsValue -> History -> History)) (h : History)
    (leave update : list (option Hook)) :
  let q := resolveQueue (matched (current h)) (matched route) in
  let pre :=
    leave ++ global_hooks (beforeHooks (router h)) ++ update
    ++ map (fun m => option_map Guard (beforeEnter (record_of (heap h) m)))
           (activated q) in
  ¬ (path route = path (current h) ∧ query route = query (current h)
     ∧ hash route = hash (current h) ∧ params route = params (current h)
     ∧ length (matched route) = length (matched (current h))
     ∧ last (matched route) = last (matched (current h))) →
  extractLeaveGuards (heap h) (deactivated q) = Some leave →
  extractUpdateHooks (heap h) (updated q) = Some update →
  all_approve route (current h) (heap h) pre →
  well_keyed (heap h) (activated q) →
  all_deferred (heap h) (activated q) →
  async_slots (heap h) 0 (activated q) ≠ [] →
  ∃ h',
    confirmTransition route onComplete onAbort h = Ok h'
    ∧ trace h'
      = trace h ++ map (fun hook => EHook hook route (current h))
                       (hooks pre ++ [ResolveAsync (activated q)])
    ∧ current h' = current h ∧ pending h' = Some route
    ∧ (∀ m, components (record_of (heap h') m)
            = components (record_of (heap h) m)).
Proof.
  intros q pre Hnd Hleave Hupdate Hall Hkeys Hdef Hsome.
  set (h0 := set_pending (Some route) h).
  set (h1 := after_passes route (current h) (hooks pre) h0).
  destruct (after_passes_frame route (current h) (hooks pre) h0)
    as (Ht1 & Hp1 & Hc1 & _ & _ & Hcomp1 & _).
  cbv zeta in Ht1, Hp1, Hc1, Hcomp1. fold h1 in Ht1, Hp1, Hc1, Hcomp1.
  assert (Hstep : ∀ k,
    iterator route (current h) onAbort (ResolveAsync (activated q)) k h1
    = Ok (emit (EHook (ResolveAsync (activated q)) route (current h)) h1)).
  { intros k. apply (resolution_step_waits _ _ _ _ _ (heap h)); auto. }
  exists (emit (EHook (ResolveAsync (activated q)) route (current h)) h1).
  split; [|split; [|split; [|split]]].
  - rewrite confirmTransition_runs. cbv zeta.
    fold q. rewrite Hleave, Hupdate.
    match goal with |- runQueue ?queue _ ?k _ = _ =>
      replace queue with (pre ++ [Some (ResolveAsync (activated q))])
        by (unfold pre; rewrite <- !app_assoc; reflexivity);
      rewrite runQueue_app;
      rewrite (runQueue_approved _ _ _ (heap h) pre
                 (runQueue [Some (ResolveAsync (activated q))]
                           (iterator route (current h) onAbort) k))
    end.
    + fold h0 h1. simpl. apply Hstep.
    + reflexivity.
    + intros m; reflexivity.
    + exact Hall.
    + fold h0 h1. simpl. eexists. apply Hstep.
  - simpl. rewrite Ht1. simpl. rewrite map_app, app_assoc. reflexivity.
  - simpl. exact Hc1.
  - simpl. exact Hp1.
  - intros m. simpl. apply Hcomp1.
Qed.

(** An engine whose matcher sends every location to "/lazy", matched by
    the record 40 with its two factories that defer: the resolution step is
    the only one, and the navigation waits in it. *)
Lemma navigation_waits_for_factories_witness :
  ∃ h',
    confirmTransition (sample_route 9 "/lazy" [40]) (fun _ h => h) None
      lazy_engine = Ok h'
    ∧ trace h' = [EHook (ResolveAsync [40]) (sample_route 9 "/lazy" [40])
                        START]
    ∧ pending h' = Some (sample_route 9 "/lazy" [40]).
Proof.
  destruct (navigation_waits_for_factories (sample_route 9 "/lazy" [40])
              (fun _ h => h) None lazy_engine [] [])
    as (h' & Heq & Ht & _ & Hp & _).
  - intros (Hpath & _). discriminate Hpath.
  - vm_compute. reflexivity.
  - vm_compute. reflexivity.
  - repeat constructor.
  - intros m Hm. vm_compute in Hm. destruct Hm as [<-|[]].
    apply (bool_decide_unpack _). vm_compute. exact I.
  - intros m key f Hm Hin. vm_compute in Hm. destruct Hm as [<-|[]].
    vm_compute in Hin.
    destruct Hin as [[= <- <-]|[[= <- <-]|[]]]; split; reflexivity.
  - vm_compute. discriminate.
  - exists h'. split; [exact Heq|]. split; [|exact Hp].
    rewrite Ht. vm_compute. reflexivity.
Defined.

(** X24: when the last factory of a navigation that waits in the
    resolution step resolves, the navigation goes on from there: if it is
    still the pending one and the enter guards and the before-resolve hooks
    approve, they run in order and the navigation is committed; if another
    navigation has taken its place meanwhile, the component is stored but
    no hook runs and the current route stays. *)
Theorem last_resolution_resumes (route prev : Route) (oc oa : option FnRef)
    (act : list RecordRef) (slots : gset (nat * string))
    (slot : nat * string) (m : RecordRef) (def : Factory) (d : ResolvedDef)
    (st : StepState) (h : History) (enter : list (option Hook)) :
  counts slots st →
  slot ∉ resolveCalled st →
  {[slot]} ∪ resolveCalled st = slots →
  let stored :=
    assign_component m slot.2 (Resolved (unwrap_module d))
      (set_factory_resolved
         (<[factory_ref def := as_constructor (unwrap_module d)]>
            (factory_resolved h)) h) in
  let second := enter ++ global_hooks (resolveHooks (router h)) in
  let h' := perform (OpResolve route prev oc oa act [] slot m def d st) h in
  (pending h = Some route →
   extractEnterGuards (heap stored) act = Some enter →
   all_approve route prev (heap stored) second →
   current h' = route ∧ pending h' = None ∧ ready h' = true
   ∧ invoked (trace h') = invoked (trace h) ++ hooks second)
  ∧ (pending_differs h route = true →
     current h' = current h ∧ invoked (trace h') = invoked (trace h)).
Proof.
  intros [Hsub Hcount] Hnew Hfull. cbv zeta.
  assert (Hone : (pendingCount st - 1 <=? 0)%Z = true).
  { apply Z.leb_le. rewrite Hcount, <- Hfull.
    rewrite size_union by (apply disjoint_singleton_l, Hnew).
    rewrite size_singleton. lia. }
  unfold perform. rewrite (resolve_first _ _ _ _ _ _ _ Hnew). cbv zeta.
  cbn [snd]. rewrite Hone.
  set (stored := assign_component _ _ _ _).
  split.
  - intros Hp Henter Hall.
    unfold guard_next. cbv zeta.
    rewrite hookCallback_proceeds by reflexivity.
    destruct (pipeline_approved route prev
                (onTransitionComplete route prev oc)
                (Some (onTransitionAbort prev oa)) act [] enter stored
                Hp Henter Hall) as (h1 & Heq & Ht & _ & _).
    rewrite Heq.
    destruct (onTransitionComplete_frame route prev oc route
                (set_pending None h1)) as (Hc & Hpn & _ & _ & Hr & Hi).
    cbv zeta in Hc, Hpn, Hr, Hi.
    assert (Hinv : invoked (trace (onTransitionComplete route prev oc route
                                     (set_pending None h1)))
                   = invoked (trace h)
                     ++ hooks (enter
                               ++ global_hooks (resolveHooks (router h)))).
    { rewrite Hi. change (trace (set_pending None h1)) with (trace h1).
      rewrite Ht. change (trace stored) with (trace h).
      rewrite invoked_app, invoked_hooks. reflexivity. }
    cbv zeta. cbn [state_of]. destruct (app _).
    + split; [exact Hc|]. split; [exact Hpn|]. split; [exact Hr|].
      rewrite invoked_emit_other by exact I. exact Hinv.
    + split; [exact Hc|]. split; [exact Hpn|]. split; [exact Hr|exact Hinv].
  - intros Hdiff.
    destruct (superseded_next_invokes_nothing route prev oc oa act false []
                VUndefined stored Hdiff) as [Hi Hc].
    cbv zeta in Hi, Hc. rewrite Hi, Hc. split; reflexivity.
Qed.

(** The only factory of the record 41 resolves while the navigation to
    "/lazy" is the pending one: the navigation is committed. *)
Lemma last_resolution_resumes_witness :
  let route := sample_route 9 "/lazy" [41] in
  let h := state_of (transitionTo (VString "/lazy") None None lazy_single) in
  let h' := perform (OpResolve route START None None [41] [] (0, "default")
                       41 (deferred 1) (PlainDef plain_component)
                       (begun 1 initialStep)) h in
  pending h = Some route ∧ current h = START
  ∧ current h' = route ∧ pending h' = None ∧ ready h' = true.
Proof.
  cbv zeta.
  destruct (last_resolution_resumes (sample_route 9 "/lazy" [41]) START
              None None [41] {[(0, "default")]} (0, "default") 41
              (deferred 1) (PlainDef plain_component) (begun 1 initialStep)
              (state_of (transitionTo (VString "/lazy") None None
                           lazy_single))
              [None]) as [Hcommit _].
  - split; [apply empty_subseteq|]. vm_compute. reflexivity.
  - apply not_elem_of_empty.
  - apply (right_id_L ∅ (∪)).
  - cbv zeta in Hcommit.
    destruct Hcommit as (Hc & Hp & Hr & _).
    + vm_compute. reflexivity.
    + vm_compute. reflexivity.
    + repeat constructor.
    + split; [vm_compute; reflexivity|]. split; [vm_compute; reflexivity|].
      split; [exact Hc|]. split; [exact Hp|exact Hr].
Defined.

(** ** The location *)

(** X25: [getLocation] undoes the prefixing of the base.  For a location
    whose pathname is the base, in whatever case, followed by a rest, all
    of ASCII characters, it returns the rest, or a slash when there is none,
    followed by the search and the hash.  The base is cut off by its
    length: the rest need not begin a new segment of the path. *)
Theorem getLocation_strips_base (toLowerCase : JsString -> JsString)
    (found rest search hash base : JsString) :
  lowers_ascii toLowerCase →
  Forall ascii_unit found → Forall ascii_unit rest → Forall ascii_unit base →
  map to_lower_unit found = map to_lower_unit base →
  getLocation toLowerCase (found ++ rest) search hash base
  = (if bool_decide (rest = []) then units "/" else rest) ++ search ++ hash.
Proof.
  intros Hlower Hfound Hrest Hbase Hcase. unfold getLocation. cbv zeta.
  assert (Hlen : length base = length found).
  { rewrite <- (length_map to_lower_unit base), <- Hcase.
    apply length_map. }
  destruct (bool_decide (base = [])) eqn:Hb; cbn [negb andb].
  - apply bool_decide_eq_true in Hb. subst base.
    destruct found; [reflexivity|discriminate Hlen].
  - rewrite (Hlower base Hbase).
    rewrite (Hlower (found ++ rest)) by (apply Forall_app; auto).
    rewrite map_app, Hcase.
    rewrite (bool_decide_eq_true_2
               (map to_lower_unit base
                `prefix_of` map to_lower_unit base ++ map to_lower_unit rest))
      by (exists (map to_lower_unit rest); reflexivity).
    rewrite Hlen, drop_app_length. reflexivity.
Qed.

(** With the base "/App", the pathname "/app/users" gives "/users", and
    the pathname "/application" gives "lication". *)
Lemma getLocation_strips_base_witness :
  getLocation (map to_lower_unit) (units "/app/users") (units "?page=2") []
    (units "/App")
  = units "/users?page=2"
  ∧ getLocation (map to_lower_unit) (units "/application") [] (units "#top")
      (units "/App")
    = units "lication#top".
Proof.
  assert (Hlower : lowers_ascii (map to_lower_unit))
    by (intros s _; reflexivity).
  assert (Hascii : ∀ s, forallb (fun c => (c <? 128)%N) s = true →
                        Forall ascii_unit s).
  { intros s Hs. apply Forall_forall. intros c Hc.
    rewrite forallb_forall in Hs. apply N.ltb_lt, Hs.
    apply list_elem_of_In, Hc. }
  split.
  - apply (getLocation_strips_base (map to_lower_unit) (units "/app")
             (units "/users") (units "?page=2") [] (units "/App") Hlower);
      try (apply Hascii; vm_compute; reflexivity).
    vm_compute. reflexivity.
  - apply (getLocation_strips_base (map to_lower_unit) (units "/app")
             (units "lication") [] (units "#top") (units "/App") Hlower);
      try (apply Hascii; vm_compute; reflexivity).
    vm_compute. reflexivity.
Defined.
